(** * The Ebisuzaki phase-randomisation significance test

    A shallow embedding of [ebisuzaki] from
    [03_monte_carlo/correlation_and_monte_carlo.ipynb].

    Numbers.  The float64 values held in NumPy arrays are modelled as exact
    real numbers extended with a not-a-number value: rounding and overflow
    are not modelled, the way NaN arises from a zero divisor and then
    spreads through every later operation is.  NumPy never raises on a
    float division by zero (it warns and yields NaN); Python exceptions are
    modelled by [Raises].

    One float computation is not idealised: the index
    [int(nsim * (1 - level))] of the critical value.  Its rounding decides
    which entry is read and whether the lookup raises, so [level] is a
    binary64 value and the index is computed bit for bit, with the
    Standard Library's specification of IEEE 754 arithmetic.

    Effects.  The function mutates the process-wide generator behind
    [np.random], reads operating-system entropy when [seed] is [None], and
    prints a report.  These live in [world], threaded by the monad [M];
    an exception leaves the world as it was when it was raised. *)

From Stdlib Require Import String.
From Stdlib Require Import Reals Lra Lia List ZArith Bool Arith.
From Stdlib Require Import Permutation Sorted.
From Stdlib Require SpecFloat.
Import ListNotations.

Open Scope R_scope.

(** ** Floating-point values *)

Inductive float : Type :=
| Fin (r : R)
| NaN.

Definition lift1 (f : R -> R) (a : float) : float :=
  match a with
  | Fin x => Fin (f x)
  | NaN => NaN
  end.

Definition lift2 (f : R -> R -> R) (a b : float) : float :=
  match a, b with
  | Fin x, Fin y => Fin (f x y)
  | _, _ => NaN
  end.

Definition fadd : float -> float -> float := lift2 Rplus.
Definition fsub : float -> float -> float := lift2 Rminus.
Definition fmul : float -> float -> float := lift2 Rmult.
Definition fneg : float -> float := lift1 Ropp.
Definition fabs : float -> float := lift1 Rabs.

(** A zero divisor gives NaN.  Infinities are not modelled: in this program
    a zero divisor meets a zero dividend (a zero standard deviation under
    zero deviations, a zero count under [nsim = 0]), or its quotient is at
    once multiplied by zero (the factor [1 / 0] of [np.cov] on fewer than
    two points), which is NaN in IEEE arithmetic as well. *)
Definition fdiv (a b : float) : float :=
  match a, b with
  | Fin x, Fin y => if Req_dec_T y 0 then NaN else Fin (x / y)
  | _, _ => NaN
  end.

Definition fsqrt (a : float) : float :=
  match a with
  | Fin x => if Rlt_dec x 0 then NaN else Fin (sqrt x)
  | NaN => NaN
  end.

(** [a > b]; every comparison with NaN is false. *)
Definition fgt (a b : float) : bool :=
  match a, b with
  | Fin x, Fin y => if Rlt_dec y x then true else false
  | _, _ => false
  end.

(** The order [np.sort] uses: NaN sorts after every number. *)
Definition fle_sort (a b : float) : bool :=
  match a, b with
  | Fin x, Fin y => if Rle_dec x y then true else false
  | _, NaN => true
  | NaN, Fin _ => false
  end.

Definition fsum (l : list float) : float := fold_right fadd (Fin 0) l.

(** ** Complex values (complex128: a pair of floats) *)

Record complex : Type := Cx { re : float; im : float }.

Definition cadd (a b : complex) : complex :=
  Cx (fadd (re a) (re b)) (fadd (im a) (im b)).

Definition cmul (a b : complex) : complex :=
  Cx (fsub (fmul (re a) (re b)) (fmul (im a) (im b)))
     (fadd (fmul (re a) (im b)) (fmul (im a) (re b))).

Definition of_real (a : float) : complex := Cx a (Fin 0).

Definition cdiv_real (a : complex) (d : float) : complex :=
  Cx (fdiv (re a) d) (fdiv (im a) d).

(** [sum_{m < n} f m] *)
Fixpoint csum (f : nat -> complex) (n : nat) : complex :=
  match n with
  | O => Cx (Fin 0) (Fin 0)
  | S n' => cadd (csum f n') (f n')
  end.

(** ** Python values, exceptions, outcomes *)

Inductive pyerr : Type :=
| ValueError (msg : string)
| IndexError (msg : string)
| TypeError (msg : string)
| OverflowError (msg : string).

Inductive outcome (A : Type) : Type :=
| Returns (a : A)
| Raises (e : pyerr).
Arguments Returns {A} a.
Arguments Raises {A} e.

Definition obind {A B : Type} (o : outcome A) (k : A -> outcome B) : outcome B :=
  match o with
  | Returns a => k a
  | Raises e => Raises e
  end.

Fixpoint omap {A B : Type} (f : A -> outcome B) (l : list A) : outcome (list B) :=
  match l with
  | [] => Returns []
  | a :: l' =>
      obind (f a) (fun b => obind (omap f l') (fun bs => Returns (b :: bs)))
  end.

(** The components of the tuple a call returns. *)
Inductive pyval : Type :=
| PyFloat (f : float)
| PyArray (a : list float).

(** The lines [print] writes; the [:.3f] rendering is not modelled. *)
Inductive line : Type :=
| Rule
| Observed (r : float)
| Critical (r : float)
| Fraction (f : float).

(** The messages of the exceptions that can reach the caller. *)
Definition msg_size : string := "Size of x and y must be the same".
Definition msg_negative : string := "negative dimensions are not allowed".
Definition msg_broadcast : string := "operands could not be broadcast together".
Definition msg_assign : string := "could not broadcast input array".
Definition msg_fft : string := "Invalid number of FFT data points (0) specified.".
Definition msg_concat : string := "all the input array dimensions must match exactly".
Definition msg_index : string := "index is out of bounds".
Definition msg_int_large : string := "int too large to convert to float".
Definition msg_inf_int : string := "cannot convert float infinity to integer".
Definition msg_nan_int : string := "cannot convert float NaN to integer".

(** ** Python floats

    A Python [float] is a binary64 value: 53 bits of mantissa, exponents
    up to 1024.  [SpecFloat] gives its values (the zeros, the infinities,
    NaN, and a sign with a mantissa and an exponent) and its operations
    rounded to nearest, ties to even. *)

Definition pyfloat : Type := SpecFloat.spec_float.

Definition b64_sub : pyfloat -> pyfloat -> pyfloat := SpecFloat.SFsub 53 1024.

Definition b64_mul : pyfloat -> pyfloat -> pyfloat := SpecFloat.SFmul 53 1024.

Definition b64_div : pyfloat -> pyfloat -> pyfloat := SpecFloat.SFdiv 53 1024.

(** [a < b] on floats; every comparison with NaN is false. *)
Definition b64_lt : pyfloat -> pyfloat -> bool := SpecFloat.SFltb.

(** The float nearest to an integer; an infinity when there is none. *)
Definition b64_of_int (k : Z) : pyfloat :=
  SpecFloat.binary_normalize 53 1024 k 0 false.

(** A zero, or a mantissa and an exponent within the bounds of the
    format. *)
Definition is_finite (f : pyfloat) : bool :=
  match f with
  | SpecFloat.S754_zero _ => true
  | SpecFloat.S754_finite _ m e => SpecFloat.bounded 53 1024 m e
  | _ => false
  end.

(** A Python float that is neither NaN nor an infinity. *)
Record double : Type := Double {
  bits : pyfloat;
  bits_finite : is_finite bits = true
}.

Coercion bits : double >-> pyfloat.

(** The conversion of a Python integer that meets a float in an
    arithmetic operation. *)
Definition float_of_int (k : Z) : outcome pyfloat :=
  match b64_of_int k with
  | SpecFloat.S754_infinity _ => Raises (OverflowError msg_int_large)
  | f => Returns f
  end.

(** [int(f)]: truncation toward zero; NaN and the infinities raise. *)
Definition py_int (f : pyfloat) : outcome Z :=
  match f with
  | SpecFloat.S754_zero _ => Returns 0%Z
  | SpecFloat.S754_finite s m e =>
      let a := if (0 <=? e)%Z then (Z.pos m * 2 ^ e)%Z
               else (Z.pos m / 2 ^ (- e))%Z in
      Returns (if s then (- a)%Z else a)
  | SpecFloat.S754_infinity _ => Raises (OverflowError msg_inf_int)
  | SpecFloat.S754_nan => Raises (ValueError msg_nan_int)
  end.

(** ** Array primitives of NumPy and SciPy *)

Definition np_mean (a : list float) : float :=
  fdiv (fsum a) (Fin (INR (length a))).

(** [np.std], [ddof = 0]. *)
Definition np_std (a : list float) : float :=
  let m := np_mean a in
  fsqrt (np_mean (map (fun v => fmul (fsub v m) (fsub v m)) a)).

(** [scipy.stats.zscore] along the only axis, [ddof = 0]: a constant array
    has standard deviation zero and standardises to NaN throughout. *)
Definition zscore (a : list float) : list float :=
  let m := np_mean a in
  let s := np_std a in
  map (fun v => fdiv (fsub v m) s) a.

Definition np_clip (lo hi : R) (a : float) : float :=
  match a with
  | Fin x => Fin (if Rlt_dec x lo then lo else if Rlt_dec hi x then hi else x)
  | NaN => NaN
  end.

(** An entry of [np.cov(x, y)], [ddof = 1]: the factor [N - 1] is set to
    zero when it is not positive. *)
Definition np_cov (x y : list float) : float :=
  let mx := np_mean x in
  let my := np_mean y in
  let dot := fsum (map (fun p => fmul (fsub (fst p) mx) (fsub (snd p) my))
                       (combine x y)) in
  let fact := if (length x <=? 1)%nat then 0 else INR (length x) - 1 in
  fmul dot (fdiv (Fin 1) (Fin fact)).

(** The covariance divided by both standard deviations, clipped to
    [-1, 1]. *)
Definition pearson (x y : list float) : float :=
  let c := np_cov x y in
  let sx := fsqrt (np_cov x x) in
  let sy := fsqrt (np_cov y y) in
  np_clip (-1) 1 (fdiv (fdiv c sx) sy).

(** [np.corrcoef(x, y)[0, 1]]; stacking arrays of unequal length raises. *)
Definition np_corrcoef (x y : list float) : outcome float :=
  if (length x =? length y)%nat then Returns (pearson x y)
  else Raises (ValueError msg_concat).

(** [exp(1j * t)] *)
Definition np_exp_1j (t : float) : complex :=
  Cx (lift1 cos t) (lift1 sin t).

Definition np_abs (z : complex) : float :=
  fsqrt (fadd (fmul (re z) (re z)) (fmul (im z) (im z))).

Definition np_real (z : complex) : float := re z.

(** The angle [2 pi m k / n] of the transform kernel. *)
Definition angle (n m k : nat) : R := 2 * PI * INR m * INR k / INR n.

(** The transform kernel summed over an array, with the given sign of the
    exponent: entry [k] is [sum_m a_m exp(sgn * 2 pi i m k / n)]. *)
Definition dft (sgn : R) (a : list complex) : list complex :=
  let n := length a in
  map (fun k =>
         csum (fun m => cmul (nth m a (of_real (Fin 0)))
                             (np_exp_1j (Fin (sgn * angle n m k)))) n)
      (seq 0 n).

(** [np.fft.fft]: [A_k = sum_m a_m exp(-2 pi i m k / n)]; an empty array
    raises. *)
Definition np_fft_fft (a : list complex) : outcome (list complex) :=
  match a with
  | [] => Raises (ValueError msg_fft)
  | _ => Returns (dft (-1) a)
  end.

(** [np.fft.ifft]: [a_m = (1/n) sum_k A_k exp(2 pi i m k / n)]. *)
Definition np_fft_ifft (a : list complex) : outcome (list complex) :=
  match a with
  | [] => Raises (ValueError msg_fft)
  | _ => Returns (map (fun z => cdiv_real z (Fin (INR (length a)))) (dft 1 a))
  end.

(** [modx * np.exp(1j * phases_full)]: elementwise product of a real and a
    complex array under NumPy's broadcasting rule for one dimension. *)
Definition broadcast_mul (a : list float) (b : list complex)
  : outcome (list complex) :=
  if (length a =? length b)%nat then
    Returns (map (fun p => cmul (of_real (fst p)) (snd p)) (combine a b))
  else if (length a =? 1)%nat then
    Returns (map (fun z => cmul (of_real (hd NaN a)) z) b)
  else if (length b =? 1)%nat then
    Returns (map (fun v => cmul (of_real v) (hd (of_real NaN) b)) a)
  else Raises (ValueError msg_broadcast).

(** A two-dimensional array, kept as the list of its columns. *)
Definition matrix : Type := list (list float).

Definition np_zeros (n : nat) (nsim : Z) : outcome matrix :=
  if (nsim <? 0)%Z then Raises (ValueError msg_negative)
  else Returns (repeat (repeat (Fin 0) n) (Z.to_nat nsim)).

Fixpoint update {A : Type} (i : nat) (v : A) (l : list A) : list A :=
  match l, i with
  | [], _ => []
  | _ :: l', O => v :: l'
  | a :: l', S i' => a :: update i' v l'
  end.

(** [X[:, i] = v] for a matrix of [n] rows. *)
Definition set_column (n : nat) (X : matrix) (i : nat) (v : list float)
  : outcome matrix :=
  if (i <? length X)%nat then
    if (length v =? n)%nat then Returns (update i v X)
    else if (length v =? 1)%nat then Returns (update i (repeat (hd NaN v) n) X)
    else Raises (ValueError msg_assign)
  else Raises (IndexError msg_index).

(** [X[:, i]] *)
Definition column (X : matrix) (i : nat) : outcome (list float) :=
  match nth_error X i with
  | Some c => Returns c
  | None => Raises (IndexError msg_index)
  end.

Fixpoint insert_sorted (a : float) (l : list float) : list float :=
  match l with
  | [] => [a]
  | b :: l' => if fle_sort a b then a :: l else b :: insert_sorted a l'
  end.

(** [np.sort]: ascending, NaN last. *)
Definition np_sort (l : list float) : list float :=
  fold_right insert_sorted [] l.

(** [np.sum] of a boolean array. *)
Definition np_sum (l : list bool) : nat := length (filter (fun b => b) l).

(** [a[i]] with Python's negative indices. *)
Definition np_index (a : list float) (i : Z) : outcome float :=
  let len := Z.of_nat (length a) in
  if ((0 <=? i) && (i <? len))%Z then Returns (nth (Z.to_nat i) a NaN)
  else if ((- len <=? i) && (i <? 0))%Z then Returns (nth (Z.to_nat (len + i)) a NaN)
  else Raises (IndexError msg_index).

(** [range(nsim)] *)
Definition range (nsim : Z) : list nat := seq 0 (Z.to_nat nsim).

(** The parity branch of the loop body: the full phase array built from
    the drawn phases. *)
Definition phases_full (n : nat) (phases : list float) : list float :=
  if (n mod 2 =? 0)%nat
  then [Fin 0] ++ phases ++ [Fin 0] ++ map fneg (rev phases)
  else [Fin 0] ++ phases ++ map fneg (rev phases).

(** What [modx * np.exp(1j * phases_full)] is when the two shapes agree. *)
Definition recf (modx phases_full : list float) : list complex :=
  map (fun p => cmul (of_real (fst p)) (snd p))
      (combine modx (map np_exp_1j phases_full)).

(** [np.real(np.fft.ifft(a))] of a non-empty array. *)
Definition real_ifft (a : list complex) : list float :=
  map np_real (map (fun z => cdiv_real z (Fin (INR (length a)))) (dft 1 a)).

(** Ascending in the order of [np.sort]. *)
Definition ascending (l : list float) : Prop :=
  StronglySorted (fun a b => fle_sort a b = true) l.

(** How many of the surrogate correlations are larger than the observed
    one in absolute value. *)
Definition count_larger (rSim : list float) (r_real : float) : nat :=
  length (filter (fun r => fgt (fabs r) (fabs r_real)) rSim).

(** ** The same computations on arrays free of NaN

    On finite values the operations above are those of the reals; these
    definitions say what the array primitives compute then. *)

Definition Rsum (l : list R) : R := fold_right Rplus 0 l.

Definition Rmean (l : list R) : R := Rsum l / INR (length l).

Definition Rvar (l : list R) : R :=
  Rmean (map (fun v => (v - Rmean l) * (v - Rmean l)) l).

Definition Rzscore (l : list R) : list R :=
  map (fun v => (v - Rmean l) / sqrt (Rvar l)) l.

Definition Rclip (lo hi x : R) : R :=
  if Rlt_dec x lo then lo else if Rlt_dec hi x then hi else x.

Definition Rcov (x y : list R) : R :=
  Rsum (map (fun p => (fst p - Rmean x) * (snd p - Rmean y)) (combine x y))
  * (1 / (INR (length x) - 1)).

Definition Rpearson (x y : list R) : R :=
  Rclip (-1) 1 (Rcov x y / sqrt (Rcov x x) / sqrt (Rcov y y)).

(** Complex numbers as pairs of reals. *)
Definition C : Type := (R * R)%type.

Definition Cadd (a b : C) : C := (fst a + fst b, snd a + snd b).

Definition Cmul (a b : C) : C :=
  (fst a * fst b - snd a * snd b, fst a * snd b + snd a * fst b).

Definition Cconj (a : C) : C := (fst a, - snd a).

Definition Cscale (r : R) (a : C) : C := (r * fst a, r * snd a).

Definition Cabs (a : C) : R := sqrt (fst a * fst a + snd a * snd a).

(** The squared modulus. *)
Definition Cnorm2 (z : C) : R := fst z * fst z + snd z * snd z.

(** [exp(i t)] *)
Definition Cexp (t : R) : C := (cos t, sin t).

Fixpoint Csum (f : nat -> C) (n : nat) : C :=
  match n with
  | O => (0, 0)
  | S n' => Cadd (Csum f n') (f n')
  end.

Definition cfin (z : C) : complex := Cx (Fin (fst z)) (Fin (snd z)).

Definition Cdft (sgn : R) (a : list C) : list C :=
  let n := length a in
  map (fun k =>
         Csum (fun m => Cmul (nth m a (0, 0)) (Cexp (sgn * angle n m k))) n)
      (seq 0 n).

Definition Rmagnitudes (z : list R) : list R :=
  map Cabs (Cdft (-1) (map (fun v => (v, 0)) z)).

Definition Crecf (modx phases_full : list R) : list C :=
  map (fun p => Cmul (fst p, 0) (Cexp (snd p))) (combine modx phases_full).

Definition Rreal_ifft (a : list C) : list R :=
  map (fun z => fst z / INR (length a)) (Cdft 1 a).

Definition Rphases_full (n : nat) (phases : list R) : list R :=
  if (n mod 2 =? 0)%nat
  then [0] ++ phases ++ [0] ++ map Ropp (rev phases)
  else [0] ++ phases ++ map Ropp (rev phases).

(** A series that takes at least two different values. *)
Definition nonconstant (l : list R) : Prop :=
  exists a b, In a l /\ In b l /\ a <> b.

(** A series constant everywhere. *)
Definition constant (l : list R) : Prop :=
  forall a b, In a l -> In b l -> a = b.

(** ** The random generator behind [np.random] *)

Class NumpyRandom : Type := {
  (** state of the process-wide Mersenne Twister *)
  rng_state : Type;
  (** the integers [np.random.seed] accepts *)
  seed_t : Type;
  (** the operating system's entropy source *)
  os_state : Type;
  (** [np.random.seed(s)] for an integer [s] *)
  seed_state : seed_t -> rng_state;
  (** [np.random.seed(None)]: a state read from fresh entropy *)
  fresh_state : os_state -> rng_state * os_state;
  (** one draw of [random_sample()], a number in [0, 1) *)
  random_sample : rng_state -> R * rng_state
}.

(** A small linear congruential generator, used to run the function on
    concrete inputs. *)
Definition lcg_next (g : Z) : Z := ((5 * g + 3) mod 16)%Z.

#[local] Instance lcg : NumpyRandom := {|
  rng_state := Z;
  seed_t := Z;
  os_state := Z;
  seed_state := fun s => (s mod 16)%Z;
  fresh_state := fun o => (lcg_next o, (o + 1)%Z);
  random_sample := fun g => (IZR g / 16, lcg_next g)
|}.

(** ** The world and the monad of effects *)

Section Ebisuzaki.

Context {NR : NumpyRandom}.

Record world : Type := World {
  rng : rng_state;
  os : os_state;
  stdout : list line
}.

Definition M (A : Type) : Type := world -> world * outcome A.

Definition ret {A : Type} (a : A) : M A := fun w => (w, Returns a).

Definition raise {A : Type} (e : pyerr) : M A := fun w => (w, Raises e).

Definition bind {A B : Type} (m : M A) (k : A -> M B) : M B :=
  fun w =>
    match m w with
    | (w', Returns a) => k a w'
    | (w', Raises e) => (w', Raises e)
    end.

(** A pure step that may raise. *)
Definition lift {A : Type} (o : outcome A) : M A := fun w => (w, o).

Notation "x <- c ;; k" := (bind c (fun x => k))
  (at level 61, c at next level, right associativity).
Notation "c ;;; k" := (bind c (fun _ => k))
  (at level 61, right associativity).

(** [for i in ixs: s = body(i, s)] *)
Fixpoint for_each {S : Type} (ixs : list nat) (body : nat -> S -> M S) (s : S)
  : M S :=
  match ixs with
  | [] => ret s
  | i :: rest => s' <- body i s ;; for_each rest body s'
  end.

(** [np.random.seed(seed)] *)
Definition np_random_seed (seed : option seed_t) : M unit :=
  fun w =>
    match seed with
    | Some s => (World (seed_state s) (os w) (stdout w), Returns tt)
    | None =>
        let (g, o) := fresh_state (os w) in
        (World g o (stdout w), Returns tt)
    end.

(** [size] successive draws of [random_sample()]. *)
Fixpoint draw (size : nat) (g : rng_state) : list R * rng_state :=
  match size with
  | O => ([], g)
  | S k =>
      let (u, g1) := random_sample g in
      let (us, g2) := draw k g1 in
      (u :: us, g2)
  end.

(** [np.random.uniform(low, high, size)]: [low + (high - low) * u] for each
    draw [u]; a negative size raises. *)
Definition np_random_uniform (low high : R) (size : Z) : M (list float) :=
  fun w =>
    if (size <? 0)%Z then (w, Raises (ValueError msg_negative))
    else
      let (us, g) := draw (Z.to_nat size) (rng w) in
      (World g (os w) (stdout w),
       Returns (map (fun u => Fin (low + (high - low) * u)) us)).

Definition print (l : line) : M unit :=
  fun w => (World (rng w) (os w) (stdout w ++ [l]), Returns tt).

(** ** The function *)

(** One phase-randomised surrogate of a series with magnitudes [modx],
    from the phases drawn for it: the lines from the parity branch to the
    real part of the inverse transform. *)
Definition surrogate (n : nat) (modx : list float) (phases_x : list float)
  : outcome (list float) :=
  let phases_full_x := phases_full n phases_x in
  obind (broadcast_mul modx (map np_exp_1j phases_full_x)) (fun recf_x =>
  obind (np_fft_ifft recf_x) (fun s =>
  Returns (map np_real s))).

(** The body of [for i in range(nsim)]. *)
Definition loop_body (n n2 : nat) (modx mody : list float)
    (i : nat) (XY : matrix * matrix) : M (matrix * matrix) :=
  phases_x <- np_random_uniform (- PI) PI (Z.of_nat n2 - 1) ;;
  phases_y <- np_random_uniform (- PI) PI (Z.of_nat n2 - 1) ;;
  sx <- lift (surrogate n modx phases_x) ;;
  sy <- lift (surrogate n mody phases_y) ;;
  X <- lift (set_column n (fst XY) i sx) ;;
  Y <- lift (set_column n (snd XY) i sy) ;;
  ret (X, Y).

(** [F = np.sum(np.abs(rSim) > np.abs(r_real)) / nsim] *)
Definition fraction_larger (rSim : list float) (r_real : float) (nsim : Z)
  : float :=
  fdiv (Fin (INR (np_sum (map (fun r => fgt (fabs r) (fabs r_real)) rSim))))
       (Fin (IZR nsim)).

(** [int(nsim * (1 - level))]: the integer [1] and then [nsim] are
    converted to floats, the difference and the product are rounded, and
    the product is truncated. *)
Definition critical_index (nsim : Z) (level : pyfloat) : outcome Z :=
  let complement := b64_sub (b64_of_int 1) level in
  obind (float_of_int nsim) (fun n => py_int (b64_mul n complement)).

(** [cv = np.sort(np.abs(rSim))[int(nsim * (1 - level))]] *)
Definition critical_value (rSim : list float) (level : pyfloat) (nsim : Z)
  : outcome float :=
  let rSims_sorted := np_sort (map fabs rSim) in
  obind (critical_index nsim level) (fun i => np_index rSims_sorted i).

(** [ebisuzaki(x, y, level, nsim, seed)].  The two series are
    one-dimensional arrays of finite numbers, on which [np.asarray] and
    [flatten] change nothing; [level] is any Python float; [nsim] is any
    Python integer; [seed] is [None] or an integer that [np.random.seed]
    accepts.  The result is the returned tuple [(F, rSim, r_real)] or the
    exception raised, with the world the call leaves. *)
Definition ebisuzaki (x y : list R) (level : pyfloat) (nsim : Z)
    (seed : option seed_t) : M (list pyval) :=
  match seed with
  | Some s => np_random_seed (Some s)
  | None => np_random_seed None
  end ;;;
  let x := zscore (map Fin x) in
  let y := zscore (map Fin y) in
  if negb (length x =? length y)%nat then raise (ValueError msg_size) else
  let n := length x in
  let n2 := (n / 2)%nat in
  r_real <- lift (np_corrcoef x y) ;;
  xf <- lift (np_fft_fft (map of_real x)) ;;
  yf <- lift (np_fft_fft (map of_real y)) ;;
  let modx := map np_abs xf in
  let mody := map np_abs yf in
  X <- lift (np_zeros n nsim) ;;
  Y <- lift (np_zeros n nsim) ;;
  XY <- for_each (range nsim) (loop_body n n2 modx mody) (X, Y) ;;
  let X := map zscore (fst XY) in
  let Y := map zscore (snd XY) in
  rSim <- lift (omap (fun i =>
            obind (column X i) (fun xi =>
            obind (column Y i) (fun yi => np_corrcoef xi yi)))
          (range nsim)) ;;
  let F := fraction_larger rSim r_real nsim in
  cv <- lift (critical_value rSim level nsim) ;;
  print Rule ;;;
  print (Observed r_real) ;;;
  print (Critical cv) ;;;
  print (Fraction F) ;;;
  ret [PyFloat F; PyArray rSim; PyFloat r_real].

(** The matrices [X] and [Y] of a call at the end of its loop:
    [ebisuzaki] up to the last iteration of the [for], before the surrogates
    are standardised. *)
Definition ebisuzaki_surrogates (x y : list R) (nsim : Z)
    (seed : option seed_t) : M (matrix * matrix) :=
  match seed with
  | Some s => np_random_seed (Some s)
  | None => np_random_seed None
  end ;;;
  let x := zscore (map Fin x) in
  let y := zscore (map Fin y) in
  if negb (length x =? length y)%nat then raise (ValueError msg_size) else
  let n := length x in
  let n2 := (n / 2)%nat in
  r_real <- lift (np_corrcoef x y) ;;
  xf <- lift (np_fft_fft (map of_real x)) ;;
  yf <- lift (np_fft_fft (map of_real y)) ;;
  let modx := map np_abs xf in
  let mody := map np_abs yf in
  X <- lift (np_zeros n nsim) ;;
  Y <- lift (np_zeros n nsim) ;;
  for_each (range nsim) (loop_body n n2 modx mody) (X, Y).

(** ** Notions used to state the properties *)

(** The outcome of a computation, and what it does to the generator, depend
    on the world only through the state of the generator. *)
Definition rng_determined {A : Type} (m : M A) : Prop :=
  forall w1 w2 : world,
    rng w1 = rng w2 ->
    snd (m w1) = snd (m w2) /\ rng (fst (m w1)) = rng (fst (m w2)).

(** [np.abs(np.fft.fft(z))] of a non-empty real array. *)
Definition magnitudes (z : list float) : list float :=
  map np_abs (dft (-1) (map of_real z)).

(** The list comprehension that fills [rSim] from the two matrices. *)
Definition surrogate_correlations (X Y : matrix) (nsim : Z)
  : outcome (list float) :=
  omap (fun i =>
          obind (column (map zscore X) i) (fun xi =>
          obind (column (map zscore Y) i) (fun yi => np_corrcoef xi yi)))
       (range nsim).

(** The surrogate a successful iteration stores for magnitudes [m] and
    drawn phases [p]. *)
Definition surrogate_of (n : nat) (m p : list float) : list float :=
  match surrogate n m p with
  | Returns s => s
  | Raises _ => []
  end.

(** The two matrices at the end of a loop that drew the phases [ps]. *)
Definition surrogates_x (n : nat) (modx : list float)
    (ps : list (list float * list float)) : matrix :=
  map (fun p => surrogate_of n modx (fst p)) ps.

Definition surrogates_y (n : nat) (mody : list float)
    (ps : list (list float * list float)) : matrix :=
  map (fun p => surrogate_of n mody (snd p)) ps.

(** The correlation of each pair of standardised surrogates. *)
Definition correlations (X Y : matrix) : list float :=
  map (fun c => pearson (zscore (fst c)) (zscore (snd c))) (combine X Y).

(** The phases one call of [np.random.uniform(-pi, pi, size)] returns from
    generator state [g], and the state it leaves. *)
Definition uniform_phases (size : nat) (g : rng_state)
  : list float * rng_state :=
  (map (fun u => Fin (- PI + (PI - - PI) * u)) (fst (draw size g)),
   snd (draw size g)).

(** The phases drawn for [x] and for [y] by [k] successive iterations of
    the loop, and the generator state after them. *)
Fixpoint drawn_phases (k size : nat) (g : rng_state)
  : list (list float * list float) * rng_state :=
  match k with
  | O => ([], g)
  | S k' =>
      let px := uniform_phases size g in
      let py := uniform_phases size (snd px) in
      let rest := drawn_phases k' size (snd py) in
      ((fst px, fst py) :: fst rest, snd rest)
  end.

(** A computation that prints nothing. *)
Definition silent {A : Type} (m : M A) : Prop :=
  forall w : world, stdout (fst (m w)) = stdout w.

End Ebisuzaki.

(** Where index [i] points in an array of [nsim] entries, counted from the
    start. *)
Definition position (nsim i : Z) : Z :=
  if (i <? 0)%Z then (nsim + i)%Z else i.

(** ** Notions used to reason about binary64 *)

(** The float of sign [s] with mantissa [m1 <= 2 ^ 53] at exponent [t]. *)
Definition rounded (s : bool) (m1 t : Z) : pyfloat :=
  match m1 with
  | Z0 => SpecFloat.S754_zero s
  | Zpos p =>
      if (Z.pos p <? 2 ^ 53)%Z then
        if (t <=? 971)%Z then SpecFloat.S754_finite s p t
        else SpecFloat.S754_infinity s
      else
        if (t + 1 <=? 971)%Z
        then SpecFloat.S754_finite s (2 ^ 52)%positive (t + 1)
        else SpecFloat.S754_infinity s
  | Zneg _ => SpecFloat.S754_nan
  end.

Definition finite_or_zero (f : pyfloat) : Prop :=
  match f with
  | SpecFloat.S754_zero _ | SpecFloat.S754_finite _ _ _ => True
  | _ => False
  end.


(** A world to run concrete calls in. *)
Definition world0 : @world lcg := @World lcg 0%Z 0%Z [].

(** Levels to run concrete calls with.  The float Python reads from a
    decimal literal is the one nearest to it; for the quotient of two
    integers that are floats themselves this is their rounded quotient. *)
Definition b64_ratio (p q : Z) : pyfloat :=
  b64_div (b64_of_int p) (b64_of_int q).

(** [0.0], [1.0], [0.5], the default [0.05], [1e-17], [0.9] and [1.5] *)
Definition level_zero : double := Double (b64_of_int 0) eq_refl.
Definition level_one : double := Double (b64_of_int 1) eq_refl.
Definition level_half : double := Double (b64_ratio 1 2) eq_refl.
Definition level_default : double := Double (b64_ratio 5 100) eq_refl.
Definition level_tiny : double := Double (b64_ratio 1 (10 ^ 17)) eq_refl.
Definition level_nine_tenths : double := Double (b64_ratio 9 10) eq_refl.
Definition level_three_halves : double := Double (b64_ratio 3 2) eq_refl.

(** * The other functions of the notebook *)

(** ** [lagged_autocorrelation] *)

(** The messages of the exceptions [scipy.stats.pearsonr] raises. *)
Definition msg_same_length : string := "x and y must have the same length.".
Definition msg_length_two : string := "x and y must have length at least 2.".

(** Where the bound [i] of a slice falls in an array of [len] entries: a
    negative bound counts from the end, and every bound is clipped to the
    array. *)
Definition slice_index (len : nat) (i : Z) : nat :=
  if (i <? 0)%Z then Z.to_nat (Z.of_nat len + i)
  else Nat.min (Z.to_nat i) len.

(** [a[:stop]] *)
Definition slice_to {A : Type} (a : list A) (stop : Z) : list A :=
  firstn (slice_index (length a) stop) a.

(** [a[start:]] *)
Definition slice_from {A : Type} (a : list A) (start : Z) : list A :=
  skipn (slice_index (length a) start) a.

(** [scipy.linalg.norm] of a real vector. *)
Definition linalg_norm (a : list float) : float :=
  fsqrt (fsum (map (fun v => fmul v v) a)).

(** [np.dot] of two real vectors. *)
Definition np_dot (a b : list float) : float :=
  fsum (map (fun p => fmul (fst p) (snd p)) (combine a b)).

(** The statistic of [scipy.stats.pearsonr]: the deviations from the mean
    of either array, each divided by its norm, multiplied together and
    summed, then clipped to [-1, 1].  A constant array has norm zero and
    gives NaN, which is what SciPy returns for it without forming the
    sums; its other shortcut, for arrays of two values, is the subject of
    [pearsonr_statistic_two]. *)
Definition pearsonr_statistic (x y : list float) : float :=
  let xm := map (fun v => fsub v (np_mean x)) x in
  let ym := map (fun v => fsub v (np_mean y)) y in
  let normxm := linalg_norm xm in
  let normym := linalg_norm ym in
  np_clip (-1) 1
    (np_dot (map (fun v => fdiv v normxm) xm) (map (fun v => fdiv v normym) ym)).

(** [scipy.stats.pearsonr(x, y)[0]]: arrays of different lengths, or of
    fewer than two entries, raise. *)
Definition sp_stats_pearsonr (x y : list float) : outcome float :=
  if negb (length x =? length y)%nat then Raises (ValueError msg_same_length)
  else if (length x <? 2)%nat then Raises (ValueError msg_length_two)
  else Returns (pearsonr_statistic x y).

(** [lagged_autocorrelation(series, lag)], for a one-dimensional array of
    finite numbers and a Python integer [lag]. *)
Definition lagged_autocorrelation (series : list R) (lag : Z) : outcome float :=
  let series := map Fin series in
  sp_stats_pearsonr (slice_to series (- lag)) (slice_from series lag).

(** How many pairs of values [lagged_autocorrelation] correlates when
    [lag] is not zero: the first so many values of the series with the last
    so many. *)
Definition overlap (n : nat) (lag : Z) : nat :=
  if (0 <? lag)%Z then n - Z.to_nat lag else Nat.min (Z.to_nat (- lag)) n.

(** The statistic of [scipy.stats.pearsonr] on arrays free of NaN. *)
Definition Rnorm (l : list R) : R := sqrt (Rsum (map (fun v => v * v) l)).

Definition Rdot (a b : list R) : R :=
  Rsum (map (fun p => fst p * snd p) (combine a b)).

Definition Rpearsonr (x y : list R) : R :=
  let xm := map (fun v => v - Rmean x) x in
  let ym := map (fun v => v - Rmean y) y in
  Rclip (-1) 1
    (Rdot (map (fun v => v / Rnorm xm) xm) (map (fun v => v / Rnorm ym) ym)).

(** The sum of the products of the deviations of two series from their
    means. *)
Definition Rcodev (x y : list R) : R :=
  Rsum (map (fun p => (fst p - Rmean x) * (snd p - Rmean y)) (combine x y)).

(** [a * v + b] for every entry [v]. *)
Definition affine (a b : R) (l : list R) : list R :=
  map (fun v => a * v + b) l.

(** The negative of a complex value. *)
Definition cneg (z : complex) : complex := Cx (fneg (re z)) (fneg (im z)).

(** ** [my_correlation_function] *)

(** The values a float division with a zero divisor can take: here, unlike
    in [ebisuzaki], a zero divisor can meet a dividend that is not zero, and
    the infinity this gives is what the distribution function is called
    on. *)
Inductive efloat : Type :=
| EFin (r : R)
| EInf (negative : bool)
| ENaN.

(** [a / b] on NumPy floats, where [b] is a square root and so never a
    negative zero. *)
Definition fdiv_ieee (a b : float) : efloat :=
  match a, b with
  | Fin x, Fin y =>
      if Req_dec_T y 0 then
        if Rlt_dec 0 x then EInf false
        else if Rlt_dec x 0 then EInf true
        else ENaN
      else EFin (x / y)
  | _, _ => ENaN
  end.

Definition eabs (a : efloat) : efloat :=
  match a with
  | EFin r => EFin (Rabs r)
  | EInf _ => EInf false
  | ENaN => ENaN
  end.

(** The distribution function of Student's t with [df > 0] degrees of
    freedom at a finite point: a special function of SciPy. *)
Class ScipyStats : Type := {
  student_t : R -> Z -> R
}.

(** [scipy.stats.t.cdf(x, df)]: NaN when [df] is not positive or [x] is
    NaN, [0] and [1] at the infinities. *)
Definition sp_stats_t_cdf {SS : ScipyStats} (x : efloat) (df : Z) : float :=
  if (df <=? 0)%Z then NaN
  else match x with
       | EFin r => Fin (student_t r df)
       | EInf true => Fin 0
       | EInf false => Fin 1
       | ENaN => NaN
       end.

(** The message of the exception [np.sqrt] raises on an array of Python
    objects. *)
Definition msg_sqrt : string :=
  "loop of ufunc does not support argument 0 of type int which has no callable sqrt method".

(** [np.sqrt] of a Python integer.  NumPy holds an integer as an int64 or,
    when it is too large for that, as a uint64, and takes the root of the
    float it converts to; an integer that fits neither is kept as a Python
    object, on which the root raises. *)
Definition np_sqrt_int (k : Z) : outcome float :=
  if ((- 2 ^ 63 <=? k) && (k <? 2 ^ 64))%Z then Returns (fsqrt (Fin (IZR k)))
  else Raises (TypeError msg_sqrt).

(** [my_correlation_function(x, y, neff)], for one-dimensional arrays of
    finite numbers and a Python integer [neff]; the result is the pair
    [(correlation_value, p_value)]. *)
Definition my_correlation_function {SS : ScipyStats} (x y : list R) (neff : Z)
  : outcome (float * float) :=
  let dof := (neff - 2)%Z in
  obind (np_corrcoef (map Fin x) (map Fin y)) (fun correlation_value =>
  obind (np_sqrt_int dof) (fun root =>
  let t_statistic :=
    fdiv_ieee (fmul correlation_value root)
              (fsqrt (fsub (Fin 1) (fmul correlation_value correlation_value))) in
  let p_value :=
    fmul (Fin 2) (fsub (Fin 1) (sp_stats_t_cdf (eabs t_statistic) dof)) in
  Returns (correlation_value, p_value))).

(** The distribution function with two degrees of freedom, used for every
    [df] to run the function on concrete inputs. *)
#[local] Instance t_two : ScipyStats := {|
  student_t := fun t _ => 1 / 2 + t / (2 * sqrt (2 + t * t))
|}.

(** * Binary64 arithmetic

    Facts about the rounding of [SpecFloat] that the index of the critical
    value rests on. *)

Section Binary64.

Local Open Scope Z_scope.

Lemma fexp_eq e : SpecFloat.fexp 53 1024 e = Z.max (e - 53) (-1074).
Proof. reflexivity. Qed.

Lemma digits2_size (p : positive) : SpecFloat.digits2_pos p = Pos.size p.
Proof. induction p; simpl; congruence. Qed.

Lemma digits2_bounds (p : positive) :
  2 ^ (Z.pos (SpecFloat.digits2_pos p) - 1) <= Z.pos p
  < 2 ^ Z.pos (SpecFloat.digits2_pos p).
Proof.
  rewrite digits2_size.
  assert (H : Z.pos (Pos.size p) = Z.succ (Z.log2 (Z.pos p))).
  { destruct p; simpl; lia. }
  rewrite H. replace (Z.succ (Z.log2 (Z.pos p)) - 1) with (Z.log2 (Z.pos p)) by lia.
  apply Z.log2_spec. lia.
Qed.

Lemma shr_1_spec (mrs : SpecFloat.shr_record) :
  0 <= SpecFloat.shr_m mrs ->
  SpecFloat.shr_m (SpecFloat.shr_1 mrs) = Z.shiftr (SpecFloat.shr_m mrs) 1
  /\ SpecFloat.shr_r (SpecFloat.shr_1 mrs) = Z.testbit (SpecFloat.shr_m mrs) 0.
Proof.
  destruct mrs as [m r s]. simpl. intros Hm.
  rewrite <- Z.div2_spec.
  destruct m as [|[p|p|]|p]; simpl; try lia; auto.
Qed.

Lemma iter_shr_1_spec (p : positive) (mrs : SpecFloat.shr_record) :
  0 <= SpecFloat.shr_m mrs ->
  SpecFloat.shr_m (SpecFloat.iter_pos SpecFloat.shr_1 p mrs)
  = Z.shiftr (SpecFloat.shr_m mrs) (Z.pos p)
  /\ SpecFloat.shr_r (SpecFloat.iter_pos SpecFloat.shr_1 p mrs)
     = Z.testbit (SpecFloat.shr_m mrs) (Z.pos p - 1).
Proof.
  revert mrs. induction p as [p IH|p IH|]; intros mrs Hm; cbn [SpecFloat.iter_pos].
  - destruct (shr_1_spec mrs Hm) as [H1 H1r].
    assert (Hm1 : 0 <= SpecFloat.shr_m (SpecFloat.shr_1 mrs)).
    { rewrite H1. apply Z.shiftr_nonneg. assumption. }
    destruct (IH _ Hm1) as [H2 H2r].
    assert (Hm2 : 0 <= SpecFloat.shr_m
                      (SpecFloat.iter_pos SpecFloat.shr_1 p (SpecFloat.shr_1 mrs))).
    { rewrite H2. apply Z.shiftr_nonneg. assumption. }
    destruct (IH _ Hm2) as [H3 H3r].
    split.
    + rewrite H3, H2, H1, !Z.shiftr_shiftr by lia. f_equal. lia.
    + rewrite H3r, H2, H1, !Z.shiftr_shiftr by lia.
      rewrite Z.shiftr_spec by lia. f_equal. lia.
  - destruct (IH _ Hm) as [H2 H2r].
    assert (Hm2 : 0 <= SpecFloat.shr_m (SpecFloat.iter_pos SpecFloat.shr_1 p mrs)).
    { rewrite H2. apply Z.shiftr_nonneg. assumption. }
    destruct (IH _ Hm2) as [H3 H3r].
    split.
    + rewrite H3, H2, !Z.shiftr_shiftr by lia. f_equal. lia.
    + rewrite H3r, H2. rewrite Z.shiftr_spec by lia. f_equal. lia.
  - apply shr_1_spec. assumption.
Qed.

Lemma shiftr_lt_pow2 (a n k : Z) :
  0 <= a -> 0 <= n -> 0 <= k -> a < 2 ^ (n + k) -> Z.shiftr a n < 2 ^ k.
Proof.
  intros Ha Hn Hk Hlt. rewrite Z.shiftr_div_pow2 by assumption.
  apply Z.div_lt_upper_bound; [apply Z.pow_pos_nonneg; lia|].
  now rewrite <- Z.pow_add_r by assumption.
Qed.

Lemma pos_digits_le (p : positive) (k : Z) :
  Z.pos p < 2 ^ k -> Z.pos (SpecFloat.digits2_pos p) <= k.
Proof.
  intros Hlt. destruct (digits2_bounds p) as [Hlo _].
  destruct (Z_le_gt_dec (Z.pos (SpecFloat.digits2_pos p)) k) as [H|H]; [assumption|].
  exfalso.
  assert (0 <= k).
  { destruct (Z_le_gt_dec 0 k); [assumption|].
    rewrite Z.pow_neg_r in Hlt by lia. lia. }
  assert (2 ^ k <= 2 ^ (Z.pos (SpecFloat.digits2_pos p) - 1))
    by (apply Z.pow_le_mono_r; lia).
  lia.
Qed.

(** The second normalisation of [binary_round_aux]: a mantissa below
    [2 ^ 53] is kept, the mantissa [2 ^ 53] is halved. *)
Lemma shr_fexp_small (p : positive) (t : Z) :
  -1074 <= t -> Z.pos p < 2 ^ 53 ->
  SpecFloat.shr_fexp 53 1024 (Z.pos p) t SpecFloat.loc_Exact
  = ({| SpecFloat.shr_m := Z.pos p; SpecFloat.shr_r := false;
        SpecFloat.shr_s := false |}, t).
Proof.
  intros Ht Hp. unfold SpecFloat.shr_fexp, SpecFloat.shr. cbn [SpecFloat.Zdigits2].
  pose proof (pos_digits_le p 53 Hp) as Hd.
  rewrite fexp_eq.
  destruct (Z.max (Z.pos (SpecFloat.digits2_pos p) + t - 53) (-1074) - t) eqn:E;
    try reflexivity.
  lia.
Qed.

Lemma shr_fexp_zero (t : Z) :
  -1074 <= t ->
  SpecFloat.shr_fexp 53 1024 0 t SpecFloat.loc_Exact
  = ({| SpecFloat.shr_m := 0; SpecFloat.shr_r := false;
        SpecFloat.shr_s := false |}, t).
Proof.
  intros Ht. unfold SpecFloat.shr_fexp, SpecFloat.shr. cbn [SpecFloat.Zdigits2].
  rewrite fexp_eq.
  destruct (Z.max (0 + t - 53) (-1074) - t) eqn:E; try reflexivity. lia.
Qed.

Lemma shr_fexp_carry (t : Z) :
  -1074 <= t ->
  SpecFloat.shr_fexp 53 1024 (2 ^ 53) t SpecFloat.loc_Exact
  = ({| SpecFloat.shr_m := 2 ^ 52; SpecFloat.shr_r := false;
        SpecFloat.shr_s := false |}, t + 1).
Proof.
  intros Ht. unfold SpecFloat.shr_fexp, SpecFloat.shr.
  change (SpecFloat.Zdigits2 (2 ^ 53)) with 54.
  rewrite fexp_eq.
  replace (Z.max (54 + t - 53) (-1074) - t) with 1 by lia.
  reflexivity.
Qed.

Lemma binary_round_aux_shape (s : bool) (M : positive) (e : Z) :
  let t := SpecFloat.fexp 53 1024 (Z.pos (SpecFloat.digits2_pos M) + e) in
  let n := t - e in
  0 <= n ->
  exists m1,
    Z.shiftr (Z.pos M) n <= m1 <= Z.shiftr (Z.pos M) n + 1
    /\ m1 <= 2 ^ 53
    /\ ((0 <? n) && Z.testbit (Z.pos M) (n - 1) = false ->
        m1 = Z.shiftr (Z.pos M) n)
    /\ SpecFloat.binary_round_aux 53 1024 s (Z.pos M) e SpecFloat.loc_Exact
       = rounded s m1 t.
Proof.
  intros t n Hn.
  assert (Ht : -1074 <= t) by (unfold t; rewrite fexp_eq; lia).
  destruct (digits2_bounds M) as [_ Hhi].
  assert (Hm' : 0 <= Z.shiftr (Z.pos M) n < 2 ^ 53).
  { split; [apply Z.shiftr_nonneg; lia|].
    apply shiftr_lt_pow2; try lia.
    eapply Z.lt_le_trans; [exact Hhi|].
    apply Z.pow_le_mono_r; [lia|]. unfold n, t. rewrite fexp_eq. lia. }
  set (m' := Z.shiftr (Z.pos M) n) in *.
  set (r := (0 <? n) && Z.testbit (Z.pos M) (n - 1)).
  assert (Hfirst : exists sb,
    SpecFloat.shr_fexp 53 1024 (Z.pos M) e SpecFloat.loc_Exact
    = ({| SpecFloat.shr_m := m'; SpecFloat.shr_r := r; SpecFloat.shr_s := sb |}, t)).
  { unfold SpecFloat.shr_fexp, SpecFloat.shr. cbn [SpecFloat.Zdigits2].
    fold t. fold n. unfold r, m'. destruct n as [|p|p] eqn:En; [| |lia].
    - exists false. cbn. f_equal. lia.
    - destruct (iter_shr_1_spec p
        (SpecFloat.shr_record_of_loc (Z.pos M) SpecFloat.loc_Exact)) as [H1 H2];
        [cbn; lia|].
      cbn [SpecFloat.shr_record_of_loc SpecFloat.shr_m] in H1, H2.
      destruct (SpecFloat.iter_pos SpecFloat.shr_1 p _) as [m0 r0 s0].
      cbn [SpecFloat.shr_m SpecFloat.shr_r] in H1, H2. subst m0 r0.
      exists s0. f_equal. lia. }
  destruct Hfirst as [sb Hfirst].
  set (m1 := SpecFloat.round_nearest_even m'
               (SpecFloat.loc_of_shr_record
                  {| SpecFloat.shr_m := m'; SpecFloat.shr_r := r;
                     SpecFloat.shr_s := sb |})).
  assert (Hm1 : m' <= m1 <= m' + 1 /\ (r = false -> m1 = m')).
  { unfold m1. destruct r, sb; cbn; try destruct (Z.even m'); split; intros; try lia;
      try discriminate; reflexivity. }
  exists m1. split; [apply Hm1|]. split; [lia|]. split; [apply Hm1|].
  unfold SpecFloat.binary_round_aux. rewrite Hfirst.
  cbv beta iota. cbn [SpecFloat.shr_m]. fold m1.
  destruct m1 as [|p|p] eqn:E1; [| |lia].
  - rewrite shr_fexp_zero by assumption. reflexivity.
  - unfold rounded. destruct (Z.ltb_spec (Z.pos p) (2 ^ 53)) as [Hlt|Hge].
    + rewrite shr_fexp_small by assumption. reflexivity.
    + assert (Hp : Z.pos p = 2 ^ 53) by lia. rewrite Hp.
      rewrite shr_fexp_carry by assumption. reflexivity.
Qed.

Lemma iter_xO_spec (d m : positive) :
  Z.pos (Pos.iter xO m d) = Z.pos m * 2 ^ Z.pos d
  /\ Z.pos (SpecFloat.digits2_pos (Pos.iter xO m d))
     = Z.pos (SpecFloat.digits2_pos m) + Z.pos d.
Proof.
  induction d as [|d [IH1 IH2]] using Pos.peano_ind.
  - cbn [Pos.iter SpecFloat.digits2_pos]. split; lia.
  - rewrite Pos.iter_succ. cbn [SpecFloat.digits2_pos].
    rewrite Pos2Z.inj_succ, Z.pow_succ_r by lia.
    rewrite Pos2Z.inj_xO, IH1, Pos2Z.inj_succ, IH2. split; lia.
Qed.

Lemma testbit_remainder (a n : Z) :
  0 <= a -> 1 <= n -> Z.testbit a (n - 1) = true ->
  Z.shiftr a n * 2 ^ n + 2 ^ (n - 1) <= a.
Proof.
  intros Ha Hn Hb. apply Z.testbit_true in Hb; [|lia].
  rewrite Z.shiftr_div_pow2 by lia.
  replace n with (n - 1 + 1) at 1 2 by lia.
  rewrite Z.pow_add_r, Z.pow_1_r by lia.
  assert (Hp : 0 < 2 ^ (n - 1)) by (apply Z.pow_pos_nonneg; lia).
  rewrite <- Z.div_div by lia.
  set (q := a / 2 ^ (n - 1)) in *.
  pose proof (Z.div_mod a (2 ^ (n - 1)) ltac:(lia)) as Ha'. fold q in Ha'.
  pose proof (Z.mod_pos_bound a (2 ^ (n - 1)) Hp) as Hr.
  pose proof (Z.div_mod q 2 ltac:(lia)) as Hq. rewrite Hb in Hq.
  nia.
Qed.

Lemma shl_align_spec (m : positive) (e t : Z) :
  exists mz ez,
    SpecFloat.shl_align m e t = (mz, ez)
    /\ ez = Z.min e t
    /\ Z.pos mz = Z.pos m * 2 ^ (e - ez)
    /\ Z.pos (SpecFloat.digits2_pos mz) + ez
       = Z.pos (SpecFloat.digits2_pos m) + e.
Proof.
  unfold SpecFloat.shl_align. destruct (t - e) as [|d|d] eqn:E.
  - exists m, e. repeat split; try lia.
    replace (e - e) with 0 by lia. lia.
  - exists m, e. repeat split; try lia.
    replace (e - e) with 0 by lia. lia.
  - destruct (iter_xO_spec d m) as [H1 H2].
    exists (Pos.iter xO m d), t. repeat split; try lia.
    replace (e - t) with (Z.pos d) by lia. assumption.
Qed.

(** Rounding the positive integer [m * 2 ^ e] to binary64: the mantissa
    [m1] of the result is [m] brought to the exponent [t] of the format,
    exactly when that loses no bit and up to one unit otherwise. *)
Lemma binary_round_shape (s : bool) (m : positive) (e : Z) :
  let t := SpecFloat.fexp 53 1024 (Z.pos (SpecFloat.digits2_pos m) + e) in
  exists m1,
    0 <= m1 <= 2 ^ 53
    /\ (t <= e -> m1 = Z.pos m * 2 ^ (e - t))
    /\ (e < t ->
        Z.shiftr (Z.pos m) (t - e) <= m1 <= Z.shiftr (Z.pos m) (t - e) + 1
        /\ (Z.testbit (Z.pos m) (t - e - 1) = false ->
            m1 = Z.shiftr (Z.pos m) (t - e)))
    /\ SpecFloat.binary_round 53 1024 s m e = rounded s m1 t.
Proof.
  intros t. unfold SpecFloat.binary_round. fold t.
  destruct (shl_align_spec m e t) as (mz & ez & Hal & Hez & Hmz & Hdz).
  rewrite Hal.
  pose proof (binary_round_aux_shape s mz ez) as H. cbv zeta in H.
  rewrite Hdz in H. fold t in H.
  destruct H as (m1 & Hm1 & Hle & Hr & Heq); [lia|].
  assert (H0 : 0 <= Z.shiftr (Z.pos mz) (t - ez))
    by (apply Z.shiftr_nonneg; lia).
  exists m1. split; [lia|]. split; [|split; [|exact Heq]].
  - intros Hte. assert (Hez' : ez = t) by lia. rewrite Hez' in *.
    replace (t - t) with 0 in Hr by lia. rewrite Z.shiftr_0_r in Hr.
    rewrite <- Hmz. apply Hr. reflexivity.
  - intros Hte. assert (Hez' : ez = e) by lia. rewrite Hez' in *.
    replace (e - e) with 0 in Hmz by lia. rewrite Z.mul_1_r in Hmz.
    rewrite Hmz in *. split; [assumption|].
    intros Hb. apply Hr. rewrite Hb. apply andb_false_r.
Qed.

(** Rounding [m * 2 ^ e] does not overflow below [2 ^ 1024 - 2 ^ 970], the
    midpoint between the largest binary64 value and [2 ^ 1024]. *)
Lemma binary_round_finite (s : bool) (m : positive) (e : Z) :
  e <= 970 -> Z.pos m < 2 ^ (1024 - e) - 2 ^ (970 - e) ->
  finite_or_zero (SpecFloat.binary_round 53 1024 s m e).
Proof.
  intros He Hm.
  destruct (binary_round_shape s m e) as (m1 & Hm1 & _ & Hr & ->).
  set (t := SpecFloat.fexp 53 1024 (Z.pos (SpecFloat.digits2_pos m) + e)) in *.
  assert (Ht : -1074 <= t) by (unfold t; rewrite fexp_eq; lia).
  assert (Hp : 0 < 2 ^ (970 - e)) by (apply Z.pow_pos_nonneg; lia).
  assert (Hd : Z.pos (SpecFloat.digits2_pos m) + e <= 1024).
  { pose proof (pos_digits_le m (1024 - e) ltac:(lia)). lia. }
  assert (Ht' : t <= 971) by (unfold t; rewrite fexp_eq; lia).
  unfold rounded. destruct m1 as [|p|p]; [exact I| |lia].
  destruct (Z.ltb_spec (Z.pos p) (2 ^ 53)) as [Hlt|Hge].
  - destruct (Z.leb_spec t 971); [exact I | lia].
  - destruct (Z.leb_spec (t + 1) 971) as [|Hover]; [exact I|].
    exfalso. assert (t = 971) by lia.
    destruct (Hr ltac:(lia)) as [Hm1' Hb].
    assert (Hn : 1 <= t - e) by lia.
    assert (Hlt : Z.shiftr (Z.pos m) (t - e) < 2 ^ 53).
    { apply shiftr_lt_pow2; try lia.
      replace (t - e + 53) with (1024 - e) by lia. lia. }
    destruct (Z.testbit (Z.pos m) (t - e - 1)) eqn:Eb.
    + pose proof (testbit_remainder (Z.pos m) (t - e) ltac:(lia) Hn Eb) as Hrem.
      assert (Hs : Z.shiftr (Z.pos m) (t - e) = 2 ^ 53 - 1) by lia.
      rewrite Hs in Hrem.
      replace (1024 - e) with (53 + (t - e)) in Hm by lia.
      replace (970 - e) with (t - e - 1) in Hm by lia.
      rewrite Z.pow_add_r in Hm by lia.
      assert (HA : 2 ^ (t - e) = 2 * 2 ^ (t - e - 1)).
      { rewrite <- Z.pow_succ_r by lia. f_equal. lia. }
      rewrite HA in Hm, Hrem.
      set (B := 2 ^ (t - e - 1)) in *. lia.
    + specialize (Hb eq_refl). lia.
Qed.

Lemma bounded_inv (m : positive) (e : Z) :
  SpecFloat.bounded 53 1024 m e = true ->
  Z.pos m < 2 ^ 53 /\ -1074 <= e <= 971.
Proof.
  unfold SpecFloat.bounded, SpecFloat.canonical_mantissa. intros H.
  apply andb_true_iff in H. destruct H as [H1 H2].
  apply Z.eqb_eq in H1. apply Z.leb_le in H2. rewrite fexp_eq in H1.
  change (1024 - 53) with 971 in H2.
  destruct (digits2_bounds m) as [_ Hhi].
  assert (Z.pos (SpecFloat.digits2_pos m) <= 53) by lia.
  assert (2 ^ Z.pos (SpecFloat.digits2_pos m) <= 2 ^ 53)
    by (apply Z.pow_le_mono_r; lia).
  lia.
Qed.

Lemma shl_align_value (m : positive) (e t : Z) :
  t <= e -> Z.pos (fst (SpecFloat.shl_align m e t)) = Z.pos m * 2 ^ (e - t).
Proof.
  intros Hte. destruct (shl_align_spec m e t) as (mz & ez & -> & Hez & Hmz & _).
  cbn [fst]. rewrite Hmz. do 2 f_equal. lia.
Qed.

Lemma binary_normalize_finite (k e : Z) :
  e <= 970 -> Z.abs k < 2 ^ (1024 - e) - 2 ^ (970 - e) ->
  finite_or_zero (SpecFloat.binary_normalize 53 1024 k e false).
Proof.
  intros He Hk. destruct k as [|p|p]; cbn [SpecFloat.binary_normalize].
  - exact I.
  - apply binary_round_finite; [assumption|]. exact Hk.
  - apply binary_round_finite; [assumption|]. exact Hk.
Qed.

(** [1 - level] is a finite number whatever the finite [level]. *)
Lemma one_minus_level_finite (level : double) :
  finite_or_zero (b64_sub (b64_of_int 1) level).
Proof.
  destruct level as [[s|s| |s m e] H]; cbn [is_finite] in H; try discriminate;
    cbn [bits].
  - exact I.
  - apply bounded_inv in H. destruct H as [Hm He].
    change (b64_of_int 1)
      with (SpecFloat.S754_finite false (2 ^ 52)%positive (-52)).
    unfold b64_sub, SpecFloat.SFsub.
    set (ez := Z.min (-52) e).
    apply binary_normalize_finite; [lia|].
    rewrite !shl_align_value by lia.
    assert (HB : 0 < 2 ^ (970 - ez)) by (apply Z.pow_pos_nonneg; lia).
    assert (H1 : Z.pos (2 ^ 52) * 2 ^ (-52 - ez) = 2 ^ (- ez)).
    { change (Z.pos (2 ^ 52)) with (2 ^ 52). rewrite <- Z.pow_add_r by lia.
      f_equal. lia. }
    assert (H2 : 2 ^ (- ez) < 2 ^ (970 - ez))
      by (apply Z.pow_lt_mono_r; lia).
    assert (H3 : 2 ^ (e - ez) <= 2 ^ (971 - ez))
      by (apply Z.pow_le_mono_r; lia).
    assert (H4 : 2 ^ (971 - ez) = 2 * 2 ^ (970 - ez)).
    { rewrite <- Z.pow_succ_r by lia. f_equal. lia. }
    assert (H5 : 2 ^ (1024 - ez) = 2 ^ 54 * 2 ^ (970 - ez)).
    { rewrite <- Z.pow_add_r by lia. f_equal. lia. }
    assert (H6 : 0 < 2 ^ (e - ez)) by (apply Z.pow_pos_nonneg; lia).
    rewrite H1, H5.
    set (A := 2 ^ (- ez)) in *. set (B := 2 ^ (970 - ez)) in *.
    set (C := 2 ^ (e - ez)) in *.
    assert (H7 : Z.pos m * C <= (2 ^ 53 - 1) * (2 * B)) by nia.
    destruct s; cbn [SpecFloat.cond_Zopp]; lia.
Qed.

(** With [nsim = 0] and a finite [level] the index is 0. *)
Lemma critical_index_no_simulation (level : double) :
  critical_index 0 level = Returns 0.
Proof.
  unfold critical_index.
  change (float_of_int 0) with (Returns (SpecFloat.S754_zero false)).
  cbn [obind].
  pose proof (one_minus_level_finite level) as H.
  destruct (b64_sub (b64_of_int 1) level); try contradiction; reflexivity.
Qed.









(** The levels of the concrete calls are the floats Python reads from
    [0.05], [0.5], [1e-17], [0.9] and [1.5]. *)
Lemma level_literals :
  bits level_default = SpecFloat.S754_finite false 7205759403792794 (-57)
  /\ bits level_half = SpecFloat.S754_finite false 4503599627370496 (-53)
  /\ bits level_tiny = SpecFloat.S754_finite false 6490371073168535 (-109)
  /\ bits level_nine_tenths
     = SpecFloat.S754_finite false 8106479329266893 (-53)
  /\ bits level_three_halves
     = SpecFloat.S754_finite false 6755399441055744 (-52)
  /\ bits level_one = SpecFloat.S754_finite false 4503599627370496 (-52).
Proof. repeat split; vm_compute; reflexivity. Qed.

(** The indices of some calls: the default level with a thousand
    simulations reads entry 950, and a level of [1e-17] reads past the
    end. *)
Lemma critical_index_examples :
  critical_index 1000 level_default = Returns 950
  /\ critical_index 10 level_tiny = Returns 10
  /\ critical_index 10 level_nine_tenths = Returns 0
  /\ critical_index 10 level_three_halves = Returns (-5)
  /\ critical_index 10 level_default = Returns 9
  /\ critical_index 1 level_half = Returns 0
  /\ critical_index 2 level_half = Returns 1.
Proof. repeat split; vm_compute; reflexivity. Qed.

End Binary64.

(** * Properties *)

Section Properties.

Context {NR : NumpyRandom}.

(** ** Shapes *)

Lemma length_zscore (a : list float) : length (zscore a) = length a.
Proof. unfold zscore. apply length_map. Qed.

Lemma length_dft (sgn : R) (a : list complex) : length (dft sgn a) = length a.
Proof. unfold dft. now rewrite length_map, length_seq. Qed.

Lemma np_fft_fft_nonempty (a : list complex) :
  a <> [] -> np_fft_fft a = Returns (dft (-1) a).
Proof. destruct a; [congruence | reflexivity]. Qed.

Lemma np_fft_ifft_nonempty (a : list complex) :
  a <> [] ->
  np_fft_ifft a
  = Returns (map (fun z => cdiv_real z (Fin (INR (length a)))) (dft 1 a)).
Proof. destruct a; [congruence | reflexivity]. Qed.

Lemma length_nonempty {A : Type} (l : list A) : (0 < length l)%nat -> l <> [].
Proof. destruct l; simpl; [lia | congruence]. Qed.

Lemma length_draw (k : nat) (g : rng_state) : length (fst (draw k g)) = k.
Proof.
  revert g. induction k as [|k IH]; intros g; simpl; [reflexivity|].
  destruct (random_sample g) as [u g1].
  specialize (IH g1). destruct (draw k g1) as [us g2]. simpl in *. now f_equal.
Qed.

Lemma length_phases_full_even (n : nat) (phases : list float) :
  (n mod 2 = 0)%nat -> (2 <= n)%nat -> length phases = (n / 2 - 1)%nat ->
  length (phases_full n phases) = n.
Proof.
  intros Hpar Hn Hlen. unfold phases_full.
  rewrite (proj2 (Nat.eqb_eq _ _) Hpar).
  rewrite !length_app, length_map, length_rev, Hlen. cbn [length].
  pose proof (Nat.div_mod_eq n 2). lia.
Qed.

Lemma length_phases_full_odd (n : nat) (phases : list float) :
  (n mod 2 = 1)%nat -> (3 <= n)%nat -> length phases = (n / 2 - 1)%nat ->
  length (phases_full n phases) = (n - 2)%nat.
Proof.
  intros Hpar Hn Hlen. unfold phases_full.
  replace (n mod 2 =? 0)%nat with false
    by (symmetry; apply Nat.eqb_neq; lia).
  rewrite !length_app, length_map, length_rev, Hlen. cbn [length].
  pose proof (Nat.div_mod_eq n 2). lia.
Qed.

(** ** The length check *)

(** The world in which the function body runs: the caller's world with the
    generator re-seeded. *)
Lemma seed_step (seed : option seed_t) (w : world) :
  (match seed with
   | Some s => np_random_seed (Some s)
   | None => np_random_seed None
   end) w = np_random_seed seed w.
Proof. now destruct seed. Qed.

Lemma np_random_seed_returns (seed : option seed_t) (w : world) :
  snd (np_random_seed seed w) = Returns tt.
Proof.
  unfold np_random_seed. destruct seed; [reflexivity|].
  now destruct (fresh_state (os w)).
Qed.

Lemma np_random_seed_world (seed : option seed_t) (w : world) :
  np_random_seed seed w = (fst (np_random_seed seed w), Returns tt).
Proof.
  rewrite <- (np_random_seed_returns seed w). now destruct (np_random_seed seed w).
Qed.

Lemma ebisuzaki_mismatch (x y : list R) (level : pyfloat) (nsim : Z)
    (seed : option seed_t) (w : world) :
  length x <> length y ->
  ebisuzaki x y level nsim seed w
  = (fst (np_random_seed seed w), Raises (ValueError msg_size)).
Proof.
  intros Hne. unfold ebisuzaki, bind. rewrite seed_step.
  rewrite np_random_seed_world.
  rewrite !length_zscore, !length_map.
  replace (length x =? length y)%nat with false
    by (symmetry; now apply Nat.eqb_neq).
  reflexivity.
Qed.

(** C7. When [x] and [y] differ in length the call raises the
    length-mismatch error ([ValueError] with the message "Size of x and y
    must be the same") and returns nothing; it has drawn no random number
    and printed nothing: the world is the one left by re-seeding. *)
Theorem length_mismatch_is_fatal (x y : list R) (level : pyfloat) (nsim : Z)
    (seed : option seed_t) (w : world) :
  length x <> length y ->
  snd (ebisuzaki x y level nsim seed w) = Raises (ValueError msg_size)
  /\ (forall res, snd (ebisuzaki x y level nsim seed w) <> Returns res)
  /\ fst (ebisuzaki x y level nsim seed w) = fst (np_random_seed seed w)
  /\ stdout (fst (ebisuzaki x y level nsim seed w)) = stdout w.
Proof.
  intros Hne. rewrite (ebisuzaki_mismatch _ _ _ _ _ _ Hne). simpl.
  repeat split; try congruence.
  unfold np_random_seed. destruct seed; [reflexivity|].
  now destruct (fresh_state (os w)).
Qed.

(** C10. The generator is re-seeded before the lengths are compared: a
    call that fails on the length check leaves the process-wide generator
    in the re-seeded state (from [seed], or from fresh entropy when [seed]
    is [None]) whatever its state was before, so whenever the two differ
    the failed call has changed the generator. *)
Theorem reseed_precedes_length_check (x y : list R) (level : pyfloat) (nsim : Z)
    (seed : option seed_t) (w : world) :
  length x <> length y ->
  let w' := fst (ebisuzaki x y level nsim seed w) in
  let reseeded :=
    match seed with
    | Some s => seed_state s
    | None => fst (fresh_state (os w))
    end in
  snd (ebisuzaki x y level nsim seed w) = Raises (ValueError msg_size)
  /\ rng w' = reseeded
  /\ (rng w <> reseeded -> rng w' <> rng w).
Proof.
  intros Hne. cbv zeta. rewrite (ebisuzaki_mismatch _ _ _ _ _ _ Hne). simpl.
  assert (Hr : rng (fst (np_random_seed seed w))
               = match seed with
                 | Some s => seed_state s
                 | None => fst (fresh_state (os w))
                 end).
  { unfold np_random_seed. destruct seed; [reflexivity|].
    now destruct (fresh_state (os w)). }
  rewrite Hr. repeat split. congruence.
Qed.

(** ** Reproducibility under a fixed seed *)

Lemma rng_determined_ret {A : Type} (a : A) : rng_determined (ret a).
Proof. intros w1 w2 H. simpl. now split. Qed.

Lemma rng_determined_raise {A : Type} (e : pyerr) :
  rng_determined (raise e : M A).
Proof. intros w1 w2 H. simpl. now split. Qed.

Lemma rng_determined_lift {A : Type} (o : outcome A) : rng_determined (lift o).
Proof. intros w1 w2 H. simpl. now split. Qed.

Lemma rng_determined_bind {A B : Type} (m : M A) (k : A -> M B) :
  rng_determined m -> (forall a, rng_determined (k a)) ->
  rng_determined (bind m k).
Proof.
  intros Hm Hk w1 w2 H. unfold bind.
  destruct (Hm w1 w2 H) as [Ho Hr].
  destruct (m w1) as [w1' o1], (m w2) as [w2' o2]. simpl in Ho, Hr. subst o2.
  destruct o1 as [a|e]; [now apply Hk | now split].
Qed.

Lemma rng_determined_uniform (low high : R) (size : Z) :
  rng_determined (np_random_uniform low high size).
Proof.
  intros w1 w2 H. unfold np_random_uniform.
  destruct (size <? 0)%Z; [now split|].
  rewrite H. destruct (draw (Z.to_nat size) (rng w2)) as [us g]. now split.
Qed.

Lemma rng_determined_print (l : line) : rng_determined (print l).
Proof. intros w1 w2 H. simpl. now split. Qed.

Lemma rng_determined_for_each {S : Type} (ixs : list nat)
    (body : nat -> S -> M S) :
  (forall i s, rng_determined (body i s)) ->
  forall s, rng_determined (for_each ixs body s).
Proof.
  intros Hb. induction ixs as [|i rest IH]; intros s; simpl.
  - apply rng_determined_ret.
  - apply rng_determined_bind; [apply Hb | apply IH].
Qed.

Create HintDb rng_det.

#[local] Hint Resolve rng_determined_ret rng_determined_raise
  rng_determined_lift rng_determined_uniform rng_determined_print
  : rng_det.

Lemma rng_determined_loop_body (n n2 : nat) (modx mody : list float)
    (i : nat) (XY : matrix * matrix) :
  rng_determined (loop_body n n2 modx mody i XY).
Proof.
  unfold loop_body.
  repeat (apply rng_determined_bind; [auto with rng_det | intros ?]).
  auto with rng_det.
Qed.

(** What follows the re-seeding in [ebisuzaki]. *)
Lemma ebisuzaki_after_seed (x y : list R) (level : pyfloat) (nsim : Z)
    (seed : option seed_t) :
  exists body : M (list pyval),
    rng_determined body
    /\ forall w, ebisuzaki x y level nsim seed w
                 = body (fst (np_random_seed seed w)).
Proof.
  eexists. split.
  2:{ intros w. unfold ebisuzaki. unfold bind at 1. rewrite seed_step.
      rewrite np_random_seed_world. reflexivity. }
  cbv beta.
  destruct (negb (length (zscore (map Fin x)) =? length (zscore (map Fin y)))%nat).
  - auto with rng_det.
  - repeat (apply rng_determined_bind;
            [first [ apply rng_determined_for_each; intros;
                     apply rng_determined_loop_body
                   | auto with rng_det ]
            | intros ?]).
    auto with rng_det.
Qed.

(** C5. With a fixed seed, two invocations on the same [x], [y], [nsim]
    and [level] have the same outcome whatever the state of the generator,
    of the entropy source and of the output before each of them: the same
    returned tuple ([F], [rSim] element for element, [r_real]) or the same
    exception; they also leave the generator in the same state. *)
Theorem fixed_seed_reproducible (x y : list R) (level : pyfloat) (nsim : Z)
    (s : seed_t) (w1 w2 : world) :
  snd (ebisuzaki x y level nsim (Some s) w1)
  = snd (ebisuzaki x y level nsim (Some s) w2)
  /\ rng (fst (ebisuzaki x y level nsim (Some s) w1))
     = rng (fst (ebisuzaki x y level nsim (Some s) w2)).
Proof.
  destruct (ebisuzaki_after_seed x y level nsim (Some s)) as (body & Hdet & Hrun).
  rewrite !Hrun. apply Hdet. reflexivity.
Qed.

(** ** One iteration of the loop *)

Lemma np_random_uniform_run (size : Z) (w : world) :
  (0 <= size)%Z ->
  np_random_uniform (- PI) PI size w
  = (World (snd (uniform_phases (Z.to_nat size) (rng w))) (os w) (stdout w),
     Returns (fst (uniform_phases (Z.to_nat size) (rng w)))).
Proof.
  intros Hs. unfold np_random_uniform, uniform_phases.
  replace (size <? 0)%Z with false by (symmetry; apply Z.ltb_ge; lia).
  now destruct (draw (Z.to_nat size) (rng w)).
Qed.

Lemma length_uniform_phases (size : nat) (g : rng_state) :
  length (fst (uniform_phases size g)) = size.
Proof. unfold uniform_phases. simpl. now rewrite length_map, length_draw. Qed.

(** Each phase is [-pi + 2 pi u] for a draw [u] of [random_sample()]: with
    [u] in [0, 1) it lies in [-pi, pi). *)
Lemma uniform_phase_range (u : R) :
  0 <= u < 1 -> - PI <= - PI + (PI - - PI) * u < PI.
Proof. intros [H0 H1]. pose proof PI_RGT_0. split; nra. Qed.

(** The pure part of an iteration, given the phases it drew. *)
Lemma loop_body_run (n n2 : nat) (modx mody : list float) (i : nat)
    (XY : matrix * matrix) (w : world) :
  (1 <= n2)%nat ->
  let px := uniform_phases (n2 - 1) (rng w) in
  let py := uniform_phases (n2 - 1) (snd px) in
  loop_body n n2 modx mody i XY w
  = (World (snd py) (os w) (stdout w),
     obind (surrogate n modx (fst px)) (fun sx =>
     obind (surrogate n mody (fst py)) (fun sy =>
     obind (set_column n (fst XY) i sx) (fun X =>
     obind (set_column n (snd XY) i sy) (fun Y =>
     Returns (X, Y)))))).
Proof.
  intros Hn2 px py. unfold loop_body, bind.
  rewrite np_random_uniform_run by lia. cbn [rng os stdout].
  rewrite np_random_uniform_run by lia. cbn [rng os stdout].
  replace (Z.to_nat (Z.of_nat n2 - 1)) with (n2 - 1)%nat by lia.
  fold px. fold py. unfold lift.
  destruct (surrogate n modx (fst px)) as [sx|e]; [|reflexivity].
  destruct (surrogate n mody (fst py)) as [sy|e]; [|reflexivity].
  cbn [obind].
  destruct (set_column n (fst XY) i sx) as [X|e]; [|reflexivity].
  destruct (set_column n (snd XY) i sy) as [Y|e]; reflexivity.
Qed.

(** When the shapes agree the surrogate is the real part of the inverse
    transform of the magnitudes carrying the new phases. *)
Lemma surrogate_same_shape (n : nat) (modx phases : list float) :
  (0 < n)%nat -> length modx = n -> length (phases_full n phases) = n ->
  surrogate n modx phases = Returns (real_ifft (recf modx (phases_full n phases))).
Proof.
  intros Hn Hm Hp. unfold surrogate, broadcast_mul.
  rewrite length_map, Hm, Hp, Nat.eqb_refl. cbn [obind].
  fold (recf modx (phases_full n phases)).
  rewrite np_fft_ifft_nonempty; [reflexivity|].
  apply length_nonempty. unfold recf.
  rewrite length_map, length_combine, length_map, Hm, Hp. lia.
Qed.

Lemma length_recf (modx phases_full : list float) :
  length modx = length phases_full ->
  length (recf modx phases_full) = length modx.
Proof.
  intros H. unfold recf. rewrite length_map, length_combine, length_map. lia.
Qed.

Lemma length_real_ifft (a : list complex) : length (real_ifft a) = length a.
Proof. unfold real_ifft. now rewrite !length_map, length_dft. Qed.

(** The odd branch leaves the phase array two entries short: from five
    rows on, the product with the magnitudes cannot be formed. *)
Lemma surrogate_odd_raises (n : nat) (modx phases : list float) :
  (n mod 2 = 1)%nat -> (5 <= n)%nat ->
  length modx = n -> length phases = (n / 2 - 1)%nat ->
  surrogate n modx phases = Raises (ValueError msg_broadcast).
Proof.
  intros Hpar Hn Hm Hp. unfold surrogate, broadcast_mul.
  rewrite length_map, Hm, length_phases_full_odd by (assumption || lia).
  replace (n =? n - 2)%nat with false by (symmetry; apply Nat.eqb_neq; lia).
  replace (n =? 1)%nat with false by (symmetry; apply Nat.eqb_neq; lia).
  replace (n - 2 =? 1)%nat with false by (symmetry; apply Nat.eqb_neq; lia).
  reflexivity.
Qed.

(** ** The run of a call on inputs of equal length *)

Lemma np_corrcoef_same_length (x y : list float) :
  length x = length y -> np_corrcoef x y = Returns (pearson x y).
Proof. intros H. unfold np_corrcoef. now rewrite H, Nat.eqb_refl. Qed.

Lemma ebisuzaki_run (x y : list R) (level : pyfloat) (nsim : Z)
    (seed : option seed_t) (w : world) :
  length x = length y -> (0 < length x)%nat -> (0 <= nsim)%Z ->
  let zx := zscore (map Fin x) in
  let zy := zscore (map Fin y) in
  let n := length x in
  let r_real := pearson zx zy in
  let zeros := repeat (repeat (Fin 0) n) (Z.to_nat nsim) in
  ebisuzaki x y level nsim seed w
  = match for_each (range nsim)
            (loop_body n (n / 2) (magnitudes zx) (magnitudes zy))
            (zeros, zeros) (fst (np_random_seed seed w)) with
    | (w1, Raises e) => (w1, Raises e)
    | (w1, Returns XY) =>
        match surrogate_correlations (fst XY) (snd XY) nsim with
        | Raises e => (w1, Raises e)
        | Returns rSim =>
            let F := fraction_larger rSim r_real nsim in
            match critical_value rSim level nsim with
            | Raises e => (w1, Raises e)
            | Returns cv =>
                (World (rng w1) (os w1)
                   (stdout w1 ++ [Rule; Observed r_real; Critical cv; Fraction F]),
                 Returns [PyFloat F; PyArray rSim; PyFloat r_real])
            end
        end
    end.
Proof.
  intros Hlen Hpos Hnsim zx zy n r_real zeros.
  unfold ebisuzaki. unfold bind at 1. rewrite seed_step.
  rewrite np_random_seed_world.
  fold zx. fold zy.
  assert (Hzx : length zx = n) by (unfold zx; now rewrite length_zscore, length_map).
  assert (Hzy : length zy = n)
    by (unfold zy; rewrite length_zscore, length_map; now symmetry).
  rewrite Hzx, Hzy, Nat.eqb_refl. cbn [negb].
  unfold bind, lift. rewrite (np_corrcoef_same_length zx zy) by congruence.
  rewrite !np_fft_fft_nonempty
    by (apply length_nonempty; rewrite length_map; lia).
  unfold np_zeros.
  replace (nsim <? 0)%Z with false by (symmetry; apply Z.ltb_ge; lia).
  fold (magnitudes zx). fold (magnitudes zy). fold r_real. fold zeros.
  destruct (for_each _ _ _ _) as [w1 [XY|e]]; [|reflexivity].
  fold (surrogate_correlations (fst XY) (snd XY) nsim).
  destruct (surrogate_correlations _ _ _) as [rSim|e]; [|reflexivity].
  destruct (critical_value rSim level nsim) as [cv|e]; [|reflexivity].
  unfold print. cbn [rng os stdout]. rewrite <- !app_assoc. reflexivity.
Qed.

Lemma ebisuzaki_negative_nsim (x y : list R) (level : pyfloat) (nsim : Z)
    (seed : option seed_t) (w : world) :
  length x = length y -> (0 < length x)%nat -> (nsim < 0)%Z ->
  ebisuzaki x y level nsim seed w
  = (fst (np_random_seed seed w), Raises (ValueError msg_negative)).
Proof.
  intros Hlen Hpos Hnsim.
  unfold ebisuzaki. unfold bind at 1. rewrite seed_step.
  rewrite np_random_seed_world.
  rewrite !length_zscore, !length_map, <- Hlen, Nat.eqb_refl. cbn [negb].
  unfold bind, lift.
  rewrite np_corrcoef_same_length
    by (rewrite !length_zscore, !length_map; exact Hlen).
  rewrite !np_fft_fft_nonempty
    by (apply length_nonempty; rewrite length_map, length_zscore, length_map; lia).
  unfold np_zeros.
  replace (nsim <? 0)%Z with true by (symmetry; apply Z.ltb_lt; lia).
  reflexivity.
Qed.

(** ** The loop *)

Lemma update_app {A : Type} (l1 l2 : list A) (a v : A) :
  update (length l1) v (l1 ++ a :: l2) = l1 ++ v :: l2.
Proof. induction l1 as [|b l1 IH]; simpl; [reflexivity | now rewrite IH]. Qed.

Lemma set_column_next (n : nat) (Xd Xr : matrix) (z v : list float) :
  length v = n ->
  set_column n (Xd ++ z :: Xr) (length Xd) v = Returns ((Xd ++ [v]) ++ Xr).
Proof.
  intros Hv. unfold set_column.
  replace (length Xd <? length (Xd ++ z :: Xr))%nat with true
    by (symmetry; apply Nat.ltb_lt; rewrite length_app; simpl; lia).
  rewrite Hv, Nat.eqb_refl, update_app, <- app_assoc. reflexivity.
Qed.

Lemma drawn_phases_lengths (k size : nat) (g : rng_state) :
  length (fst (drawn_phases k size g)) = k
  /\ Forall (fun p => length (fst p) = size /\ length (snd p) = size)
            (fst (drawn_phases k size g)).
Proof.
  revert g. induction k as [|k IH]; intros g; cbn [drawn_phases fst snd].
  - split; [reflexivity | constructor].
  - destruct (IH (snd (uniform_phases size (snd (uniform_phases size g)))))
      as [IH1 IH2].
    split; [cbn [length]; now f_equal|].
    constructor; [|assumption].
    cbn [fst snd]. now rewrite !length_uniform_phases.
Qed.

(** If every surrogate can be formed, each iteration fills its column and
    the loop ends with the surrogates of the drawn phases, in order. *)
Lemma for_each_fills_columns (S : list float -> list float -> list float)
    (n n2 : nat) (modx mody : list float) :
  (1 <= n2)%nat ->
  (forall m p, length m = n -> length p = (n2 - 1)%nat ->
               surrogate n m p = Returns (S m p) /\ length (S m p) = n) ->
  length modx = n -> length mody = n ->
  forall (k s : nat) (Xd Yd Xr Yr : matrix) (w : world),
    length Xd = s -> length Yd = s -> length Xr = k -> length Yr = k ->
    for_each (seq s k) (loop_body n n2 modx mody) (Xd ++ Xr, Yd ++ Yr) w
    = (World (snd (drawn_phases k (n2 - 1) (rng w))) (os w) (stdout w),
       Returns
         (Xd ++ map (fun p => S modx (fst p))
                    (fst (drawn_phases k (n2 - 1) (rng w))),
          Yd ++ map (fun p => S mody (snd p))
                    (fst (drawn_phases k (n2 - 1) (rng w))))).
Proof.
  intros Hn2 HS Hmx Hmy.
  induction k as [|k IH]; intros s Xd Yd Xr Yr w HXd HYd HXr HYr.
  - destruct Xr; [|discriminate]. destruct Yr; [|discriminate].
    simpl. unfold ret. now destruct w.
  - destruct Xr as [|zx Xr]; [discriminate|].
    destruct Yr as [|zy Yr]; [discriminate|].
    cbn [seq for_each]. unfold bind at 1.
    rewrite loop_body_run by assumption.
    cbn [fst snd].
    set (px := uniform_phases (n2 - 1) (rng w)).
    set (py := uniform_phases (n2 - 1) (snd px)).
    destruct (HS modx (fst px) Hmx (length_uniform_phases _ _)) as [Hsx Hlx].
    destruct (HS mody (fst py) Hmy (length_uniform_phases _ _)) as [Hsy Hly].
    rewrite Hsx, Hsy. cbn [obind].
    rewrite <- HXd at 1. rewrite (set_column_next n Xd Xr zx _ Hlx). cbn [obind].
    rewrite <- HYd at 1. rewrite (set_column_next n Yd Yr zy _ Hly). cbn [obind].
    rewrite (IH (Datatypes.S s) (Xd ++ [S modx (fst px)]) (Yd ++ [S mody (fst py)]))
      by (rewrite ?length_app; simpl in *; lia).
    cbn [rng os stdout drawn_phases fst snd map].
    fold px. fold py. rewrite <- !app_assoc. reflexivity.
Qed.

(** If no surrogate can be formed, the first iteration raises. *)
Lemma for_each_first_raises (n n2 : nat) (modx mody : list float) (e : pyerr)
    (k : nat) (XY : matrix * matrix) (w : world) :
  (1 <= n2)%nat ->
  (forall p, length p = (n2 - 1)%nat -> surrogate n modx p = Raises e) ->
  snd (for_each (seq 0 (Datatypes.S k)) (loop_body n n2 modx mody) XY w)
  = Raises e.
Proof.
  intros Hn2 Hs. cbn [seq for_each]. unfold bind at 1.
  rewrite loop_body_run by assumption.
  rewrite Hs by apply length_uniform_phases. reflexivity.
Qed.

Lemma length_magnitudes (z : list float) : length (magnitudes z) = length z.
Proof. unfold magnitudes. now rewrite length_map, length_dft, length_map. Qed.

(** On inputs of an odd length from five on, a call that asks for at least
    one surrogate raises in its first iteration. *)
Lemma ebisuzaki_odd_raises (x y : list R) (level : pyfloat) (nsim : Z)
    (seed : option seed_t) (w : world) :
  length x = length y -> (length x mod 2 = 1)%nat -> (5 <= length x)%nat ->
  (1 <= nsim)%Z ->
  snd (ebisuzaki x y level nsim seed w) = Raises (ValueError msg_broadcast).
Proof.
  intros Hlen Hpar Hn Hnsim.
  rewrite ebisuzaki_run by (assumption || lia). cbv zeta.
  unfold range.
  destruct (Z.to_nat nsim) as [|k] eqn:Hk; [lia|].
  assert (Hn2 : (1 <= length x / 2)%nat)
    by (pose proof (Nat.div_mod_eq (length x) 2); lia).
  assert (Hsur : forall p, length p = (length x / 2 - 1)%nat ->
            surrogate (length x) (magnitudes (zscore (map Fin x))) p
            = Raises (ValueError msg_broadcast)).
  { intros p Hp. apply surrogate_odd_raises; try assumption.
    now rewrite length_magnitudes, length_zscore, length_map. }
  pose proof (for_each_first_raises (length x) (length x / 2)
    (magnitudes (zscore (map Fin x))) (magnitudes (zscore (map Fin y)))
    (ValueError msg_broadcast) k
    (repeat (repeat (Fin 0) (length x)) (Datatypes.S k),
     repeat (repeat (Fin 0) (length x)) (Datatypes.S k))
    (fst (np_random_seed seed w)) Hn2 Hsur) as Hfail.
  destruct (for_each _ _ _ _) as [w1 [XY|e]]; cbn [snd] in Hfail |- *;
    [discriminate Hfail | now injection Hfail as ->].
Qed.

(** ** The correlations of the surrogates *)

Lemma column_next (Xd Xr : matrix) (c : list float) :
  column (map zscore (Xd ++ c :: Xr)) (length Xd) = Returns (zscore c).
Proof.
  unfold column. rewrite map_app.
  rewrite nth_error_app2 by (rewrite length_map; lia).
  now rewrite length_map, Nat.sub_diag.
Qed.

Lemma omap_columns (Xd Yd Xr Yr : matrix) :
  length Xd = length Yd -> length Xr = length Yr ->
  Forall (fun c => length (fst c) = length (snd c)) (combine Xr Yr) ->
  omap (fun i =>
          obind (column (map zscore (Xd ++ Xr)) i) (fun xi =>
          obind (column (map zscore (Yd ++ Yr)) i) (fun yi => np_corrcoef xi yi)))
       (seq (length Xd) (length Xr))
  = Returns (correlations Xr Yr).
Proof.
  revert Xd Yd Yr. induction Xr as [|cx Xr IH]; intros Xd Yd Yr Hd Hr Hall.
  - reflexivity.
  - destruct Yr as [|cy Yr]; [discriminate|].
    cbn [length seq omap].
    rewrite column_next. cbn [obind].
    rewrite Hd at 1. rewrite column_next. cbn [obind].
    inversion Hall as [|? ? Hc Hall']; subst. cbn [fst snd] in Hc.
    rewrite np_corrcoef_same_length by (now rewrite !length_zscore).
    cbn [obind].
    specialize (IH (Xd ++ [cx]) (Yd ++ [cy]) Yr).
    rewrite !length_app in IH. cbn [length] in IH.
    rewrite Nat.add_1_r in IH.
    rewrite <- !app_assoc in IH. cbn [app] in IH.
    rewrite IH by (simpl in Hr; lia || assumption).
    reflexivity.
Qed.

Lemma surrogate_correlations_run (X Y : matrix) (nsim : Z) :
  length X = Z.to_nat nsim -> length Y = Z.to_nat nsim ->
  Forall (fun c => length (fst c) = length (snd c)) (combine X Y) ->
  surrogate_correlations X Y nsim = Returns (correlations X Y).
Proof.
  intros HX HY Hall. unfold surrogate_correlations, range.
  rewrite <- HX. apply (omap_columns [] [] X Y); [reflexivity | lia | assumption].
Qed.

Lemma length_correlations (X Y : matrix) :
  length X = length Y -> length (correlations X Y) = length X.
Proof.
  intros H. unfold correlations. rewrite length_map, length_combine. lia.
Qed.

Lemma combine_columns_same_length (n : nat) (X Y : matrix) :
  Forall (fun c => length c = n) X -> Forall (fun c => length c = n) Y ->
  Forall (fun c => length (fst c) = length (snd c)) (combine X Y).
Proof.
  intros HX. revert Y. induction HX as [|cx X Hcx HX IH]; intros Y HY.
  - constructor.
  - destruct HY as [|cy Y Hcy HY]; simpl; constructor.
    + simpl. congruence.
    + now apply IH.
Qed.

(** ** The run of a call when every surrogate can be formed *)

(** Shapes for which the loop body goes through: the magnitudes and the
    phase array can be multiplied, whatever phases are drawn. *)
Lemma ebisuzaki_regular_run (x y : list R) (level : pyfloat) (nsim : Z)
    (seed : option seed_t) (w : world) :
  length x = length y -> (2 <= length x)%nat -> (0 <= nsim)%Z ->
  (forall m p, length m = length x -> length p = (length x / 2 - 1)%nat ->
     exists s, surrogate (length x) m p = Returns s /\ length s = length x) ->
  let zx := zscore (map Fin x) in
  let zy := zscore (map Fin y) in
  let n := length x in
  let r_real := pearson zx zy in
  let w0 := fst (np_random_seed seed w) in
  let ps := drawn_phases (Z.to_nat nsim) (n / 2 - 1) (rng w0) in
  let X := surrogates_x n (magnitudes zx) (fst ps) in
  let Y := surrogates_y n (magnitudes zy) (fst ps) in
  let rSim := correlations X Y in
  let F := fraction_larger rSim r_real nsim in
  ebisuzaki x y level nsim seed w
  = match critical_value rSim level nsim with
    | Raises e => (World (snd ps) (os w0) (stdout w0), Raises e)
    | Returns cv =>
        (World (snd ps) (os w0)
           (stdout w0 ++ [Rule; Observed r_real; Critical cv; Fraction F]),
         Returns [PyFloat F; PyArray rSim; PyFloat r_real])
    end.
Proof.
  intros Hlen Hn Hnsim Hsur zx zy n r_real w0 ps X Y rSim F.
  rewrite ebisuzaki_run by (assumption || lia). cbv zeta.
  fold zx zy n w0.
  assert (HS : forall m p, length m = n -> length p = (n / 2 - 1)%nat ->
             surrogate n m p = Returns (surrogate_of n m p)
             /\ length (surrogate_of n m p) = n).
  { intros m p Hm Hp. destruct (Hsur m p Hm Hp) as (s & Hs & Hl).
    unfold surrogate_of. fold n in Hs. rewrite Hs. now split. }
  assert (Hn2 : (1 <= n / 2)%nat)
    by (pose proof (Nat.div_mod_eq n 2);
        pose proof (Nat.mod_upper_bound n 2); unfold n in *; lia).
  assert (Hmx : length (magnitudes zx) = n)
    by (unfold zx; now rewrite length_magnitudes, length_zscore, length_map).
  assert (Hmy : length (magnitudes zy) = n)
    by (unfold zy; rewrite length_magnitudes, length_zscore, length_map;
        now symmetry).
  pose proof (for_each_fills_columns (surrogate_of n) n (n / 2)
    (magnitudes zx) (magnitudes zy) Hn2 HS Hmx Hmy (Z.to_nat nsim) 0%nat
    [] [] (repeat (repeat (Fin 0) n) (Z.to_nat nsim))
    (repeat (repeat (Fin 0) n) (Z.to_nat nsim)) w0
    eq_refl eq_refl (repeat_length _ _) (repeat_length _ _)) as Hloop.
  cbn [app] in Hloop. unfold range. rewrite Hloop. fold ps. cbn [fst snd].
  fold (surrogates_x n (magnitudes zx) (fst ps)).
  fold (surrogates_y n (magnitudes zy) (fst ps)). fold X Y.
  destruct (drawn_phases_lengths (Z.to_nat nsim) (n / 2 - 1) (rng w0))
    as [Hk Hps]. fold ps in Hk, Hps.
  assert (HX : Forall (fun c => length c = n) X).
  { unfold X, surrogates_x. apply Forall_map.
    eapply Forall_impl; [|exact Hps]. intros p [Hp _]. now apply HS. }
  assert (HY : Forall (fun c => length c = n) Y).
  { unfold Y, surrogates_y. apply Forall_map.
    eapply Forall_impl; [|exact Hps]. intros p [_ Hp]. now apply HS. }
  rewrite surrogate_correlations_run;
    [ | unfold X, surrogates_x; now rewrite length_map
      | unfold Y, surrogates_y; now rewrite length_map
      | now apply (combine_columns_same_length n) ].
  fold rSim. fold F. cbn [rng os stdout].
  destruct (critical_value rSim level nsim); reflexivity.
Qed.

(** ** Shapes for which every surrogate can be formed *)

Lemma surrogate_even (n : nat) (m p : list float) :
  (n mod 2 = 0)%nat -> (2 <= n)%nat ->
  length m = n -> length p = (n / 2 - 1)%nat ->
  surrogate n m p = Returns (real_ifft (recf m (phases_full n p)))
  /\ length (real_ifft (recf m (phases_full n p))) = n.
Proof.
  intros Hpar Hn Hm Hp.
  pose proof (length_phases_full_even n p Hpar Hn Hp) as Hfull.
  split.
  - apply surrogate_same_shape; [lia | assumption | assumption].
  - rewrite length_real_ifft, length_recf; congruence.
Qed.

Lemma surrogate_even_exists (n : nat) :
  (n mod 2 = 0)%nat -> (2 <= n)%nat ->
  forall m p, length m = n -> length p = (n / 2 - 1)%nat ->
    exists s, surrogate n m p = Returns s /\ length s = n.
Proof.
  intros Hpar Hn m p Hm Hp. eexists. now apply surrogate_even.
Qed.

(** ** The critical value *)

Lemma length_insert_sorted (a : float) (l : list float) :
  length (insert_sorted a l) = Datatypes.S (length l).
Proof.
  induction l as [|b l IH]; simpl; [reflexivity|].
  destruct (fle_sort a b); simpl; [reflexivity | now rewrite IH].
Qed.

Lemma length_np_sort (l : list float) : length (np_sort l) = length l.
Proof.
  induction l as [|a l IH]; simpl; [reflexivity|].
  now rewrite length_insert_sorted, IH.
Qed.

Lemma np_index_in_range (a : list float) (i : Z) :
  (- Z.of_nat (length a) <= i < Z.of_nat (length a))%Z ->
  exists v, np_index a i = Returns v.
Proof.
  intros Hi. unfold np_index.
  destruct ((0 <=? i) && (i <? Z.of_nat (length a)))%Z eqn:E1; [eauto|].
  destruct ((- Z.of_nat (length a) <=? i) && (i <? 0))%Z eqn:E2; [eauto|].
  exfalso.
  apply andb_false_iff in E1. apply andb_false_iff in E2.
  rewrite !Z.leb_gt, !Z.ltb_ge in *. lia.
Qed.

Lemma np_index_out_of_range (a : list float) (i : Z) :
  ~ (- Z.of_nat (length a) <= i < Z.of_nat (length a))%Z ->
  np_index a i = Raises (IndexError msg_index).
Proof.
  intros Hi. unfold np_index.
  destruct ((0 <=? i) && (i <? Z.of_nat (length a)))%Z eqn:E1.
  { exfalso. apply andb_true_iff in E1. rewrite Z.leb_le, Z.ltb_lt in E1. lia. }
  destruct ((- Z.of_nat (length a) <=? i) && (i <? 0))%Z eqn:E2; [|reflexivity].
  exfalso. apply andb_true_iff in E2. rewrite Z.leb_le, Z.ltb_lt in E2. lia.
Qed.

Lemma critical_value_in_range (rSim : list float) (level : pyfloat) (nsim i : Z) :
  length rSim = Z.to_nat nsim -> (0 <= nsim)%Z ->
  critical_index nsim level = Returns i ->
  (- nsim <= i < nsim)%Z ->
  exists cv, critical_value rSim level nsim = Returns cv.
Proof.
  intros Hl Hn Hidx Hi. unfold critical_value. rewrite Hidx. cbn [obind].
  apply np_index_in_range.
  rewrite length_np_sort, length_map, Hl. lia.
Qed.

Lemma critical_value_out_of_range (rSim : list float) (level : pyfloat)
    (nsim i : Z) :
  length rSim = Z.to_nat nsim -> (0 <= nsim)%Z ->
  critical_index nsim level = Returns i ->
  ~ (- nsim <= i < nsim)%Z ->
  critical_value rSim level nsim = Raises (IndexError msg_index).
Proof.
  intros Hl Hn Hidx Hi. unfold critical_value. rewrite Hidx. cbn [obind].
  apply np_index_out_of_range.
  rewrite length_np_sort, length_map, Hl. lia.
Qed.


(** ** What a call that returns has returned *)

Lemma silent_ret {A : Type} (a : A) : silent (ret a).
Proof. intros w. reflexivity. Qed.

Lemma silent_lift {A : Type} (o : outcome A) : silent (lift o).
Proof. intros w. reflexivity. Qed.

Lemma silent_bind {A B : Type} (m : M A) (k : A -> M B) :
  silent m -> (forall a, silent (k a)) -> silent (bind m k).
Proof.
  intros Hm Hk w. unfold bind. specialize (Hm w).
  destruct (m w) as [w' [a|e]]; simpl in *; [|assumption].
  now rewrite Hk.
Qed.

Lemma silent_uniform (low high : R) (size : Z) :
  silent (np_random_uniform low high size).
Proof.
  intros w. unfold np_random_uniform.
  destruct (size <? 0)%Z; [reflexivity|].
  now destruct (draw (Z.to_nat size) (rng w)).
Qed.

Lemma silent_seed (seed : option seed_t) : silent (np_random_seed seed).
Proof.
  intros w. unfold np_random_seed. destruct seed; [reflexivity|].
  now destruct (fresh_state (os w)).
Qed.

Lemma silent_loop_body (n n2 : nat) (modx mody : list float) (i : nat)
    (XY : matrix * matrix) :
  silent (loop_body n n2 modx mody i XY).
Proof.
  unfold loop_body.
  repeat (apply silent_bind;
          [first [apply silent_uniform | apply silent_lift] | intros ?]).
  apply silent_ret.
Qed.

Lemma silent_for_each {S : Type} (ixs : list nat) (body : nat -> S -> M S) :
  (forall i s, silent (body i s)) -> forall s, silent (for_each ixs body s).
Proof.
  intros Hb. induction ixs as [|i rest IH]; intros s; simpl.
  - apply silent_ret.
  - apply silent_bind; [apply Hb | apply IH].
Qed.

Lemma omap_length {A B : Type} (f : A -> outcome B) (l : list A) (r : list B) :
  omap f l = Returns r -> length r = length l.
Proof.
  revert r. induction l as [|a l IH]; intros r H; simpl in H.
  - now inversion H.
  - destruct (f a) as [b|e]; [|discriminate]. simpl in H.
    destruct (omap f l) as [bs|e]; [|discriminate]. simpl in H.
    inversion H; subst. simpl. f_equal. now apply IH.
Qed.

(** Empty inputs are refused by the transform. *)
Lemma ebisuzaki_empty (x y : list R) (level : pyfloat) (nsim : Z)
    (seed : option seed_t) (w : world) :
  length x = 0%nat -> length y = 0%nat ->
  snd (ebisuzaki x y level nsim seed w) = Raises (ValueError msg_fft).
Proof.
  intros Hx Hy. destruct x; [|discriminate]. destruct y; [|discriminate].
  unfold ebisuzaki. unfold bind at 1. rewrite seed_step.
  rewrite np_random_seed_world. reflexivity.
Qed.

Lemma ebisuzaki_returns_inv (x y : list R) (level : pyfloat) (nsim : Z)
    (seed : option seed_t) (w : world) (res : list pyval) :
  snd (ebisuzaki x y level nsim seed w) = Returns res ->
  let r_real := pearson (zscore (map Fin x)) (zscore (map Fin y)) in
  exists (rSim : list float) (cv : float),
    length x = length y /\ (0 < length x)%nat /\ (0 <= nsim)%Z
    /\ length rSim = Z.to_nat nsim
    /\ critical_value rSim level nsim = Returns cv
    /\ res = [PyFloat (fraction_larger rSim r_real nsim); PyArray rSim;
              PyFloat r_real]
    /\ stdout (fst (ebisuzaki x y level nsim seed w))
       = stdout w ++ [Rule; Observed r_real; Critical cv;
                      Fraction (fraction_larger rSim r_real nsim)].
Proof.
  intros Hret r_real.
  destruct (Nat.eq_dec (length x) (length y)) as [Hlen|Hlen].
  2:{ rewrite (ebisuzaki_mismatch _ _ _ _ _ _ Hlen) in Hret. discriminate. }
  destruct (Nat.eq_dec (length x) 0) as [Hx|Hx].
  { rewrite ebisuzaki_empty in Hret by lia. discriminate. }
  destruct (Z_lt_le_dec nsim 0) as [Hn|Hn].
  { rewrite ebisuzaki_negative_nsim in Hret by (assumption || lia).
    discriminate. }
  revert Hret. rewrite ebisuzaki_run by (assumption || lia). cbv zeta.
  fold r_real.
  pose proof (silent_for_each (range nsim)
    (loop_body (length x) (length x / 2)
       (magnitudes (zscore (map Fin x))) (magnitudes (zscore (map Fin y))))
    (silent_loop_body _ _ _ _)
    (repeat (repeat (Fin 0) (length x)) (Z.to_nat nsim),
     repeat (repeat (Fin 0) (length x)) (Z.to_nat nsim))
    (fst (np_random_seed seed w))) as Hout.
  rewrite silent_seed in Hout.
  destruct (for_each _ _ _ _) as [w1 [XY|e]]; [|discriminate].
  cbn [fst] in Hout.
  destruct (surrogate_correlations _ _ _) as [rSim|e] eqn:Hr; [|discriminate].
  destruct (critical_value rSim level nsim) as [cv|e] eqn:Hcv; [|discriminate].
  cbn [fst snd stdout]. intros Hret. inversion Hret; subst res.
  exists rSim, cv. repeat split; try assumption; try lia.
  - unfold surrogate_correlations in Hr. apply omap_length in Hr.
    unfold range in Hr. now rewrite length_seq in Hr.
  - now rewrite Hout.
Qed.

(** ** The fraction of larger surrogate correlations *)

Lemma np_sum_map {A : Type} (f : A -> bool) (l : list A) :
  np_sum (map f l) = length (filter f l).
Proof.
  unfold np_sum. induction l as [|a l IH]; simpl; [reflexivity|].
  destruct (f a); simpl; now rewrite IH.
Qed.

Lemma fdiv_fin (a b : R) : b <> 0 -> fdiv (Fin a) (Fin b) = Fin (a / b).
Proof.
  intros Hb. unfold fdiv. destruct (Req_dec_T b 0); [contradiction | reflexivity].
Qed.

Lemma fdiv_zero (a b : float) : b = Fin 0 -> fdiv a b = NaN.
Proof.
  intros ->. unfold fdiv. destruct a; [|reflexivity].
  destruct (Req_dec_T 0 0); [reflexivity | contradiction].
Qed.

Lemma fraction_larger_value (rSim : list float) (r_real : float) (nsim : Z) :
  (0 < nsim)%Z ->
  fraction_larger rSim r_real nsim
  = Fin (INR (count_larger rSim r_real) / IZR nsim).
Proof.
  intros Hn. unfold fraction_larger, count_larger. rewrite np_sum_map.
  apply fdiv_fin. apply not_0_IZR. lia.
Qed.

Lemma count_larger_le (rSim : list float) (r_real : float) :
  (count_larger rSim r_real <= length rSim)%nat.
Proof. unfold count_larger. apply filter_length_le. Qed.

Lemma fraction_in_unit_interval (c : nat) (nsim : Z) :
  (0 < nsim)%Z -> (c <= Z.to_nat nsim)%nat -> 0 <= INR c / IZR nsim <= 1.
Proof.
  intros Hn Hc.
  assert (Hpos : 0 < IZR nsim) by (now apply IZR_lt).
  assert (Hc' : INR c <= IZR nsim).
  { rewrite INR_IZR_INZ. apply IZR_le. lia. }
  pose proof (pos_INR c). split.
  - apply Rmult_le_pos; [assumption|]. apply Rlt_le. now apply Rinv_0_lt_compat.
  - apply Rmult_le_reg_r with (IZR nsim); [assumption|].
    unfold Rdiv. rewrite Rmult_assoc, Rinv_l by lra. lra.
Qed.

(** [fgt] is the strict order of the reals and is false on NaN. *)
Lemma fgt_spec (a b : float) :
  fgt a b = true <-> exists u v, a = Fin u /\ b = Fin v /\ v < u.
Proof.
  unfold fgt. split.
  - destruct a as [u|], b as [v|]; try discriminate.
    destruct (Rlt_dec v u); [eauto | discriminate].
  - intros (u & v & -> & -> & H). destruct (Rlt_dec v u); [reflexivity | contradiction].
Qed.

Lemma fgt_irrefl (a b : float) : a = b -> fgt a b = false.
Proof.
  intros ->. unfold fgt. destruct b as [v|]; [|reflexivity].
  destruct (Rlt_dec v v); [lra | reflexivity].
Qed.

(** On inputs of an even length a valid call returns. *)
Lemma ebisuzaki_even_returns (x y : list R) (level : pyfloat) (nsim i : Z)
    (seed : option seed_t) (w : world) :
  length x = length y -> (length x mod 2 = 0)%nat -> (2 <= length x)%nat ->
  (0 < nsim)%Z ->
  critical_index nsim level = Returns i -> (- nsim <= i < nsim)%Z ->
  exists res, snd (ebisuzaki x y level nsim seed w) = Returns res.
Proof.
  intros Hlen Hpar Hn Hnsim Hidx Hi.
  rewrite ebisuzaki_regular_run
    by (try assumption; try lia; now apply surrogate_even_exists).
  cbv zeta.
  match goal with
  | |- context [critical_value ?r level nsim] =>
      destruct (critical_value_in_range r level nsim i) as [cv Hcv]
  end.
  - rewrite length_correlations; unfold surrogates_x, surrogates_y;
      rewrite !length_map; [|reflexivity].
    apply drawn_phases_lengths.
  - lia.
  - assumption.
  - assumption.
  - rewrite Hcv. eexists. reflexivity.
Qed.

(** In every call with [nsim > 0] that returns, the first component [F] of
    the returned tuple is the number of entries of the returned surrogate
    array [rSim] whose absolute value is strictly larger than [|r_real|],
    divided by [nsim]; [rSim] has [nsim] entries; an entry whose absolute
    value equals [|r_real|] is not counted; and [F] lies in [0, 1].  On
    inputs of equal even length, with the index of the critical value inside
    the array, the call does return. *)
Lemma p_value_is_fraction_strictly_larger (x y : list R) (level : pyfloat)
    (nsim : Z) (seed : option seed_t) (w : world) :
  (0 < nsim)%Z ->
  (forall res, snd (ebisuzaki x y level nsim seed w) = Returns res ->
     exists (F : R) (rSim : list float) (r_real : float),
       res = [PyFloat (Fin F); PyArray rSim; PyFloat r_real]
       /\ length rSim = Z.to_nat nsim
       /\ F = INR (count_larger rSim r_real) / IZR nsim
       /\ (forall r, fabs r = fabs r_real -> fgt (fabs r) (fabs r_real) = false)
       /\ 0 <= F <= 1)
  /\ (length x = length y -> (length x mod 2 = 0)%nat -> (2 <= length x)%nat ->
      forall i, critical_index nsim level = Returns i ->
      (- nsim <= i < nsim)%Z ->
      exists res, snd (ebisuzaki x y level nsim seed w) = Returns res).
Proof.
  intros Hnsim. split.
  - intros res Hret.
    destruct (ebisuzaki_returns_inv _ _ _ _ _ _ _ Hret)
      as (rSim & cv & _ & _ & _ & Hl & _ & Hres & _).
    rewrite fraction_larger_value in Hres by assumption.
    eexists _, rSim, _. split; [exact Hres|].
    repeat split; try assumption.
    + intros r Hr. now apply fgt_irrefl.
    + apply fraction_in_unit_interval; [assumption|].
      rewrite <- Hl. apply count_larger_le.
    + apply fraction_in_unit_interval; [assumption|].
      rewrite <- Hl. apply count_larger_le.
  - intros. now apply (ebisuzaki_even_returns x y level nsim i).
Qed.

(** ** Parameters outside their documented range *)

Lemma ebisuzaki_zero_nsim (x y : list R) (level : double)
    (seed : option seed_t) (w : world) :
  length x = length y -> (0 < length x)%nat ->
  snd (ebisuzaki x y level 0 seed w) = Raises (IndexError msg_index).
Proof.
  intros Hlen Hpos. rewrite ebisuzaki_run by (assumption || lia). cbv zeta.
  cbn [range Z.to_nat seq for_each ret fst snd repeat].
  unfold surrogate_correlations.
  cbn [range Z.to_nat seq omap].
  rewrite (critical_value_out_of_range _ level 0 0);
    [reflexivity | reflexivity | lia | apply critical_index_no_simulation | lia].
Qed.




(** ** Inputs of odd length *)

(** C1 (the defect).  For five rows the odd branch builds a phase array of
    three entries from the one phase drawn, not of five, and a call on
    series of length five raises [ValueError] ("operands could not be
    broadcast together") in its first iteration. *)
Theorem odd_branch_phase_array_is_two_short (level : pyfloat)
    (seed : option seed_t) (w : world) :
  (forall phases, length phases = (5 / 2 - 1)%nat ->
     length (phases_full 5 phases) = 3%nat)
  /\ snd (ebisuzaki [1; 2; 3; 4; 5] [2; 1; 4; 3; 5] level 1 seed w)
     = Raises (ValueError msg_broadcast).
Proof.
  split.
  - intros phases Hp.
    rewrite (length_phases_full_odd 5 phases); [reflexivity | reflexivity | lia | exact Hp].
  - apply ebisuzaki_odd_raises; simpl; (reflexivity || lia).
Qed.

(** C4 (the defect).  The call below is valid - two non-constant series of
    equal length five, [nsim = 1000], [level = 0.05] - and returns no
    p-value: it raises [ValueError] in the first iteration of the loop, for
    the phase array of the odd branch is two entries short. *)
Theorem odd_length_returns_no_p_value (seed : option seed_t) (w : world) :
  nonconstant [3; 1; 4; 1; 5] /\ nonconstant [2; 7; 1; 8; 2]
  /\ (b64_lt (b64_of_int 0) level_default = true
      /\ b64_lt level_default (b64_of_int 1) = true)
  /\ snd (ebisuzaki [3; 1; 4; 1; 5] [2; 7; 1; 8; 2] level_default 1000 seed w)
     = Raises (ValueError msg_broadcast)
  /\ forall F rSim r_real,
       snd (ebisuzaki [3; 1; 4; 1; 5] [2; 7; 1; 8; 2] level_default 1000 seed w)
       <> Returns [PyFloat F; PyArray rSim; PyFloat r_real].
Proof.
  assert (Hraise : snd (ebisuzaki [3; 1; 4; 1; 5] [2; 7; 1; 8; 2] level_default
                          1000 seed w)
                   = Raises (ValueError msg_broadcast))
    by (apply ebisuzaki_odd_raises; simpl; (reflexivity || lia)).
  split; [exists 3, 1; simpl; repeat split; auto; lra|].
  split; [exists 2, 7; simpl; repeat split; auto; lra|].
  split; [split; reflexivity|]. split; [exact Hraise|].
  intros F rSim r_real. rewrite Hraise. discriminate.
Qed.

(** C8 (the defect).  On series of an odd length from five on, a call
    with [nsim > 0] returns no surrogate correlation array: it raises. *)
Theorem odd_length_returns_no_array (x y : list R) (level : pyfloat) (nsim : Z)
    (seed : option seed_t) (w : world) :
  length x = length y -> (length x mod 2 = 1)%nat -> (5 <= length x)%nat ->
  (0 < nsim)%Z ->
  forall res, snd (ebisuzaki x y level nsim seed w) <> Returns res.
Proof.
  intros Hlen Hpar Hn Hnsim res.
  rewrite ebisuzaki_odd_raises by (assumption || lia). discriminate.
Qed.

(** ** Sorting and the critical value *)

Lemma fle_sort_total (a b : float) : fle_sort a b = false -> fle_sort b a = true.
Proof.
  unfold fle_sort. destruct a as [u|], b as [v|]; try congruence.
  destruct (Rle_dec u v); [discriminate|]. intros _.
  destruct (Rle_dec v u); [reflexivity | lra].
Qed.

Lemma fle_sort_trans (a b c : float) :
  fle_sort a b = true -> fle_sort b c = true -> fle_sort a c = true.
Proof.
  unfold fle_sort. destruct a as [u|], b as [v|], c as [t|]; try congruence.
  destruct (Rle_dec u v), (Rle_dec v t), (Rle_dec u t);
    try congruence; lra.
Qed.

Lemma fle_sort_not_fgt (a b : float) : fle_sort a b = true -> fgt a b = false.
Proof.
  unfold fle_sort, fgt. destruct a as [u|], b as [v|]; try congruence.
  destruct (Rle_dec u v), (Rlt_dec v u); try congruence; lra.
Qed.

Lemma insert_sorted_perm (a : float) (l : list float) :
  Permutation (insert_sorted a l) (a :: l).
Proof.
  induction l as [|b l IH]; simpl; [reflexivity|].
  destruct (fle_sort a b); [reflexivity|].
  rewrite IH. apply perm_swap.
Qed.

Lemma np_sort_perm (l : list float) : Permutation (np_sort l) l.
Proof.
  induction l as [|a l IH]; simpl; [reflexivity|].
  rewrite insert_sorted_perm. now constructor.
Qed.

Lemma insert_sorted_ascending (a : float) (l : list float) :
  ascending l -> ascending (insert_sorted a l).
Proof.
  unfold ascending. induction l as [|b l IH]; intros Hs; simpl.
  - constructor; constructor.
  - destruct (fle_sort a b) eqn:E.
    + constructor; [assumption|].
      constructor; [assumption|].
      apply StronglySorted_inv in Hs. destruct Hs as [_ Hb].
      eapply Forall_impl; [|exact Hb]. intros c Hc.
      now apply (fle_sort_trans a b c).
    + apply StronglySorted_inv in Hs. destruct Hs as [Hs Hb].
      constructor; [now apply IH|].
      eapply Permutation_Forall; [symmetry; apply insert_sorted_perm|].
      constructor; [now apply fle_sort_total | assumption].
Qed.

Lemma np_sort_ascending (l : list float) : ascending (np_sort l).
Proof.
  induction l as [|a l IH]; simpl.
  - constructor.
  - now apply insert_sorted_ascending.
Qed.

(** In an ascending array at most the entries after position [i] are
    larger than entry [i]. *)
Lemma ascending_count_larger (l : list float) (i : nat) :
  ascending l -> (i < length l)%nat ->
  (length (filter (fun r => fgt r (nth i l NaN)) l) <= length l - 1 - i)%nat.
Proof.
  unfold ascending. revert i. induction l as [|a l IH]; intros i Hs Hi.
  - simpl in Hi. lia.
  - apply StronglySorted_inv in Hs. destruct Hs as [Hs Ha].
    destruct i as [|i]; cbn [nth filter].
    + rewrite (fgt_irrefl a a eq_refl).
      pose proof (filter_length_le (fun r => fgt r a) l). simpl. lia.
    + simpl in Hi.
      assert (Hle : fle_sort a (nth i l NaN) = true).
      { rewrite Forall_forall in Ha. apply Ha. apply nth_In. lia. }
      rewrite (fle_sort_not_fgt _ _ Hle).
      specialize (IH i Hs ltac:(lia)). simpl. lia.
Qed.

Lemma filter_length_perm {A : Type} (f : A -> bool) (l l' : list A) :
  Permutation l l' -> length (filter f l) = length (filter f l').
Proof.
  induction 1 as [|a l l' _ IH|a b l|l l' l'' _ IH1 _ IH2]; simpl.
  - reflexivity.
  - destruct (f a); simpl; now rewrite IH.
  - destruct (f a), (f b); reflexivity.
  - now rewrite IH1.
Qed.

Lemma filter_length_map {A B : Type} (f : B -> bool) (g : A -> B) (l : list A) :
  length (filter f (map g l)) = length (filter (fun a => f (g a)) l).
Proof.
  induction l as [|a l IH]; simpl; [reflexivity|].
  destruct (f (g a)); simpl; now rewrite IH.
Qed.

Lemma np_index_returns_inv (a : list float) (i : Z) (v : float) :
  np_index a i = Returns v ->
  (- Z.of_nat (length a) <= i < Z.of_nat (length a))%Z
  /\ v = nth (Z.to_nat (position (Z.of_nat (length a)) i)) a NaN.
Proof.
  unfold np_index, position. intros H.
  destruct ((0 <=? i) && (i <? Z.of_nat (length a)))%Z eqn:E1.
  - apply andb_true_iff in E1. rewrite Z.leb_le, Z.ltb_lt in E1.
    replace (i <? 0)%Z with false by (symmetry; apply Z.ltb_ge; lia).
    split; [lia | congruence].
  - destruct ((- Z.of_nat (length a) <=? i) && (i <? 0))%Z eqn:E2;
      [|discriminate].
    apply andb_true_iff in E2. rewrite Z.leb_le, Z.ltb_lt in E2.
    replace (i <? 0)%Z with true by (symmetry; apply Z.ltb_lt; lia).
    split; [lia | congruence].
Qed.

(** A critical value that was read, was read at the index the floats
    give, inside the array; at most the entries after that position are
    larger, so that no more than [nsim - 1 - position] of the surrogate
    correlations are larger in absolute value than the critical value. *)
Lemma critical_value_threshold (rSim : list float) (level : pyfloat) (nsim : Z)
    (cv : float) :
  length rSim = Z.to_nat nsim -> (0 <= nsim)%Z ->
  critical_value rSim level nsim = Returns cv ->
  exists i,
    critical_index nsim level = Returns i
    /\ (- nsim <= i < nsim)%Z
    /\ np_index (np_sort (map fabs rSim)) i = Returns cv
    /\ (Z.of_nat (length (filter (fun r => fgt (fabs r) cv) rSim))
        <= nsim - 1 - position nsim i)%Z.
Proof.
  intros Hl Hn Hcv. unfold critical_value in Hcv.
  destruct (critical_index nsim level) as [i|e]; [|discriminate].
  cbn [obind] in Hcv. exists i. split; [reflexivity|].
  destruct (np_index_returns_inv _ _ _ Hcv) as [Hi Hcv'].
  rewrite length_np_sort, length_map, Hl, Z2Nat.id in Hi, Hcv' by assumption.
  split; [assumption|]. split; [assumption|].
  rewrite <- (filter_length_map (fun v => fgt v cv) fabs rSim).
  rewrite <- (filter_length_perm _ _ _ (np_sort_perm (map fabs rSim))).
  rewrite Hcv'.
  pose proof (ascending_count_larger (np_sort (map fabs rSim))
                (Z.to_nat (position nsim i)) (np_sort_ascending _)) as Hc.
  rewrite length_np_sort, length_map, Hl in Hc.
  assert (Hp : (0 <= position nsim i < nsim)%Z).
  { unfold position. destruct (Z.ltb_spec i 0); lia. }
  specialize (Hc ltac:(lia)). lia.
Qed.

(** ** Arrays free of NaN *)

Lemma fsum_fin (l : list R) : fsum (map Fin l) = Fin (Rsum l).
Proof.
  unfold fsum, Rsum. induction l as [|a l IH]; simpl; [reflexivity|].
  now rewrite IH.
Qed.

Lemma fsqrt_fin (a : R) : 0 <= a -> fsqrt (Fin a) = Fin (sqrt a).
Proof.
  intros Ha. unfold fsqrt. destruct (Rlt_dec a 0); [lra | reflexivity].
Qed.

Lemma np_mean_fin (l : list R) :
  l <> [] -> np_mean (map Fin l) = Fin (Rmean l).
Proof.
  intros Hl. unfold np_mean, Rmean. rewrite fsum_fin, length_map.
  apply fdiv_fin. apply not_0_INR. destruct l; simpl; congruence.
Qed.

Lemma Rsum_squares_nonneg (f : R -> R) (l : list R) :
  0 <= Rsum (map (fun v => f v * f v) l).
Proof.
  unfold Rsum. induction l as [|a l IH]; simpl; [lra|]. nra.
Qed.

Lemma Rvar_nonneg (l : list R) : 0 <= Rvar l.
Proof.
  unfold Rvar, Rmean at 1. rewrite length_map.
  pose proof (Rsum_squares_nonneg (fun v => v - Rmean l) l) as H.
  destruct l as [|a l].
  - simpl. unfold Rdiv. rewrite Rinv_0. lra.
  - apply Rmult_le_pos; [exact H|].
    apply Rlt_le, Rinv_0_lt_compat. apply lt_0_INR. simpl. lia.
Qed.

Lemma np_std_fin (l : list R) :
  l <> [] -> np_std (map Fin l) = Fin (sqrt (Rvar l)).
Proof.
  intros Hl. unfold np_std. rewrite np_mean_fin by assumption.
  rewrite map_map. cbn [fsub fmul lift2].
  rewrite <- (map_map (fun v => (v - Rmean l) * (v - Rmean l)) Fin).
  rewrite np_mean_fin by (destruct l; simpl; congruence).
  apply fsqrt_fin. apply Rvar_nonneg.
Qed.

Lemma zscore_fin (l : list R) :
  Rvar l <> 0 -> zscore (map Fin l) = map Fin (Rzscore l).
Proof.
  intros Hv.
  assert (Hl : l <> []).
  { intros ->. apply Hv. unfold Rvar, Rmean. simpl. unfold Rdiv. rewrite Rinv_0. ring. }
  unfold zscore, Rzscore. rewrite np_mean_fin, np_std_fin by assumption.
  rewrite !map_map. apply map_ext. intros v. cbn [fsub lift2].
  apply fdiv_fin. intros Hs. apply sqrt_eq_0 in Hs; [contradiction|apply Rvar_nonneg].
Qed.

Lemma combine_map_fin (x y : list R) :
  combine (map Fin x) (map Fin y)
  = map (fun p => (Fin (fst p), Fin (snd p))) (combine x y).
Proof.
  revert y. induction x as [|a x IH]; intros y; simpl; [reflexivity|].
  destruct y as [|b y]; simpl; [reflexivity|]. now rewrite IH.
Qed.

Lemma np_cov_fin (x y : list R) :
  (2 <= length x)%nat -> (2 <= length y)%nat ->
  np_cov (map Fin x) (map Fin y) = Fin (Rcov x y).
Proof.
  intros Hx Hy. unfold np_cov, Rcov.
  rewrite !np_mean_fin by (intros ->; simpl in *; lia).
  rewrite combine_map_fin, map_map. cbn [fst snd fsub fmul lift2].
  rewrite <- (map_map (fun p => (fst p - Rmean x) * (snd p - Rmean y)) Fin).
  rewrite fsum_fin, length_map.
  replace (length x <=? 1)%nat with false by (symmetry; apply Nat.leb_gt; lia).
  rewrite fdiv_fin; [reflexivity|].
  assert (2 <= INR (length x)) by (apply (le_INR 2); lia). lra.
Qed.

Lemma pearson_fin (x y : list R) :
  (2 <= length x)%nat -> (2 <= length y)%nat ->
  0 < Rcov x x -> 0 < Rcov y y ->
  pearson (map Fin x) (map Fin y) = Fin (Rpearson x y).
Proof.
  intros Hx Hy Hvx Hvy. unfold pearson, Rpearson.
  rewrite !np_cov_fin by assumption.
  rewrite !fsqrt_fin by lra.
  assert (sqrt (Rcov x x) <> 0) by (apply Rgt_not_eq, sqrt_lt_R0; lra).
  assert (sqrt (Rcov y y) <> 0) by (apply Rgt_not_eq, sqrt_lt_R0; lra).
  rewrite !fdiv_fin by assumption. reflexivity.
Qed.

Lemma Rclip_bounds (x : R) : -1 <= Rclip (-1) 1 x <= 1.
Proof.
  unfold Rclip. destruct (Rlt_dec x (-1)); [lra|].
  destruct (Rlt_dec 1 x); lra.
Qed.

(** *** Complex arithmetic *)

Lemma cadd_fin (a b : C) : cadd (cfin a) (cfin b) = cfin (Cadd a b).
Proof. reflexivity. Qed.

Lemma cmul_fin (a b : C) : cmul (cfin a) (cfin b) = cfin (Cmul a b).
Proof. reflexivity. Qed.

Lemma np_exp_1j_fin (t : R) : np_exp_1j (Fin t) = cfin (Cexp t).
Proof. reflexivity. Qed.

Lemma of_real_fin (v : R) : of_real (Fin v) = cfin (v, 0).
Proof. reflexivity. Qed.

Lemma csum_fin (f : nat -> C) (n : nat) :
  csum (fun m => cfin (f m)) n = cfin (Csum f n).
Proof.
  induction n as [|n IH]; simpl; [reflexivity|]. now rewrite IH.
Qed.

Lemma csum_ext (f g : nat -> complex) (n : nat) :
  (forall m, (m < n)%nat -> f m = g m) -> csum f n = csum g n.
Proof.
  intros H. induction n as [|n IH]; simpl; [reflexivity|].
  rewrite IH by (intros; apply H; lia). now rewrite H by lia.
Qed.

Lemma dft_fin (sgn : R) (a : list C) :
  dft sgn (map cfin a) = map cfin (Cdft sgn a).
Proof.
  unfold dft, Cdft. rewrite length_map, map_map. apply map_ext. intros k.
  rewrite <- csum_fin. apply csum_ext. intros m _.
  change (of_real (Fin 0)) with (cfin (0, 0)). now rewrite map_nth.
Qed.

Lemma np_abs_fin (z : C) : np_abs (cfin z) = Fin (Cabs z).
Proof.
  unfold np_abs, Cabs. cbn [cfin re im fmul fadd lift2].
  apply fsqrt_fin. nra.
Qed.

Lemma magnitudes_fin (z : list R) :
  magnitudes (map Fin z) = map Fin (Rmagnitudes z).
Proof.
  unfold magnitudes, Rmagnitudes.
  rewrite map_map.
  rewrite <- (map_map (fun v => (v, 0)) cfin), dft_fin, !map_map.
  apply map_ext. intros v. apply np_abs_fin.
Qed.

Lemma recf_fin (m t : list R) :
  recf (map Fin m) (map Fin t) = map cfin (Crecf m t).
Proof.
  unfold recf, Crecf. rewrite map_map.
  replace (combine (map Fin m) (map (fun x => np_exp_1j (Fin x)) t))
    with (map (fun p => (Fin (fst p), np_exp_1j (Fin (snd p)))) (combine m t)).
  - rewrite !map_map. reflexivity.
  - revert t. induction m as [|a m IH]; intros t; simpl; [reflexivity|].
    destruct t as [|b t]; simpl; [reflexivity|]. now rewrite IH.
Qed.

Lemma real_ifft_fin (a : list C) :
  a <> [] -> real_ifft (map cfin a) = map Fin (Rreal_ifft a).
Proof.
  intros Ha. unfold real_ifft, Rreal_ifft.
  rewrite dft_fin, length_map, !map_map. apply map_ext. intros z.
  cbn [cdiv_real np_real cfin re].
  apply fdiv_fin. apply not_0_INR. destruct a; simpl; congruence.
Qed.

Lemma phases_full_fin (n : nat) (p : list R) :
  phases_full n (map Fin p) = map Fin (Rphases_full n p).
Proof.
  unfold phases_full, Rphases_full.
  destruct (n mod 2 =? 0)%nat;
    rewrite !map_app, <- !map_rev, !map_map; reflexivity.
Qed.

(** ** Series of two points *)

Ltac entrywise :=
  repeat first [ apply (f_equal2 (@cons C)) | apply (f_equal2 (@cons R))
               | apply (f_equal2 (@pair R R)) ];
  try reflexivity.

Lemma Cdft_two (sgn : R) (za zb : C) :
  sgn = 1 \/ sgn = -1 ->
  Cdft sgn [za; zb] = [Cadd za zb; Cadd za (Cscale (-1) zb)].
Proof.
  intros Hs. unfold Cdft. cbn [length seq map Csum nth].
  unfold angle. cbn [INR].
  replace (sgn * (2 * PI * 0 * 0 / (1 + 1))) with 0 by (field).
  replace (sgn * (2 * PI * 1 * 0 / (1 + 1))) with 0 by (field).
  replace (sgn * (2 * PI * 0 * 1 / (1 + 1))) with 0 by (field).
  assert (Hc : Cexp (sgn * (2 * PI * 1 * 1 / (1 + 1))) = (-1, 0)).
  { unfold Cexp. destruct Hs as [-> | ->].
    - replace (1 * (2 * PI * 1 * 1 / (1 + 1))) with PI by field.
      now rewrite cos_PI, sin_PI.
    - replace (-1 * (2 * PI * 1 * 1 / (1 + 1))) with (- PI) by field.
      rewrite cos_neg, sin_neg, cos_PI, sin_PI. f_equal; ring. }
  rewrite Hc. unfold Cexp. rewrite cos_0, sin_0.
  destruct za as [a1 a2], zb as [b1 b2]. unfold Cadd, Cmul, Cscale. cbn [fst snd].
  entrywise; ring.
Qed.

Lemma Rmagnitudes_two (a b : R) :
  Rmagnitudes [a; b] = [Rabs (a + b); Rabs (a - b)].
Proof.
  unfold Rmagnitudes. cbn [map]. rewrite Cdft_two by (right; reflexivity).
  unfold Cabs, Cadd, Cscale. cbn [map fst snd].
  entrywise.
  - replace ((a + b) * (a + b) + (0 + 0) * (0 + 0)) with ((a + b)²) by (unfold Rsqr; ring).
    apply sqrt_Rsqr_abs.
  - replace ((a + -1 * b) * (a + -1 * b) + (0 + -1 * 0) * (0 + -1 * 0)) with ((a - b)²) by (unfold Rsqr; ring).
    apply sqrt_Rsqr_abs.
Qed.

Lemma Rsurrogate_two (r0 r1 : R) :
  Rreal_ifft (Crecf [r0; r1] (Rphases_full 2 [])) = [(r0 + r1) / 2; (r0 - r1) / 2].
Proof.
  unfold Rphases_full. cbn [Nat.modulo Nat.divmod fst snd Nat.eqb Nat.sub app rev map].
  unfold Crecf. cbn [combine map fst snd].
  unfold Rreal_ifft. rewrite Cdft_two by (left; reflexivity).
  unfold Cexp. rewrite cos_0, sin_0.
  unfold Cadd, Cmul, Cscale. cbn [map fst snd length INR].
  entrywise; field.
Qed.

Lemma Rzscore_down_up : Rzscore [-1; 1] = [-1; 1].
Proof.
  unfold Rzscore.
  assert (Hm : Rmean [-1; 1] = 0) by (unfold Rmean, Rsum; simpl; field).
  assert (Hv : Rvar [-1; 1] = 1).
  { unfold Rvar. rewrite Hm. unfold Rmean, Rsum. simpl. field. }
  rewrite Hm, Hv, sqrt_1. simpl. entrywise; field.
Qed.

Lemma Rzscore_up_down : Rzscore [1; -1] = [1; -1].
Proof.
  unfold Rzscore.
  assert (Hm : Rmean [1; -1] = 0) by (unfold Rmean, Rsum; simpl; field).
  assert (Hv : Rvar [1; -1] = 1).
  { unfold Rvar. rewrite Hm. unfold Rmean, Rsum. simpl. field. }
  rewrite Hm, Hv, sqrt_1. simpl. entrywise; field.
Qed.

Lemma Rvar_down_up : Rvar [-1; 1] = 1.
Proof.
  assert (Hm : Rmean [-1; 1] = 0) by (unfold Rmean, Rsum; simpl; field).
  unfold Rvar. rewrite Hm. unfold Rmean, Rsum. simpl. field.
Qed.

Lemma Rvar_up_down : Rvar [1; -1] = 1.
Proof.
  assert (Hm : Rmean [1; -1] = 0) by (unfold Rmean, Rsum; simpl; field).
  unfold Rvar. rewrite Hm. unfold Rmean, Rsum. simpl. field.
Qed.

Lemma Rcov_two (a b c d : R) :
  Rcov [a; b] [c; d] = (a - b) * (c - d) / 2.
Proof. unfold Rcov, Rmean, Rsum. simpl. field. Qed.

Lemma Rpearson_two_same : Rpearson [1; -1] [1; -1] = 1.
Proof.
  unfold Rpearson. rewrite !Rcov_two.
  replace ((1 - -1) * (1 - -1) / 2) with 2 by field.
  replace (2 / sqrt 2 / sqrt 2) with 1.
  - unfold Rclip. destruct (Rlt_dec 1 (-1)); [lra|].
    destruct (Rlt_dec 1 1); lra.
  - assert (H : sqrt 2 * sqrt 2 = 2) by (apply sqrt_sqrt; lra).
    assert (sqrt 2 <> 0) by (intros E; rewrite E in H; lra).
    field_simplify; [|assumption]. rewrite <- H at 1. field. assumption.
Qed.

Lemma Rpearson_two_opposite : Rpearson [-1; 1] [1; -1] = -1.
Proof.
  unfold Rpearson. rewrite !Rcov_two.
  replace ((-1 - 1) * (1 - -1) / 2) with (-2) by field.
  replace ((-1 - 1) * (-1 - 1) / 2) with 2 by field.
  replace ((1 - -1) * (1 - -1) / 2) with 2 by field.
  replace (-2 / sqrt 2 / sqrt 2) with (-1).
  - unfold Rclip. destruct (Rlt_dec (-1) (-1)); [lra|].
    destruct (Rlt_dec 1 (-1)); lra.
  - assert (H : sqrt 2 * sqrt 2 = 2) by (apply sqrt_sqrt; lra).
    assert (sqrt 2 <> 0) by (intros E; rewrite E in H; lra).
    apply Rmult_eq_reg_r with (sqrt 2 * sqrt 2); [|nra].
    field_simplify; [|assumption]. lra.
Qed.

Lemma surrogate_of_fin (n : nat) (m p : list R) :
  (n mod 2 = 0)%nat -> (2 <= n)%nat ->
  length m = n -> length p = (n / 2 - 1)%nat ->
  surrogate_of n (map Fin m) (map Fin p)
  = map Fin (Rreal_ifft (Crecf m (Rphases_full n p))).
Proof.
  intros Hpar Hn Hm Hp. unfold surrogate_of.
  destruct (surrogate_even n (map Fin m) (map Fin p) Hpar Hn) as [Hs _];
    try (now rewrite length_map).
  rewrite Hs, phases_full_fin, recf_fin.
  apply real_ifft_fin.
  apply length_nonempty. unfold Crecf.
  rewrite length_map, length_combine, Hm.
  assert (Hf : length (Rphases_full n p) = n).
  { pose proof (length_phases_full_even n (map Fin p) Hpar Hn) as H.
    rewrite phases_full_fin, !length_map in H. now apply H. }
  rewrite Hf. lia.
Qed.

Lemma surrogate_of_two (r0 r1 : R) :
  surrogate_of 2 [Fin r0; Fin r1] [] = [Fin ((r0 + r1) / 2); Fin ((r0 - r1) / 2)].
Proof.
  change [Fin r0; Fin r1] with (map Fin [r0; r1]).
  change (@nil float) with (map Fin []).
  rewrite surrogate_of_fin by (reflexivity || (simpl; lia)).
  now rewrite Rsurrogate_two.
Qed.

Lemma pearson_down_up_vs_up_down :
  pearson [Fin (-1); Fin 1] [Fin 1; Fin (-1)] = Fin (-1).
Proof.
  change [Fin (-1); Fin 1] with (map Fin [-1; 1]).
  change [Fin 1; Fin (-1)] with (map Fin [1; -1]).
  rewrite pearson_fin by (simpl; try lia; rewrite Rcov_two; lra).
  now rewrite Rpearson_two_opposite.
Qed.

Lemma pearson_up_down_twice :
  pearson (zscore [Fin 1; Fin (-1)]) (zscore [Fin 1; Fin (-1)]) = Fin 1.
Proof.
  change [Fin 1; Fin (-1)] with (map Fin [1; -1]).
  rewrite zscore_fin by (rewrite Rvar_up_down; lra).
  rewrite Rzscore_up_down.
  rewrite pearson_fin by (simpl; try lia; rewrite Rcov_two; lra).
  now rewrite Rpearson_two_same.
Qed.

Lemma critical_value_single :
  critical_value [Fin 1] level_half 1 = Returns (Fin 1).
Proof.
  unfold critical_value.
  replace (critical_index 1 level_half) with (Returns (A := Z) 0%Z)
    by (vm_compute; reflexivity).
  cbn. now rewrite Rabs_R1.
Qed.

Lemma fraction_larger_tie : fraction_larger [Fin 1] (Fin (-1)) 1 = Fin 0.
Proof.
  unfold fraction_larger. cbn [map fabs lift1 fgt].
  rewrite Rabs_R1. replace (Rabs (-1)) with 1 by (rewrite Rabs_left; lra).
  destruct (Rlt_dec 1 1); [lra|].
  cbn [np_sum filter length INR].
  rewrite fdiv_fin by lra. f_equal. field.
Qed.

(** ** What is returned and what is printed *)

(** C2 (as the code has it).  A call that returns has sorted the absolute
    surrogate correlations in ascending order and taken as critical value
    the entry at index [int(nsim * (1 - level))], computed in binary64, which
    lies inside the array; no more than [nsim - 1 - position] of the
    surrogate correlations are larger in absolute value, [position] being
    the place of that entry counted from the start.  The critical value is
    printed, on the third line of the report.  The tuple returned is
    [(F, rSim, r_real)]: it has no component for the critical value. *)
Theorem critical_value_is_printed (x y : list R) (level : pyfloat) (nsim : Z)
    (seed : option seed_t) (w : world) (res : list pyval) :
  snd (ebisuzaki x y level nsim seed w) = Returns res ->
  exists (F : float) (rSim : list float) (r_real cv : float) (i : Z),
    res = [PyFloat F; PyArray rSim; PyFloat r_real]
    /\ ascending (np_sort (map fabs rSim))
    /\ Permutation (np_sort (map fabs rSim)) (map fabs rSim)
    /\ critical_index nsim level = Returns i
    /\ (- nsim <= i < nsim)%Z
    /\ np_index (np_sort (map fabs rSim)) i = Returns cv
    /\ (Z.of_nat (length (filter (fun r => fgt (fabs r) cv) rSim))
        <= nsim - 1 - position nsim i)%Z
    /\ stdout (fst (ebisuzaki x y level nsim seed w))
       = stdout w ++ [Rule; Observed r_real; Critical cv; Fraction F].
Proof.
  intros Hret.
  destruct (ebisuzaki_returns_inv _ _ _ _ _ _ _ Hret)
    as (rSim & cv & _ & _ & Hn & Hl & Hcv & Hres & Hout).
  destruct (critical_value_threshold rSim level nsim cv Hl Hn Hcv)
    as (i & Hidx & Hi & Hnth & Hcount).
  eexists _, rSim, _, cv, i. split; [exact Hres|].
  split; [apply np_sort_ascending|].
  split; [apply np_sort_perm|].
  repeat (split; [assumption|]). exact Hout.
Qed.

(** ** Constant series: NaN spreads, nothing is raised *)

Lemma Rsum_all_equal (l : list R) (c : R) :
  (forall v, In v l -> v = c) -> Rsum l = INR (length l) * c.
Proof.
  unfold Rsum. induction l as [|a l IH]; intros H.
  - simpl. ring.
  - cbn [fold_right length]. rewrite IH by (intros; apply H; now right).
    rewrite (H a) by now left. rewrite S_INR. ring.
Qed.

Lemma Rvar_constant (l : list R) : constant l -> Rvar l = 0.
Proof.
  intros Hc. destruct l as [|c l].
  - unfold Rvar, Rmean. simpl. unfold Rdiv. rewrite Rinv_0. ring.
  - assert (Hall : forall v, In v (c :: l) -> v = c)
      by (intros v Hv; apply Hc; [assumption | now left]).
    assert (Hm : Rmean (c :: l) = c).
    { unfold Rmean. rewrite (Rsum_all_equal _ c Hall). field.
      apply not_0_INR. simpl. lia. }
    unfold Rvar. rewrite Hm. unfold Rmean.
    rewrite (Rsum_all_equal _ 0).
    + rewrite length_map. field. apply not_0_INR. simpl. lia.
    + intros v Hv. apply in_map_iff in Hv. destruct Hv as (u & <- & Hu).
      rewrite (Hall u Hu). ring.
Qed.

Lemma zscore_constant (l : list R) :
  constant l -> l <> [] -> zscore (map Fin l) = repeat NaN (length l).
Proof.
  intros Hc Hl. unfold zscore.
  rewrite np_std_fin by assumption.
  rewrite (Rvar_constant l Hc), sqrt_0.
  rewrite <- (length_map Fin l).
  generalize (np_mean (map Fin l)). intros m.
  induction (map Fin l) as [|a t IH]; simpl; [reflexivity|].
  now rewrite fdiv_zero, IH.
Qed.

Lemma fadd_nan_r (a : float) : fadd a NaN = NaN.
Proof. now destruct a. Qed.


Lemma fmul_nan_r (a : float) : fmul a NaN = NaN.
Proof. now destruct a. Qed.

Lemma fsum_nan (l : list float) : In NaN l -> fsum l = NaN.
Proof.
  unfold fsum. induction l as [|a l IH]; intros H; [contradiction|].
  simpl. destruct H as [->|H]; [reflexivity|].
  rewrite IH by assumption. apply fadd_nan_r.
Qed.






Lemma map_all_equal {A B : Type} (f : A -> B) (c : B) (l : list A) :
  (forall a, In a l -> f a = c) -> map f l = repeat c (length l).
Proof.
  induction l as [|a l IH]; intros H; simpl; [reflexivity|].
  rewrite H by (now left). rewrite IH by (intros; apply H; now right).
  reflexivity.
Qed.














(** * The magnitude spectrum of a surrogate *)

(** ** Sums of complex numbers *)

Ltac complex_ring :=
  apply injective_projections;
  unfold Cadd, Cmul, Cscale, Cconj; cbn [fst snd]; ring.

Lemma Cadd_0_l (a : C) : Cadd (0, 0) a = a.
Proof. destruct a. complex_ring. Qed.

Lemma Csum_ext (f g : nat -> C) (n : nat) :
  (forall m, (m < n)%nat -> f m = g m) -> Csum f n = Csum g n.
Proof.
  intros H. induction n as [|n IH]; simpl; [reflexivity|].
  rewrite IH by (intros; apply H; lia). now rewrite H by lia.
Qed.

Lemma Csum_add (f g : nat -> C) (n : nat) :
  Csum (fun m => Cadd (f m) (g m)) n = Cadd (Csum f n) (Csum g n).
Proof.
  induction n as [|n IH]; simpl; [complex_ring|]. rewrite IH. complex_ring.
Qed.

Lemma Csum_mul_r (f : nat -> C) (c : C) (n : nat) :
  Csum (fun m => Cmul (f m) c) n = Cmul (Csum f n) c.
Proof.
  induction n as [|n IH]; simpl; [complex_ring|]. rewrite IH. complex_ring.
Qed.

Lemma Csum_mul_l (f : nat -> C) (c : C) (n : nat) :
  Csum (fun m => Cmul c (f m)) n = Cmul c (Csum f n).
Proof.
  induction n as [|n IH]; simpl; [complex_ring|]. rewrite IH. complex_ring.
Qed.

Lemma Csum_scale (f : nat -> C) (r : R) (n : nat) :
  Csum (fun m => Cscale r (f m)) n = Cscale r (Csum f n).
Proof.
  induction n as [|n IH]; simpl; [complex_ring|]. rewrite IH. complex_ring.
Qed.

Lemma Csum_conj (f : nat -> C) (n : nat) :
  Csum (fun m => Cconj (f m)) n = Cconj (Csum f n).
Proof.
  induction n as [|n IH]; simpl; [complex_ring|]. rewrite IH. complex_ring.
Qed.

Lemma Csum_zero (n : nat) : Csum (fun _ => (0, 0)) n = (0, 0).
Proof. induction n as [|n IH]; simpl; [reflexivity|]. rewrite IH. complex_ring. Qed.

Lemma Csum_swap (f : nat -> nat -> C) (n1 n2 : nat) :
  Csum (fun m => Csum (fun k => f m k) n2) n1
  = Csum (fun k => Csum (fun m => f m k) n1) n2.
Proof.
  induction n1 as [|n1 IH]; simpl.
  - now rewrite Csum_zero.
  - rewrite IH. now rewrite <- Csum_add.
Qed.

(** A sum with a single non-zero term. *)
Lemma Csum_single (f : nat -> C) (n k0 : nat) :
  (k0 < n)%nat -> (forall k, (k < n)%nat -> k <> k0 -> f k = (0, 0)) ->
  Csum f n = f k0.
Proof.
  induction n as [|n IH]; intros Hk H; [lia|]. simpl.
  destruct (Nat.eq_dec k0 n) as [->|Hne].
  - rewrite (Csum_ext f (fun _ => (0, 0))) by (intros; apply H; lia).
    rewrite Csum_zero. apply Cadd_0_l.
  - rewrite IH by (try lia; intros; apply H; lia).
    rewrite (H n) by lia. complex_ring.
Qed.

(** ** The exponential *)

Lemma Cexp_add (a b : R) : Cexp (a + b) = Cmul (Cexp a) (Cexp b).
Proof.
  unfold Cexp, Cmul. cbn [fst snd]. rewrite cos_plus, sin_plus.
  apply (f_equal2 (@pair R R)); ring.
Qed.

Lemma Cexp_0 : Cexp 0 = (1, 0).
Proof. unfold Cexp. now rewrite cos_0, sin_0. Qed.

Lemma Cexp_conj (a : R) : Cconj (Cexp a) = Cexp (- a).
Proof. unfold Cexp, Cconj. cbn [fst snd]. now rewrite cos_neg, sin_neg. Qed.

Lemma Cexp_period_nat (a : R) (k : nat) : Cexp (a + 2 * INR k * PI) = Cexp a.
Proof. unfold Cexp. now rewrite cos_period, sin_period. Qed.

Lemma Cexp_period (a : R) (k : Z) : Cexp (a + 2 * IZR k * PI) = Cexp a.
Proof.
  destruct (Z_le_gt_dec 0 k) as [Hk|Hk].
  - rewrite <- (Z2Nat.id k Hk), <- INR_IZR_INZ. apply Cexp_period_nat.
  - rewrite <- (Cexp_period_nat (a + 2 * IZR k * PI) (Z.to_nat (- k))).
    f_equal. rewrite INR_IZR_INZ, Z2Nat.id by lia. rewrite opp_IZR. ring.
Qed.

Lemma Cexp_abs (a : R) : fst (Cexp a) * fst (Cexp a) + snd (Cexp a) * snd (Cexp a) = 1.
Proof.
  unfold Cexp. cbn [fst snd]. pose proof (sin2_cos2 a) as H. unfold Rsqr in H. lra.
Qed.

(** [exp(i t) = 1] leaves only the multiples of [2 pi]. *)
Lemma Cexp_not_one (t : R) : 0 < t < 2 * PI -> Cexp t <> (1, 0).
Proof.
  intros Ht H. unfold Cexp in H. injection H as Hc Hs.
  destruct (sin_eq_O_2PI_0 t) as [E|[E|E]]; try lra.
  rewrite E, cos_PI in Hc. lra.
Qed.

(** ** The geometric sum of a root of unity *)

Lemma Csum_geometric (t : R) (n : nat) :
  Cmul (Cadd (1, 0) (Cscale (-1) (Cexp t))) (Csum (fun m => Cexp (INR m * t)) n)
  = Cadd (1, 0) (Cscale (-1) (Cexp (INR n * t))).
Proof.
  induction n as [|n IH].
  - simpl. rewrite Rmult_0_l, Cexp_0. complex_ring.
  - cbn [Csum].
    replace (Cmul (Cadd (1, 0) (Cscale (-1) (Cexp t)))
               (Cadd (Csum (fun m => Cexp (INR m * t)) n) (Cexp (INR n * t))))
      with (Cadd (Cmul (Cadd (1, 0) (Cscale (-1) (Cexp t)))
                       (Csum (fun m => Cexp (INR m * t)) n))
                 (Cmul (Cadd (1, 0) (Cscale (-1) (Cexp t))) (Cexp (INR n * t))))
      by complex_ring.
    rewrite IH. rewrite S_INR.
    replace ((INR n + 1) * t) with (INR n * t + t) by ring.
    rewrite Cexp_add. complex_ring.
Qed.

Lemma Cmul_zero_l (a b : C) : Cmul a b = (0, 0) -> a <> (0, 0) -> b = (0, 0).
Proof.
  destruct a as [a1 a2], b as [b1 b2]. unfold Cmul. cbn [fst snd].
  intros H Ha. injection H as H1 H2.
  assert (Hn : a1 * a1 + a2 * a2 <> 0).
  { intros E. apply Ha. f_equal; nra. }
  assert (E1 : (a1 * a1 + a2 * a2) * b1 = 0).
  { replace ((a1 * a1 + a2 * a2) * b1)
      with (a1 * (a1 * b1 - a2 * b2) + a2 * (a1 * b2 + a2 * b1)) by ring.
    rewrite H1, H2. ring. }
  assert (E2 : (a1 * a1 + a2 * a2) * b2 = 0).
  { replace ((a1 * a1 + a2 * a2) * b2)
      with (a1 * (a1 * b2 + a2 * b1) - a2 * (a1 * b1 - a2 * b2)) by ring.
    rewrite H1, H2. ring. }
  apply Rmult_integral in E1. apply Rmult_integral in E2.
  f_equal; tauto.
Qed.

Lemma Csum_const (c : C) (n : nat) :
  Csum (fun _ => c) n = Cscale (INR n) c.
Proof.
  induction n as [|n IH]; [simpl; complex_ring|].
  cbn [Csum]. rewrite IH, S_INR. complex_ring.
Qed.

(** The [n]-th roots of unity sum to zero, unless they are all one. *)
Lemma roots_of_unity_sum (n : nat) (d : Z) :
  (1 <= n)%nat ->
  Csum (fun m => Cexp (INR m * (2 * PI * IZR d / INR n))) n
  = if (d mod Z.of_nat n =? 0)%Z then (INR n, 0) else (0, 0).
Proof.
  intros Hn.
  assert (Hn0 : INR n <> 0) by (apply not_0_INR; lia).
  pose proof (Z.div_mod d (Z.of_nat n) ltac:(lia)) as Hd.
  pose proof (Z.mod_pos_bound d (Z.of_nat n) ltac:(lia)) as Hr.
  set (q := (d / Z.of_nat n)%Z) in *. set (r := (d mod Z.of_nat n)%Z) in *.
  assert (Hsplit : forall m : nat,
            INR m * (2 * PI * IZR d / INR n)
            = INR m * (2 * PI * IZR r / INR n) + 2 * IZR (Z.of_nat m * q) * PI).
  { intros m. rewrite Hd, plus_IZR, !mult_IZR, <- !INR_IZR_INZ. field. exact Hn0. }
  rewrite (Csum_ext _ (fun m => Cexp (INR m * (2 * PI * IZR r / INR n))))
    by (intros m _; rewrite Hsplit; apply Cexp_period).
  destruct (r =? 0)%Z eqn:E.
  - apply Z.eqb_eq in E. rewrite E.
    rewrite (Csum_ext _ (fun _ => (1, 0))).
    + rewrite Csum_const. complex_ring.
    + intros m _. rewrite <- Cexp_0. f_equal. unfold Rdiv. ring.
  - apply Z.eqb_neq in E.
    apply (Cmul_zero_l (Cadd (1, 0) (Cscale (-1) (Cexp (2 * PI * IZR r / INR n))))).
    + rewrite Csum_geometric.
      replace (INR n * (2 * PI * IZR r / INR n)) with (0 + 2 * IZR r * PI)
        by (field; exact Hn0).
      rewrite Cexp_period, Cexp_0. complex_ring.
    + intros H.
      apply (Cexp_not_one (2 * PI * IZR r / INR n)).
      * assert (H0 : 0 < IZR r) by (apply (IZR_lt 0); lia).
        assert (H1 : IZR r < INR n) by (rewrite INR_IZR_INZ; apply IZR_lt; lia).
        assert (Hp : 0 < INR n) by (apply lt_0_INR; lia).
        pose proof PI_RGT_0 as Hpi.
        split.
        -- apply Rmult_lt_0_compat; [nra | now apply Rinv_0_lt_compat].
        -- apply Rmult_lt_reg_r with (INR n); [assumption|].
           unfold Rdiv. rewrite Rmult_assoc, Rinv_l by assumption. nra.
      * apply injective_projections.
        -- apply (f_equal fst) in H. unfold Cadd, Cscale in H. cbn [fst snd] in *. lra.
        -- apply (f_equal snd) in H. unfold Cadd, Cscale in H. cbn [fst snd] in *. lra.
Qed.

Lemma mirror_index (n j : nat) :
  (j < n)%nat -> ((n - j) mod n = if (j =? 0)%nat then 0 else n - j)%nat.
Proof.
  intros Hj. destruct (j =? 0)%nat eqn:E.
  - apply Nat.eqb_eq in E. subst j. rewrite Nat.sub_0_r. apply Nat.Div0.mod_same.
  - apply Nat.eqb_neq in E. apply Nat.mod_small. lia.
Qed.

Lemma mirror_index_lt (n j : nat) : (j < n)%nat -> ((n - j) mod n < n)%nat.
Proof. intros Hj. apply Nat.mod_upper_bound. lia. Qed.

Lemma mirror_index_twice (n j : nat) :
  (j < n)%nat -> ((n - (n - j) mod n) mod n = j)%nat.
Proof.
  intros Hj. rewrite (mirror_index n j Hj).
  destruct (j =? 0)%nat eqn:E.
  - apply Nat.eqb_eq in E. subst j. rewrite Nat.sub_0_r. apply Nat.Div0.mod_same.
  - apply Nat.eqb_neq in E. rewrite Nat.mod_small by lia. lia.
Qed.

Lemma small_multiple (n d c : Z) :
  (- n < d < n)%Z -> d = (c * n)%Z -> d = 0%Z.
Proof.
  intros Hd Hc.
  assert (Hcases : (c <= -1 \/ c = 0 \/ 1 <= c)%Z) by lia.
  destruct Hcases as [H|[H|H]]; [nia | subst; lia | nia].
Qed.

(** The kernel of the forward transform is orthogonal to that of the
    inverse transform ... *)
Lemma kernel_orthogonal (n k j : nat) :
  (k < n)%nat -> (j < n)%nat ->
  Csum (fun m => Cmul (Cexp (1 * angle n m k)) (Cexp (-1 * angle n m j))) n
  = if (k =? j)%nat then (INR n, 0) else (0, 0).
Proof.
  intros Hk Hj.
  assert (Hn0 : INR n <> 0) by (apply not_0_INR; lia).
  rewrite (Csum_ext _ (fun m => Cexp (INR m * (2 * PI * IZR (Z.of_nat k - Z.of_nat j) / INR n)))).
  - rewrite roots_of_unity_sum by lia.
    destruct (k =? j)%nat eqn:E.
    + apply Nat.eqb_eq in E. subst j. rewrite Z.sub_diag, Z.mod_0_l by lia.
      reflexivity.
    + apply Nat.eqb_neq in E.
      replace ((Z.of_nat k - Z.of_nat j) mod Z.of_nat n =? 0)%Z with false;
        [reflexivity|].
      symmetry. apply Z.eqb_neq. intros H.
      apply Z.mod_divide in H; [|lia]. destruct H as [c Hc].
      apply small_multiple in Hc; lia.
  - intros m _. rewrite <- Cexp_add. f_equal. unfold angle.
    rewrite minus_IZR, <- !INR_IZR_INZ. field. exact Hn0.
Qed.

(** ... and to its own conjugate except at the mirrored index. *)
Lemma kernel_mirror (n k j : nat) :
  (k < n)%nat -> (j < n)%nat ->
  Csum (fun m => Cmul (Cexp (-1 * angle n m k)) (Cexp (-1 * angle n m j))) n
  = if (k =? (n - j) mod n)%nat then (INR n, 0) else (0, 0).
Proof.
  intros Hk Hj.
  assert (Hn0 : INR n <> 0) by (apply not_0_INR; lia).
  rewrite (Csum_ext _ (fun m => Cexp (INR m * (2 * PI * IZR (- Z.of_nat k - Z.of_nat j) / INR n)))).
  - rewrite roots_of_unity_sum by lia.
    rewrite (mirror_index n j Hj).
    destruct (k =? (if (j =? 0)%nat then 0 else n - j))%nat eqn:E.
    + apply Nat.eqb_eq in E.
      replace ((- Z.of_nat k - Z.of_nat j) mod Z.of_nat n =? 0)%Z with true;
        [reflexivity|].
      symmetry. apply Z.eqb_eq. apply Z.mod_divide; [lia|].
      destruct (j =? 0)%nat eqn:E0.
      * apply Nat.eqb_eq in E0. subst. exists 0%Z. lia.
      * apply Nat.eqb_neq in E0. exists (-1)%Z. lia.
    + apply Nat.eqb_neq in E.
      replace ((- Z.of_nat k - Z.of_nat j) mod Z.of_nat n =? 0)%Z with false;
        [reflexivity|].
      symmetry. apply Z.eqb_neq. intros H.
      apply Z.mod_divide in H; [|lia]. destruct H as [c Hc].
      destruct (j =? 0)%nat eqn:E0.
      * apply Nat.eqb_eq in E0. subst. apply small_multiple in Hc; lia.
      * apply Nat.eqb_neq in E0.
        assert (Hc' : (Z.of_nat n - Z.of_nat k - Z.of_nat j = (c + 1) * Z.of_nat n)%Z)
          by lia.
        apply small_multiple in Hc'; lia.
  - intros m _. rewrite <- Cexp_add. f_equal. unfold angle.
    rewrite minus_IZR, opp_IZR, <- !INR_IZR_INZ. field. exact Hn0.
Qed.

Lemma nth_map_seq {A : Type} (f : nat -> A) (n k : nat) (d : A) :
  (k < n)%nat -> nth k (map f (seq 0 n)) d = f k.
Proof.
  intros Hk. rewrite (nth_indep _ d (f 0%nat)) by (now rewrite length_map, length_seq).
  rewrite map_nth, seq_nth by assumption. reflexivity.
Qed.

Lemma nth_map_lt {A B : Type} (f : A -> B) (l : list A) (k : nat) (d : A) (d' : B) :
  (k < length l)%nat -> nth k (map f l) d' = f (nth k l d).
Proof.
  intros Hk. rewrite (nth_indep _ d' (f d)) by (now rewrite length_map).
  apply map_nth.
Qed.

Lemma length_Cdft (sgn : R) (a : list C) : length (Cdft sgn a) = length a.
Proof. unfold Cdft. now rewrite length_map, length_seq. Qed.

Lemma nth_Cdft (sgn : R) (a : list C) (k : nat) :
  (k < length a)%nat ->
  nth k (Cdft sgn a) (0, 0)
  = Csum (fun m => Cmul (nth m a (0, 0)) (Cexp (sgn * angle (length a) m k)))
         (length a).
Proof. intros Hk. unfold Cdft. now rewrite nth_map_seq. Qed.

Lemma angle_sym (n m k : nat) : angle n m k = angle n k m.
Proof. unfold angle. unfold Rdiv. ring. Qed.

Lemma Cconj_mul (a b : C) : Cconj (Cmul a b) = Cmul (Cconj a) (Cconj b).
Proof. complex_ring. Qed.

Lemma Cmul_assoc (a b c : C) : Cmul (Cmul a b) c = Cmul a (Cmul b c).
Proof. complex_ring. Qed.

Lemma Cmul_0_r (a : C) : Cmul a (0, 0) = (0, 0).
Proof. complex_ring. Qed.

(** A sum against a kernel that vanishes off one index picks out the
    entry at that index. *)
Lemma Csum_pick (a : nat -> C) (ker : nat -> nat -> C) (n k0 : nat) (c : C) :
  (k0 < n)%nat ->
  (forall k, (k < n)%nat ->
     Csum (fun m => ker k m) n = if (k =? k0)%nat then c else (0, 0)) ->
  Csum (fun m => Csum (fun k => Cmul (a k) (ker k m)) n) n = Cmul (a k0) c.
Proof.
  intros Hk0 Hker.
  rewrite Csum_swap.
  rewrite (Csum_ext _ (fun k => Cmul (a k) (if (k =? k0)%nat then c else (0, 0)))).
  - rewrite (Csum_single _ n k0 Hk0).
    + now rewrite Nat.eqb_refl.
    + intros k Hk Hne.
      replace (k =? k0)%nat with false by (symmetry; now apply Nat.eqb_neq).
      apply Cmul_0_r.
  - intros k Hk. rewrite Csum_mul_l. now rewrite Hker.
Qed.

(** The forward transform undoes the real part of the inverse transform of
    a conjugate-symmetric array. *)
Lemma hermitian_round_trip (A : list C) :
  A <> [] ->
  (forall k, (k < length A)%nat ->
     nth ((length A - k) mod length A) A (0, 0) = Cconj (nth k A (0, 0))) ->
  Cdft (-1) (map (fun v => (v, 0)) (Rreal_ifft A)) = A.
Proof.
  intros HA Hherm.
  set (n := length A) in *.
  assert (Hn : (1 <= n)%nat) by (unfold n; destruct A; simpl; [congruence | lia]).
  assert (Hn0 : INR n <> 0) by (apply not_0_INR; lia).
  assert (Hlen : length (Rreal_ifft A) = n)
    by (unfold Rreal_ifft; now rewrite length_map, length_Cdft).
  apply (nth_ext _ _ (0, 0) (0, 0)); [now rewrite length_Cdft, length_map|].
  intros j Hj. rewrite length_Cdft, length_map, Hlen in Hj.
  rewrite nth_Cdft by (now rewrite length_map, Hlen). rewrite length_map, Hlen.
  set (a := fun k => nth k A (0, 0)).
  set (S := fun m => Csum (fun k => Cmul (a k) (Cexp (1 * angle n k m))) n).
  rewrite (Csum_ext _
    (fun m => Cscale (/ (2 * INR n))
                (Cadd (Cmul (S m) (Cexp (-1 * angle n m j)))
                      (Cmul (Cconj (S m)) (Cexp (-1 * angle n m j)))))).
  2:{ intros m Hm.
      rewrite (nth_map_lt _ _ _ 0) by (now rewrite Hlen).
      unfold Rreal_ifft.
      rewrite (nth_map_lt _ _ _ (0, 0)) by (now rewrite length_Cdft).
      rewrite nth_Cdft by assumption.
      change (Csum (fun k => Cmul (nth k A (0, 0))
                (Cexp (1 * angle (length A) k m))) (length A)) with (S m).
      fold n.
      generalize (S m) (Cexp (-1 * angle n m j)). intros [s1 s2] [e1 e2].
      apply injective_projections;
        unfold Cadd, Cmul, Cscale, Cconj; cbn [fst snd]; field; exact Hn0. }
  rewrite Csum_scale, Csum_add.
  (* the transform of the inverse transform *)
  rewrite (Csum_ext (fun m => Cmul (S m) (Cexp (-1 * angle n m j)))
             (fun m => Csum (fun k => Cmul (a k)
                (Cmul (Cexp (1 * angle n m k)) (Cexp (-1 * angle n m j)))) n)).
  2:{ intros m _. unfold S. rewrite <- Csum_mul_r. apply Csum_ext. intros k _.
      rewrite Cmul_assoc, (angle_sym n k m). reflexivity. }
  rewrite (Csum_pick a
             (fun k m => Cmul (Cexp (1 * angle n m k)) (Cexp (-1 * angle n m j)))
             n j (INR n, 0) Hj)
    by (intros k Hk; now apply kernel_orthogonal).
  (* the transform of its conjugate *)
  rewrite (Csum_ext (fun m => Cmul (Cconj (S m)) (Cexp (-1 * angle n m j)))
             (fun m => Csum (fun k => Cmul (Cconj (a k))
                (Cmul (Cexp (-1 * angle n m k)) (Cexp (-1 * angle n m j)))) n)).
  2:{ intros m _. unfold S. rewrite <- Csum_conj, <- Csum_mul_r.
      apply Csum_ext. intros k _.
      rewrite Cconj_mul, Cexp_conj, Cmul_assoc, (angle_sym n k m).
      do 3 f_equal. ring. }
  rewrite (Csum_pick (fun k => Cconj (a k))
             (fun k m => Cmul (Cexp (-1 * angle n m k)) (Cexp (-1 * angle n m j)))
             n ((n - j) mod n) (INR n, 0) (mirror_index_lt n j Hj))
    by (intros k Hk; now apply kernel_mirror).
  unfold a at 2.
  rewrite <- (Hherm ((n - j) mod n)%nat (mirror_index_lt n j Hj)).
  rewrite (mirror_index_twice n j Hj). unfold a. unfold C in *.
  generalize (nth j A (0, 0)). intros [a1 a2].
  apply injective_projections;
    unfold Cadd, Cmul, Cscale; cbn [fst snd]; field; exact Hn0.
Qed.

(** ** The symmetry of the phase array and of the magnitudes *)

Lemma nth_Rphases_full_even (n : nat) (p : list R) (k : nat) :
  (n mod 2 = 0)%nat -> (2 <= n)%nat -> length p = (n / 2 - 1)%nat ->
  nth k (Rphases_full n p) 0
  = if (k =? 0)%nat then 0
    else if (k <? n / 2)%nat then nth (k - 1) p 0
    else if (k =? n / 2)%nat then 0
    else if (k <? n)%nat then - nth (n - k - 1) p 0
    else 0.
Proof.
  intros Hpar Hn Hp. unfold Rphases_full.
  rewrite (proj2 (Nat.eqb_eq _ _) Hpar).
  pose proof (Nat.div_mod_eq n 2) as Hdiv. rewrite Hpar in Hdiv.
  set (h := (n / 2)%nat) in *.
  destruct (k =? 0)%nat eqn:E0.
  { apply Nat.eqb_eq in E0. now subst k. }
  apply Nat.eqb_neq in E0.
  destruct k as [|k]; [lia|]. cbn [app nth]. rewrite Nat.sub_succ, Nat.sub_0_r.
  destruct (Datatypes.S k <? h)%nat eqn:E1.
  { apply Nat.ltb_lt in E1. apply app_nth1. lia. }
  apply Nat.ltb_ge in E1.
  rewrite app_nth2 by lia. rewrite Hp.
  destruct (Datatypes.S k =? h)%nat eqn:E2.
  { apply Nat.eqb_eq in E2. replace (k - (h - 1))%nat with 0%nat by lia. reflexivity. }
  apply Nat.eqb_neq in E2.
  destruct (k - (h - 1))%nat as [|i] eqn:Ei; [lia|]. cbn [app nth].
  destruct (Datatypes.S k <? n)%nat eqn:E3.
  - apply Nat.ltb_lt in E3.
    rewrite (nth_map_lt Ropp _ _ 0) by (rewrite length_rev; lia).
    rewrite rev_nth by lia. rewrite Hp. f_equal. f_equal. lia.
  - apply Nat.ltb_ge in E3. apply nth_overflow.
    rewrite length_map, length_rev. lia.
Qed.

(** The even branch is antisymmetric: bin [n - k] carries the negated
    phase of bin [k], and bins [0] and [n / 2] carry zero. *)
Lemma Rphases_full_even_antisymmetric (n : nat) (p : list R) (k : nat) :
  (n mod 2 = 0)%nat -> (2 <= n)%nat -> length p = (n / 2 - 1)%nat ->
  (k < n)%nat ->
  nth ((n - k) mod n) (Rphases_full n p) 0 = - nth k (Rphases_full n p) 0.
Proof.
  intros Hpar Hn Hp Hk.
  rewrite (mirror_index n k Hk).
  rewrite !nth_Rphases_full_even by assumption.
  pose proof (Nat.div_mod_eq n 2) as Hdiv. rewrite Hpar in Hdiv.
  set (h := (n / 2)%nat) in *.
  destruct (k =? 0)%nat eqn:E0.
  { cbn [Nat.eqb]. ring. }
  apply Nat.eqb_neq in E0.
  replace (n - k =? 0)%nat with false by (symmetry; apply Nat.eqb_neq; lia).
  destruct (k <? h)%nat eqn:E1.
  - apply Nat.ltb_lt in E1.
    replace (n - k <? h)%nat with false by (symmetry; apply Nat.ltb_ge; lia).
    replace (n - k =? h)%nat with false by (symmetry; apply Nat.eqb_neq; lia).
    replace (n - k <? n)%nat with true by (symmetry; apply Nat.ltb_lt; lia).
    f_equal. f_equal. lia.
  - apply Nat.ltb_ge in E1.
    destruct (k =? h)%nat eqn:E2.
    + apply Nat.eqb_eq in E2.
      replace (n - k <? h)%nat with false by (symmetry; apply Nat.ltb_ge; lia).
      replace (n - k =? h)%nat with true by (symmetry; apply Nat.eqb_eq; lia).
      ring.
    + apply Nat.eqb_neq in E2.
      replace (n - k <? h)%nat with true by (symmetry; apply Nat.ltb_lt; lia).
      replace (k <? n)%nat with true by (symmetry; apply Nat.ltb_lt; lia).
      rewrite Ropp_involutive. f_equal; lia.
Qed.

Lemma Cabs_conj (w : C) : Cabs (Cconj w) = Cabs w.
Proof. unfold Cabs, Cconj. cbn [fst snd]. f_equal. ring. Qed.

Lemma Cabs_nonneg (w : C) : 0 <= Cabs w.
Proof. apply sqrt_pos. Qed.

Lemma Cabs_polar (r t : R) : 0 <= r -> Cabs (Cmul (r, 0) (Cexp t)) = r.
Proof.
  intros Hr. unfold Cabs, Cmul. cbn [fst snd].
  pose proof (Cexp_abs t) as H.
  replace ((r * fst (Cexp t) - 0 * snd (Cexp t)) * (r * fst (Cexp t) - 0 * snd (Cexp t))
           + (r * snd (Cexp t) + 0 * fst (Cexp t)) * (r * snd (Cexp t) + 0 * fst (Cexp t)))
    with (r * r * (fst (Cexp t) * fst (Cexp t) + snd (Cexp t) * snd (Cexp t)))
    by ring.
  rewrite H, Rmult_1_r. now apply sqrt_square.
Qed.

Lemma length_Rmagnitudes (z : list R) : length (Rmagnitudes z) = length z.
Proof. unfold Rmagnitudes. now rewrite length_map, length_Cdft, length_map. Qed.

Lemma nth_Rmagnitudes (z : list R) (k : nat) :
  (k < length z)%nat ->
  nth k (Rmagnitudes z) 0
  = Cabs (Csum (fun m => Cmul (nth m z 0, 0)
                              (Cexp (-1 * angle (length z) m k))) (length z)).
Proof.
  intros Hk. unfold Rmagnitudes.
  rewrite (nth_map_lt Cabs _ _ (0, 0)) by (now rewrite length_Cdft, length_map).
  rewrite nth_Cdft by (now rewrite length_map). rewrite length_map.
  f_equal. apply Csum_ext. intros m _.
  f_equal. exact (map_nth (fun v => (v, 0)) z 0 m).
Qed.

Lemma Rmagnitudes_nonneg (z : list R) : Forall (fun r => 0 <= r) (Rmagnitudes z).
Proof.
  unfold Rmagnitudes. apply Forall_map. apply Forall_forall.
  intros w _. apply Cabs_nonneg.
Qed.

Lemma kernel_at_mirror (n m k : nat) :
  (k < n)%nat ->
  Cexp (-1 * angle n m ((n - k) mod n)) = Cconj (Cexp (-1 * angle n m k)).
Proof.
  intros Hk. rewrite Cexp_conj, (mirror_index n k Hk).
  assert (Hn0 : INR n <> 0) by (apply not_0_INR; lia).
  destruct (k =? 0)%nat eqn:E.
  - apply Nat.eqb_eq in E. subst k. f_equal. unfold angle. simpl. field. exact Hn0.
  - apply Nat.eqb_neq in E.
    rewrite <- (Cexp_period (- (-1 * angle n m k)) (- Z.of_nat m)).
    f_equal. unfold angle. rewrite minus_INR by lia.
    rewrite opp_IZR, <- INR_IZR_INZ. field. exact Hn0.
Qed.

(** The magnitudes of the transform of a real series are symmetric. *)
Lemma Rmagnitudes_symmetric (z : list R) (k : nat) :
  (k < length z)%nat ->
  nth ((length z - k) mod length z) (Rmagnitudes z) 0 = nth k (Rmagnitudes z) 0.
Proof.
  intros Hk.
  rewrite !nth_Rmagnitudes by (assumption || now apply mirror_index_lt).
  rewrite <- Cabs_conj, <- Csum_conj. f_equal. apply Csum_ext. intros m _.
  rewrite kernel_at_mirror by assumption. complex_ring.
Qed.

Lemma nth_Crecf (r t : list R) (k : nat) :
  length r = length t -> (k < length r)%nat ->
  nth k (Crecf r t) (0, 0) = Cmul (nth k r 0, 0) (Cexp (nth k t 0)).
Proof.
  intros Hlen Hk. unfold Crecf.
  rewrite (nth_map_lt _ _ _ (0, 0)) by (rewrite length_combine; lia).
  now rewrite combine_nth by assumption.
Qed.

Lemma length_Crecf (r t : list R) :
  length r = length t -> length (Crecf r t) = length r.
Proof. intros H. unfold Crecf. rewrite length_map, length_combine. lia. Qed.

Lemma map_Cabs_Crecf (r t : list R) :
  length r = length t -> Forall (fun v => 0 <= v) r ->
  map Cabs (Crecf r t) = r.
Proof.
  intros Hlen Hpos. unfold Crecf. rewrite map_map.
  revert t Hlen. induction Hpos as [|v r Hv Hpos IH]; intros t Hlen.
  - reflexivity.
  - destruct t as [|u t]; [discriminate|]. cbn [combine map fst snd].
    rewrite Cabs_polar by assumption. f_equal. apply IH. simpl in Hlen. lia.
Qed.

(** Symmetric magnitudes under antisymmetric phases form a
    conjugate-symmetric spectrum. *)
Lemma Crecf_hermitian (r t : list R) (k : nat) :
  length r = length t -> (k < length r)%nat ->
  nth ((length r - k) mod length r) r 0 = nth k r 0 ->
  nth ((length r - k) mod length r) t 0 = - nth k t 0 ->
  nth ((length r - k) mod length r) (Crecf r t) (0, 0)
  = Cconj (nth k (Crecf r t) (0, 0)).
Proof.
  intros Hlen Hk Hr Ht.
  rewrite !nth_Crecf by (assumption || now apply mirror_index_lt).
  rewrite Hr, Ht, Cconj_mul, Cexp_conj. f_equal. complex_ring.
Qed.

(** The surrogate of a series has the magnitudes of the series. *)
Lemma surrogate_magnitudes (z t : list R) :
  z <> [] -> length t = length z ->
  (forall k, (k < length z)%nat ->
     nth ((length z - k) mod length z) t 0 = - nth k t 0) ->
  Rmagnitudes (Rreal_ifft (Crecf (Rmagnitudes z) t)) = Rmagnitudes z.
Proof.
  intros Hz Hlen Hanti.
  assert (Hlr : length (Rmagnitudes z) = length t)
    by (now rewrite length_Rmagnitudes).
  unfold Rmagnitudes at 1.
  rewrite hermitian_round_trip.
  - apply map_Cabs_Crecf; [assumption | apply Rmagnitudes_nonneg].
  - apply length_nonempty. rewrite length_Crecf, length_Rmagnitudes by assumption.
    destruct z; simpl; [congruence | lia].
  - rewrite length_Crecf, length_Rmagnitudes by assumption.
    intros k Hk.
    rewrite <- (length_Rmagnitudes z).
    apply Crecf_hermitian; rewrite ?length_Rmagnitudes.
    + now symmetry.
    + assumption.
    + now apply Rmagnitudes_symmetric.
    + now apply Hanti.
Qed.

(** ** The surrogates of a call *)

Lemma bind_seed {A : Type} (seed : option seed_t) (k : unit -> M A) (w : world) :
  bind (match seed with
        | Some s => np_random_seed (Some s)
        | None => np_random_seed None
        end) k w
  = k tt (fst (np_random_seed seed w)).
Proof.
  unfold bind at 1. rewrite seed_step, np_random_seed_world. reflexivity.
Qed.

(** [ebisuzaki] goes through [ebisuzaki_surrogates]: it raises what the
    loop raises, and otherwise works on the matrices the loop leaves. *)
Lemma ebisuzaki_through_surrogates (x y : list R) (level : pyfloat) (nsim : Z)
    (seed : option seed_t) (w : world) :
  ebisuzaki x y level nsim seed w
  = match ebisuzaki_surrogates x y nsim seed w with
    | (w1, Raises e) => (w1, Raises e)
    | (w1, Returns XY) =>
        let r_real := pearson (zscore (map Fin x)) (zscore (map Fin y)) in
        match surrogate_correlations (fst XY) (snd XY) nsim with
        | Raises e => (w1, Raises e)
        | Returns rSim =>
            let F := fraction_larger rSim r_real nsim in
            match critical_value rSim level nsim with
            | Raises e => (w1, Raises e)
            | Returns cv =>
                (World (rng w1) (os w1)
                   (stdout w1 ++ [Rule; Observed r_real; Critical cv; Fraction F]),
                 Returns [PyFloat F; PyArray rSim; PyFloat r_real])
            end
        end
    end.
Proof.
  unfold ebisuzaki, ebisuzaki_surrogates. rewrite !bind_seed.
  set (zx := zscore (map Fin x)). set (zy := zscore (map Fin y)).
  destruct (negb (length zx =? length zy)%nat) eqn:Elen; [reflexivity|].
  apply negb_false_iff, Nat.eqb_eq in Elen.
  unfold bind, lift. rewrite (np_corrcoef_same_length zx zy Elen).
  destruct (np_fft_fft (map of_real zx)) as [xf|e]; [|reflexivity].
  destruct (np_fft_fft (map of_real zy)) as [yf|e]; [|reflexivity].
  destruct (np_zeros (length zx) nsim) as [Z0|e]; [|reflexivity].
  destruct (for_each _ _ _ _) as [w1 [XY|e]]; [|reflexivity].
  cbv zeta.
  fold (surrogate_correlations (fst XY) (snd XY) nsim).
  destruct (surrogate_correlations _ _ _) as [rSim|e]; [|reflexivity].
  destruct (critical_value rSim level nsim) as [cv|e]; [|reflexivity].
  unfold print. cbn [rng os stdout]. rewrite <- !app_assoc. reflexivity.
Qed.

Lemma ebisuzaki_surrogates_inv (x y : list R) (nsim : Z)
    (seed : option seed_t) (w w1 : world) (XY : matrix * matrix) :
  ebisuzaki_surrogates x y nsim seed w = (w1, Returns XY) ->
  length x = length y /\ (0 < length x)%nat /\ (0 <= nsim)%Z
  /\ for_each (range nsim)
       (loop_body (length x) (length x / 2)
          (magnitudes (zscore (map Fin x))) (magnitudes (zscore (map Fin y))))
       (repeat (repeat (Fin 0) (length x)) (Z.to_nat nsim),
        repeat (repeat (Fin 0) (length x)) (Z.to_nat nsim))
       (fst (np_random_seed seed w))
     = (w1, Returns XY).
Proof.
  unfold ebisuzaki_surrogates. rewrite bind_seed.
  rewrite !length_zscore, !length_map.
  destruct (negb (length x =? length y)%nat) eqn:Elen.
  { unfold raise. discriminate. }
  apply negb_false_iff, Nat.eqb_eq in Elen.
  unfold bind, lift.
  rewrite np_corrcoef_same_length by (now rewrite !length_zscore, !length_map).
  destruct x as [|x0 x].
  { destruct y; [|discriminate]. cbn. discriminate. }
  destruct y as [|y0 y]; [discriminate|].
  rewrite !np_fft_fft_nonempty
    by (apply length_nonempty; rewrite length_map, length_zscore, length_map;
        simpl; lia).
  unfold np_zeros. destruct (nsim <? 0)%Z eqn:En; [discriminate|].
  apply Z.ltb_ge in En.
  fold (magnitudes (zscore (map Fin (x0 :: x)))).
  fold (magnitudes (zscore (map Fin (y0 :: y)))).
  intros H. repeat split; try assumption; simpl; lia.
Qed.

(** *** Series that are not constant standardise to finite values *)

Lemma Rsum_nonneg_zero (l : list R) :
  Forall (fun v => 0 <= v) l -> Rsum l = 0 -> Forall (fun v => v = 0) l.
Proof.
  unfold Rsum. induction 1 as [|v l Hv Hl IH]; intros Hs; [constructor|].
  simpl in Hs.
  assert (Hrest : 0 <= fold_right Rplus 0 l).
  { clear IH Hs. induction Hl as [|u l Hu Hl IH]; simpl; [lra | lra]. }
  constructor; [lra | apply IH; lra].
Qed.

Lemma Rvar_zero_constant (l : list R) : Rvar l = 0 -> constant l.
Proof.
  intros Hv.
  destruct l as [|c l]; [intros a b []|].
  assert (Hn : INR (length (c :: l)) <> 0) by (apply not_0_INR; simpl; lia).
  unfold Rvar, Rmean at 1 in Hv. rewrite length_map in Hv.
  assert (Hs : Rsum (map (fun v => (v - Rmean (c :: l)) * (v - Rmean (c :: l)))
                         (c :: l)) = 0).
  { apply Rmult_eq_reg_r with (/ INR (length (c :: l)));
      [|now apply Rinv_neq_0_compat].
    rewrite Rmult_0_l. exact Hv. }
  apply Rsum_nonneg_zero in Hs.
  2:{ apply Forall_map, Forall_forall. intros v _. cbv beta.
      generalize (v - Rmean (c :: l)). intros u. nra. }
  rewrite Forall_map, Forall_forall in Hs.
  intros a b Ha Hb. pose proof (Hs a Ha) as Ea. pose proof (Hs b Hb) as Eb.
  cbv beta in Ea, Eb.
  assert (Ha0 : a - Rmean (c :: l) = 0)
    by (destruct (Rmult_integral _ _ Ea); assumption).
  assert (Hb0 : b - Rmean (c :: l) = 0)
    by (destruct (Rmult_integral _ _ Eb); assumption).
  lra.
Qed.

Lemma nonconstant_Rvar (l : list R) : nonconstant l -> Rvar l <> 0.
Proof.
  intros (a & b & Ha & Hb & Hab) Hv.
  apply Hab. now apply (Rvar_zero_constant l Hv).
Qed.

Lemma nonconstant_length (l : list R) : nonconstant l -> (2 <= length l)%nat.
Proof.
  intros (a & b & Ha & Hb & Hab).
  destruct l as [|u [|v l]]; simpl in *; try lia; try tauto.
  destruct Ha as [<-|[]], Hb as [<-|[]]. congruence.
Qed.

(** *** Three rows: the one shape the odd branch can multiply *)

Lemma surrogate_three (m : list float) :
  length m = 3%nat ->
  surrogate 3 m [] = Returns (real_ifft (recf m [Fin 0; Fin 0; Fin 0])).
Proof.
  intros Hm. destruct m as [|a [|b [|c [|d m]]]]; try discriminate.
  reflexivity.
Qed.

Lemma surrogate_three_exists (m p : list float) :
  length m = 3%nat -> length p = (3 / 2 - 1)%nat ->
  exists s, surrogate 3 m p = Returns s /\ length s = 3%nat.
Proof.
  intros Hm Hp. destruct p; [|discriminate].
  rewrite (surrogate_three m Hm). eexists. split; [reflexivity|].
  rewrite length_real_ifft, length_recf; simpl; lia.
Qed.

(** *** The phases that are drawn are finite *)

Lemma uniform_phases_fin (size : nat) (g : rng_state) :
  exists p, fst (uniform_phases size g) = map Fin p /\ length p = size.
Proof.
  unfold uniform_phases. cbn [fst].
  exists (map (fun u => - PI + (PI - - PI) * u) (fst (draw size g))).
  split; [now rewrite map_map | now rewrite length_map, length_draw].
Qed.

Lemma drawn_phases_fin (k size : nat) (g : rng_state) :
  Forall (fun p => exists px py,
            fst p = map Fin px /\ snd p = map Fin py
            /\ length px = size /\ length py = size)
         (fst (drawn_phases k size g)).
Proof.
  revert g. induction k as [|k IH]; intros g; cbn [drawn_phases fst snd].
  - constructor.
  - constructor; [|apply IH].
    cbn [fst snd].
    destruct (uniform_phases_fin size g) as (px & Hx & Hlx).
    destruct (uniform_phases_fin size (snd (uniform_phases size g)))
      as (py & Hy & Hly).
    exists px, py. now repeat split.
Qed.

Lemma length_Rzscore (l : list R) : length (Rzscore l) = length l.
Proof. unfold Rzscore. apply length_map. Qed.

(** ** The energy of a series and of its transform *)

Lemma Csum_shift (f : nat -> C) (n : nat) :
  Csum f (Datatypes.S n) = Cadd (f 0%nat) (Csum (fun k => f (Datatypes.S k)) n).
Proof.
  induction n as [|n IH].
  - simpl. complex_ring.
  - change (Csum f (Datatypes.S (Datatypes.S n)))
      with (Cadd (Csum f (Datatypes.S n)) (f (Datatypes.S n))).
    rewrite IH. cbn [Csum]. complex_ring.
Qed.

(** A sum over a list is the sum over its indices. *)
Lemma Rsum_indexed (l : list R) :
  Csum (fun k => (nth k l 0, 0)) (length l) = (Rsum l, 0).
Proof.
  induction l as [|a l IH].
  - reflexivity.
  - cbn [length]. rewrite Csum_shift. cbn [nth]. rewrite IH.
    unfold Rsum. cbn [fold_right]. complex_ring.
Qed.

Lemma Rsum_map_indexed (f : R -> R) (l : list R) :
  Csum (fun k => (f (nth k l 0), 0)) (length l) = (Rsum (map f l), 0).
Proof.
  rewrite <- Rsum_indexed, length_map. apply Csum_ext. intros k Hk.
  now rewrite (nth_map_lt f l k 0 0 Hk).
Qed.

Lemma Cmul_comm (a b : C) : Cmul a b = Cmul b a.
Proof. complex_ring. Qed.

(** The inverse kernel undoes the forward transform. *)
Lemma forward_then_inverse (a : list C) (m : nat) :
  (m < length a)%nat ->
  Csum (fun k => Cmul (nth k (Cdft (-1) a) (0, 0))
                      (Cexp (1 * angle (length a) k m))) (length a)
  = Cscale (INR (length a)) (nth m a (0, 0)).
Proof.
  intros Hm. set (n := length a) in *.
  rewrite (Csum_ext _
    (fun k => Csum (fun m' => Cmul (nth m' a (0, 0))
       (Cmul (Cexp (1 * angle n k m)) (Cexp (-1 * angle n k m')))) n)).
  2:{ intros k Hk. rewrite nth_Cdft by assumption. fold n.
      rewrite <- Csum_mul_r. apply Csum_ext. intros m' _.
      rewrite Cmul_assoc. f_equal. rewrite (angle_sym n m' k). apply Cmul_comm. }
  rewrite (Csum_pick (fun m' => nth m' a (0, 0))
             (fun m' k => Cmul (Cexp (1 * angle n k m)) (Cexp (-1 * angle n k m')))
             n m (INR n, 0) Hm).
  - complex_ring.
  - intros m' Hm'. rewrite kernel_orthogonal by assumption.
    rewrite Nat.eqb_sym. reflexivity.
Qed.


Lemma Cabs_sqr (z : C) : Cabs z * Cabs z = Cnorm2 z.
Proof. unfold Cabs, Cnorm2. apply sqrt_sqrt. nra. Qed.

Lemma Cnorm2_conj (z : C) : Cmul z (Cconj z) = (Cnorm2 z, 0).
Proof. unfold Cnorm2. complex_ring. Qed.

(** Parseval: the squared magnitudes of the transform of a real series sum
    to [n] times the squares of the series. *)
Lemma parseval (z : list R) :
  Rsum (map (fun r => r * r) (Rmagnitudes z))
  = INR (length z) * Rsum (map (fun v => v * v) z).
Proof.
  set (n := length z).
  set (a := map (fun v => (v, 0)) z : list C).
  assert (Ha : length a = n) by (unfold a; now rewrite length_map).
  assert (Hnth : forall m, nth m a (0, 0) = (nth m z 0, 0))
    by (intros m; unfold a; exact (map_nth (fun v => (v, 0)) z 0 m)).
  assert (H : (Rsum (map (fun r => r * r) (Rmagnitudes z)), 0)
              = (INR n * Rsum (map (fun v => v * v) z), 0));
    [|now injection H].
  rewrite <- Rsum_map_indexed, length_Rmagnitudes. fold n.
  rewrite (Csum_ext _
    (fun k => Cmul (nth k (Cdft (-1) a) (0, 0))
                   (Cconj (nth k (Cdft (-1) a) (0, 0))))).
  2:{ intros k Hk. rewrite Cnorm2_conj, <- Cabs_sqr.
      unfold Rmagnitudes. fold a.
      rewrite (nth_map_lt Cabs _ _ (0, 0)) by (now rewrite length_Cdft, Ha).
      reflexivity. }
  (* expand the first factor, keep the second *)
  rewrite (Csum_ext _
    (fun k => Csum (fun m => Cmul (nth m a (0, 0))
       (Cmul (Cexp (-1 * angle n m k)) (Cconj (nth k (Cdft (-1) a) (0, 0))))) n)).
  2:{ intros k Hk. rewrite (nth_Cdft (-1) a k) at 1 by (now rewrite Ha).
      rewrite Ha. rewrite <- Csum_mul_r. apply Csum_ext. intros m _.
      apply Cmul_assoc. }
  rewrite Csum_swap.
  rewrite (Csum_ext _
    (fun m => Cmul (nth m a (0, 0)) (Cscale (INR n) (Cconj (nth m a (0, 0)))))).
  2:{ intros m Hm. rewrite Csum_mul_l. f_equal.
      transitivity
        (Cconj (Csum (fun k => Cmul (nth k (Cdft (-1) a) (0, 0))
                                   (Cexp (1 * angle (length a) k m)))
                     (length a))).
      - rewrite <- Csum_conj, Ha. apply Csum_ext. intros k _.
        rewrite Cconj_mul, Cexp_conj, Cmul_comm. f_equal. f_equal.
        rewrite (angle_sym n k m). ring.
      - rewrite forward_then_inverse by (now rewrite Ha). rewrite Ha.
        complex_ring. }
  transitivity (Cscale (INR n) (Rsum (map (fun v => v * v) z), 0));
    [|complex_ring].
  rewrite <- (Rsum_map_indexed (fun v => v * v) z).
  fold n. rewrite <- Csum_scale. apply Csum_ext. intros m _.
  rewrite Hnth. complex_ring.
Qed.

(** ** Standardised series *)

Lemma Rsum_map_affine (c d : R) (l : list R) :
  Rsum (map (fun v => (v - d) * c) l) = (Rsum l - INR (length l) * d) * c.
Proof.
  unfold Rsum. induction l as [|a l IH].
  - simpl. ring.
  - cbn [map fold_right length]. rewrite IH, S_INR. ring.
Qed.

Lemma Rsum_map_scale (f : R -> R) (c : R) (l : list R) :
  Rsum (map (fun v => f v * c) l) = Rsum (map f l) * c.
Proof.
  unfold Rsum. induction l as [|a l IH]; simpl; [ring|]. rewrite IH. ring.
Qed.

Lemma Rsum_map_ext (f g : R -> R) (l : list R) :
  (forall v, f v = g v) -> Rsum (map f l) = Rsum (map g l).
Proof. intros H. f_equal. apply map_ext. exact H. Qed.

(** A standardised series has sum zero and as many units of energy as it
    has points. *)
Lemma Rzscore_standard (x : list R) :
  Rvar x <> 0 ->
  Rsum (Rzscore x) = 0
  /\ Rsum (map (fun v => v * v) (Rzscore x)) = INR (length x).
Proof.
  intros Hv.
  assert (Hpos : 0 < Rvar x) by (pose proof (Rvar_nonneg x); lra).
  assert (Hs : sqrt (Rvar x) <> 0) by (apply Rgt_not_eq, sqrt_lt_R0; exact Hpos).
  assert (Hn : INR (length x) <> 0).
  { intros E. apply Hv. unfold Rvar, Rmean at 1. rewrite length_map, E.
    unfold Rdiv. rewrite Rinv_0. ring. }
  unfold Rzscore. split.
  - rewrite (Rsum_map_ext _ (fun v => (v - Rmean x) * / sqrt (Rvar x)))
      by (intros; reflexivity).
    rewrite Rsum_map_affine. unfold Rmean. field. split; assumption.
  - rewrite map_map.
    rewrite (Rsum_map_ext _
      (fun v => (v - Rmean x) * (v - Rmean x) * / (sqrt (Rvar x) * sqrt (Rvar x))))
      by (intros v; field; exact Hs).
    rewrite sqrt_sqrt by lra.
    rewrite (Rsum_map_scale (fun v => (v - Rmean x) * (v - Rmean x))).
    assert (E : Rsum (map (fun v => (v - Rmean x) * (v - Rmean x)) x)
                = Rvar x * INR (length x)).
    { unfold Rvar at 1. unfold Rmean at 3. rewrite length_map. field. exact Hn. }
    rewrite E. field. exact Hv.
Qed.

(** A series with sum zero and that energy is its own standardisation. *)
Lemma Rzscore_fixed (s : list R) :
  s <> [] -> Rsum s = 0 -> Rsum (map (fun v => v * v) s) = INR (length s) ->
  Rvar s = 1 /\ Rzscore s = s.
Proof.
  intros Hs H0 H1.
  assert (Hn : INR (length s) <> 0)
    by (apply not_0_INR; destruct s; simpl; congruence).
  assert (Hm : Rmean s = 0) by (unfold Rmean; rewrite H0; field; exact Hn).
  assert (Hv : Rvar s = 1).
  { unfold Rvar. rewrite Hm. unfold Rmean. rewrite length_map.
    rewrite (Rsum_map_ext _ (fun v => v * v)) by (intros; ring).
    rewrite H1. field. exact Hn. }
  split; [exact Hv|].
  unfold Rzscore. rewrite Hm, Hv, sqrt_1.
  rewrite <- (map_id s) at 2. apply map_ext. intros v. field.
Qed.

Lemma Rmagnitudes_bin0 (l : list R) :
  l <> [] -> nth 0 (Rmagnitudes l) 0 = Rabs (Rsum l).
Proof.
  intros Hl. rewrite nth_Rmagnitudes by (destruct l; simpl; [congruence | lia]).
  rewrite (Csum_ext _ (fun m => (nth m l 0, 0))).
  - rewrite Rsum_indexed. unfold Cabs. cbn [fst snd].
    replace (Rsum l * Rsum l + 0 * 0) with ((Rsum l)²) by (unfold Rsqr; ring).
    apply sqrt_Rsqr_abs.
  - intros m _. unfold angle. cbn [INR].
    replace (-1 * (2 * PI * INR m * 0 / INR (length l))) with 0
      by (unfold Rdiv; ring).
    rewrite Cexp_0. complex_ring.
Qed.

(** A series with the magnitude spectrum of a standardised series is
    standardised, and standardising it once more changes nothing. *)
Lemma same_magnitudes_standardised (x s : list R) :
  Rvar x <> 0 -> length s = length x ->
  Rmagnitudes s = Rmagnitudes (Rzscore x) ->
  Rvar s = 1 /\ Rzscore s = s.
Proof.
  intros Hv Hlen Hmag.
  destruct (Rzscore_standard x Hv) as [Hz0 Hz1].
  assert (Hx : x <> []).
  { intros ->. apply Hv. unfold Rvar, Rmean. simpl. unfold Rdiv.
    rewrite Rinv_0. ring. }
  assert (Hs : s <> []) by (destruct s, x; simpl in *; congruence).
  assert (Hn : INR (length x) <> 0)
    by (apply not_0_INR; destruct x; simpl; congruence).
  apply Rzscore_fixed; [exact Hs | |].
  - pose proof (Rmagnitudes_bin0 s Hs) as Hb.
    rewrite Hmag, Rmagnitudes_bin0 in Hb
      by (intros E; apply (f_equal (@length R)) in E;
          rewrite length_Rzscore in E; destruct x; simpl in *; congruence).
    rewrite Hz0, Rabs_R0 in Hb. symmetry in Hb.
    destruct (Req_dec (Rsum s) 0) as [E|E]; [exact E|].
    apply Rabs_no_R0 in E. contradiction.
  - pose proof (parseval s) as Hp. rewrite Hmag, parseval in Hp.
    rewrite length_Rzscore, Hz1, Hlen in Hp.
    rewrite Hlen. apply Rmult_eq_reg_l with (INR (length x)); [|exact Hn].
    lra.
Qed.

(** *** The magnitudes of one surrogate *)

Lemma length_Rreal_ifft (a : list C) : length (Rreal_ifft a) = length a.
Proof. unfold Rreal_ifft. now rewrite length_map, length_Cdft. Qed.

Lemma surrogate_of_even_real (n : nat) (z p : list R) :
  (n mod 2 = 0)%nat -> (2 <= n)%nat ->
  length z = n -> length p = (n / 2 - 1)%nat ->
  exists s, surrogate_of n (magnitudes (map Fin z)) (map Fin p) = map Fin s
            /\ length s = n /\ Rmagnitudes s = Rmagnitudes z.
Proof.
  intros Hpar Hn Hz Hp.
  assert (Hfull : length (Rphases_full n p) = n).
  { pose proof (length_phases_full_even n (map Fin p) Hpar Hn) as H.
    rewrite phases_full_fin, !length_map in H. now apply H. }
  exists (Rreal_ifft (Crecf (Rmagnitudes z) (Rphases_full n p))).
  split; [|split].
  - rewrite magnitudes_fin.
    apply surrogate_of_fin; try assumption. now rewrite length_Rmagnitudes.
  - rewrite length_Rreal_ifft, length_Crecf;
      rewrite length_Rmagnitudes; congruence.
  - apply surrogate_magnitudes.
    + apply length_nonempty. lia.
    + congruence.
    + rewrite Hz. intros k Hk. now apply Rphases_full_even_antisymmetric.
Qed.

Lemma surrogate_of_three_real (z : list R) :
  length z = 3%nat ->
  exists s, surrogate_of 3 (magnitudes (map Fin z)) [] = map Fin s
            /\ length s = 3%nat /\ Rmagnitudes s = Rmagnitudes z.
Proof.
  intros Hz.
  exists (Rreal_ifft (Crecf (Rmagnitudes z) [0; 0; 0])).
  split; [|split].
  - rewrite magnitudes_fin. unfold surrogate_of.
    rewrite surrogate_three by (now rewrite length_map, length_Rmagnitudes).
    change [Fin 0; Fin 0; Fin 0] with (map Fin [0; 0; 0]).
    rewrite recf_fin. apply real_ifft_fin.
    apply length_nonempty.
    rewrite length_Crecf; rewrite length_Rmagnitudes, Hz; simpl; lia.
  - rewrite length_Rreal_ifft, length_Crecf;
      rewrite length_Rmagnitudes, Hz; reflexivity.
  - apply surrogate_magnitudes.
    + apply length_nonempty. lia.
    + now rewrite Hz.
    + rewrite Hz. intros k Hk.
      destruct k as [|[|[|k]]]; try lia; simpl; ring.
Qed.

(** The matrices at the end of the loop, for the shapes on which every
    surrogate can be formed. *)
Lemma loop_result_regular (n : nat) (modx mody : list float) (k : nat)
    (w0 w1 : world) (X Y : matrix) :
  (n mod 2 = 0 /\ 2 <= n)%nat \/ n = 3%nat ->
  length modx = n -> length mody = n ->
  for_each (seq 0 k) (loop_body n (n / 2) modx mody)
    (repeat (repeat (Fin 0) n) k, repeat (repeat (Fin 0) n) k) w0
  = (w1, Returns (X, Y)) ->
  X = surrogates_x n modx (fst (drawn_phases k (n / 2 - 1) (rng w0)))
  /\ Y = surrogates_y n mody (fst (drawn_phases k (n / 2 - 1) (rng w0))).
Proof.
  intros Hreg Hmx Hmy Hloop.
  assert (HS : forall m p, length m = n -> length p = (n / 2 - 1)%nat ->
             surrogate n m p = Returns (surrogate_of n m p)
             /\ length (surrogate_of n m p) = n).
  { intros m p Hm Hp. unfold surrogate_of.
    destruct Hreg as [[Hpar Hn]|Hn].
    - destruct (surrogate_even n m p Hpar Hn Hm Hp) as [Hs Hl].
      rewrite Hs. now split.
    - subst n. destruct (surrogate_three_exists m p Hm Hp) as (s & Hs & Hl).
      rewrite Hs. now split. }
  assert (Hn2 : (1 <= n / 2)%nat).
  { destruct Hreg as [[Hpar Hn]|Hn]; [|now subst n].
    pose proof (Nat.div_mod_eq n 2). lia. }
  pose proof (for_each_fills_columns (surrogate_of n) n (n / 2) modx mody
    Hn2 HS Hmx Hmy k 0%nat [] [] (repeat (repeat (Fin 0) n) k)
    (repeat (repeat (Fin 0) n) k) w0
    eq_refl eq_refl (repeat_length _ _) (repeat_length _ _)) as Hfill.
  cbn [app] in Hfill. rewrite Hfill in Hloop.
  injection Hloop as _ HX HY. now subst X Y.
Qed.

Lemma odd_or_regular (n : nat) :
  (2 <= n)%nat ->
  ((n mod 2 = 0 /\ 2 <= n)%nat \/ n = 3%nat) \/ (n mod 2 = 1 /\ 5 <= n)%nat.
Proof.
  intros Hn. pose proof (Nat.mod_upper_bound n 2 ltac:(lia)) as Hm.
  pose proof (Nat.div_mod_eq n 2) as Hd.
  destruct (Nat.eq_dec (n mod 2) 0) as [E|E]; [left; left; lia|].
  destruct (Nat.eq_dec n 3) as [E3|E3]; [left; right; exact E3|].
  right. lia.
Qed.

(** Every surrogate in the matrices of a call is a series of finite
    numbers with the magnitude spectrum of the standardised series it was
    made from. *)
Lemma surrogates_real (x y : list R) (nsim : Z)
    (seed : option seed_t) (w w1 : world) (X Y : matrix) :
  nonconstant x -> nonconstant y ->
  ebisuzaki_surrogates x y nsim seed w = (w1, Returns (X, Y)) ->
  length X = Z.to_nat nsim /\ length Y = Z.to_nat nsim
  /\ Forall (fun c => exists s, c = map Fin s /\ length s = length x
                /\ Rmagnitudes s = Rmagnitudes (Rzscore x)) X
  /\ Forall (fun c => exists s, c = map Fin s /\ length s = length y
                /\ Rmagnitudes s = Rmagnitudes (Rzscore y)) Y.
Proof.
  intros Hx Hy Hrun.
  apply ebisuzaki_surrogates_inv in Hrun.
  destruct Hrun as (Hlen & Hpos & Hnsim & Hloop).
  pose proof (nonconstant_length x Hx) as Hn.
  rewrite (zscore_fin x (nonconstant_Rvar x Hx)) in *.
  rewrite (zscore_fin y (nonconstant_Rvar y Hy)) in *.
  rewrite <- Hlen.
  set (n := length x) in *.
  assert (Hzx : length (Rzscore x) = n) by apply length_Rzscore.
  assert (Hzy : length (Rzscore y) = n) by (rewrite length_Rzscore; now symmetry).
  unfold range in Hloop.
  destruct (odd_or_regular n Hn) as [Hreg|[Hpar H5]].
  - apply loop_result_regular in Hloop;
      [ | assumption | now rewrite length_magnitudes, length_map
        | now rewrite length_magnitudes, length_map ].
    destruct Hloop as [-> ->].
    set (ps := fst (drawn_phases (Z.to_nat nsim) (n / 2 - 1)
                      (rng (fst (np_random_seed seed w))))).
    pose proof (drawn_phases_fin (Z.to_nat nsim) (n / 2 - 1)
                  (rng (fst (np_random_seed seed w)))) as Hfin.
    pose proof (proj1 (drawn_phases_lengths (Z.to_nat nsim) (n / 2 - 1)
                  (rng (fst (np_random_seed seed w))))) as Hk.
    fold ps in Hfin, Hk.
    unfold surrogates_x, surrogates_y. rewrite !length_map.
    split; [exact Hk|]. split; [exact Hk|].
    split; apply Forall_map; (eapply Forall_impl; [|exact Hfin]);
      intros p (px & py & Epx & Epy & Hlx & Hly); cbv beta.
    + rewrite Epx. destruct Hreg as [[Hpar H2]|H3].
      * now apply surrogate_of_even_real.
      * assert (px = [])
          by (destruct px; [reflexivity | rewrite H3 in Hlx; discriminate]).
        subst px. rewrite H3 in *. now apply surrogate_of_three_real.
    + rewrite Epy. destruct Hreg as [[Hpar H2]|H3].
      * now apply surrogate_of_even_real.
      * assert (py = [])
          by (destruct py; [reflexivity | rewrite H3 in Hly; discriminate]).
        subst py. rewrite H3 in *. now apply surrogate_of_three_real.
  - destruct (Z.to_nat nsim) as [|k] eqn:Ek.
    + cbn [seq for_each repeat] in Hloop. unfold ret in Hloop.
      injection Hloop as _ <- <-. repeat split; constructor.
    + exfalso.
      pose proof (for_each_first_raises n (n / 2)
        (magnitudes (map Fin (Rzscore x))) (magnitudes (map Fin (Rzscore y)))
        (ValueError msg_broadcast) k
        (repeat (repeat (Fin 0) n) (Datatypes.S k),
         repeat (repeat (Fin 0) n) (Datatypes.S k))
        (fst (np_random_seed seed w))) as Hfail.
      rewrite Hloop in Hfail. cbn [snd] in Hfail.
      assert (Hraise : @Returns (matrix * matrix) (X, Y)
                       = Raises (ValueError msg_broadcast)); [|discriminate].
      apply Hfail.
      * pose proof (Nat.div_mod_eq n 2). lia.
      * intros p Hp. apply surrogate_odd_raises; try assumption.
        now rewrite length_magnitudes, length_map.
Qed.

(** Every surrogate in the matrices of a call has the magnitude spectrum
    of the standardised series it was made from, and is standardised
    already. *)
Lemma surrogates_magnitudes (x y : list R) (nsim : Z)
    (seed : option seed_t) (w w1 : world) (X Y : matrix) :
  nonconstant x -> nonconstant y ->
  ebisuzaki_surrogates x y nsim seed w = (w1, Returns (X, Y)) ->
  length X = Z.to_nat nsim /\ length Y = Z.to_nat nsim
  /\ (forall sx, In sx X ->
        magnitudes sx = magnitudes (zscore (map Fin x)) /\ zscore sx = sx)
  /\ (forall sy, In sy Y ->
        magnitudes sy = magnitudes (zscore (map Fin y)) /\ zscore sy = sy).
Proof.
  intros Hx Hy Hrun.
  destruct (surrogates_real x y nsim seed w w1 X Y Hx Hy Hrun)
    as (HlX & HlY & HX & HY).
  rewrite Forall_forall in HX, HY.
  split; [exact HlX|]. split; [exact HlY|].
  split.
  - intros sx Hsx. destruct (HX sx Hsx) as (s & -> & Hl & Hmag).
    rewrite (zscore_fin x (nonconstant_Rvar x Hx)), !magnitudes_fin, Hmag.
    split; [reflexivity|].
    destruct (same_magnitudes_standardised x s (nonconstant_Rvar x Hx) Hl Hmag)
      as [Hv Hz].
    rewrite zscore_fin by (rewrite Hv; lra). now rewrite Hz.
  - intros sy Hsy. destruct (HY sy Hsy) as (s & -> & Hl & Hmag).
    rewrite (zscore_fin y (nonconstant_Rvar y Hy)), !magnitudes_fin, Hmag.
    split; [reflexivity|].
    destruct (same_magnitudes_standardised y s (nonconstant_Rvar y Hy) Hl Hmag)
      as [Hv Hz].
    rewrite zscore_fin by (rewrite Hv; lra). now rewrite Hz.
Qed.

(** The matrices of a call on inputs of equal even length. *)
Lemma ebisuzaki_surrogates_even_run (x y : list R) (nsim : Z)
    (seed : option seed_t) (w : world) :
  length x = length y -> (length x mod 2 = 0)%nat -> (2 <= length x)%nat ->
  (0 <= nsim)%Z ->
  let n := length x in
  let w0 := fst (np_random_seed seed w) in
  let ps := drawn_phases (Z.to_nat nsim) (n / 2 - 1) (rng w0) in
  ebisuzaki_surrogates x y nsim seed w
  = (World (snd ps) (os w0) (stdout w0),
     Returns (surrogates_x n (magnitudes (zscore (map Fin x))) (fst ps),
              surrogates_y n (magnitudes (zscore (map Fin y))) (fst ps))).
Proof.
  intros Hlen Hpar Hn Hnsim n w0 ps.
  unfold ebisuzaki_surrogates. rewrite bind_seed. fold w0.
  rewrite !length_zscore, !length_map, <- Hlen, Nat.eqb_refl. cbn [negb].
  unfold bind, lift.
  rewrite np_corrcoef_same_length
    by (rewrite !length_zscore, !length_map; exact Hlen).
  rewrite !np_fft_fft_nonempty
    by (apply length_nonempty; rewrite length_map, length_zscore, length_map; lia).
  unfold np_zeros.
  replace (nsim <? 0)%Z with false by (symmetry; apply Z.ltb_ge; lia).
  fold (magnitudes (zscore (map Fin x))). fold (magnitudes (zscore (map Fin y))).
  fold n.
  assert (HS : forall m p, length m = n -> length p = (n / 2 - 1)%nat ->
             surrogate n m p = Returns (surrogate_of n m p)
             /\ length (surrogate_of n m p) = n).
  { intros m p Hm Hp. unfold surrogate_of.
    destruct (surrogate_even n m p Hpar Hn Hm Hp) as [Hs Hl].
    rewrite Hs. now split. }
  assert (Hn2 : (1 <= n / 2)%nat)
    by (pose proof (Nat.div_mod_eq n 2); unfold n in *; lia).
  pose proof (for_each_fills_columns (surrogate_of n) n (n / 2)
    (magnitudes (zscore (map Fin x))) (magnitudes (zscore (map Fin y)))
    Hn2 HS) as Hfill.
  unfold range.
  specialize (Hfill
    ltac:(unfold n; now rewrite length_magnitudes, length_zscore, length_map)
    ltac:(unfold n; rewrite length_magnitudes, length_zscore, length_map;
          now symmetry)
    (Z.to_nat nsim) 0%nat [] []
    (repeat (repeat (Fin 0) n) (Z.to_nat nsim))
    (repeat (repeat (Fin 0) n) (Z.to_nat nsim)) w0
    eq_refl eq_refl (repeat_length _ _) (repeat_length _ _)).
  cbn [app] in Hfill. etransitivity; [exact Hfill | reflexivity].
Qed.

(** C6.  In exact arithmetic, every surrogate sequence in the matrices
    [X] and [Y] that the loop of a call on non-constant series leaves has
    the magnitudes of the discrete Fourier transform of the standardised
    series it was made from: [np.abs(np.fft.fft(X[:, i]))] is [modx] and
    [np.abs(np.fft.fft(Y[:, i]))] is [mody], for each of the [nsim]
    columns.  Each column has mean zero and unit variance already, so
    the standardisation that follows the loop leaves it, and with it its
    magnitudes, as it is. *)
Theorem surrogates_keep_the_magnitude_spectrum (x y : list R) (nsim : Z)
    (seed : option seed_t) (w w1 : world) (X Y : matrix) :
  nonconstant x -> nonconstant y ->
  ebisuzaki_surrogates x y nsim seed w = (w1, Returns (X, Y)) ->
  (forall sx, In sx X ->
     magnitudes sx = magnitudes (zscore (map Fin x)) /\ zscore sx = sx)
  /\ (forall sy, In sy Y ->
        magnitudes sy = magnitudes (zscore (map Fin y)) /\ zscore sy = sy)
  /\ length X = Z.to_nat nsim /\ length Y = Z.to_nat nsim.
Proof.
  intros Hx Hy Hrun.
  destruct (surrogates_magnitudes x y nsim seed w w1 X Y Hx Hy Hrun)
    as (HlX & HlY & HX & HY).
  split; [exact HX|]. split; [exact HY|]. split; assumption.
Qed.

End Properties.

(** * Concrete calls *)

(** A call on two anti-correlated series of two points. *)
Lemma two_point_run :
  ebisuzaki (NR := lcg) [-1; 1] [1; -1] level_half 1 (Some 7%Z) world0
  = (World (NR := lcg) 7%Z 0%Z
       [Rule; Observed (Fin (-1)); Critical (Fin 1); Fraction (Fin 0)],
     Returns [PyFloat (Fin 0); PyArray [Fin 1]; PyFloat (Fin (-1))]).
Proof.
  rewrite ebisuzaki_regular_run;
    [ | reflexivity | simpl; lia | lia
      | apply surrogate_even_exists; [reflexivity | simpl; lia] ].
  cbv zeta.
  rewrite !zscore_fin by (rewrite ?Rvar_down_up, ?Rvar_up_down; lra).
  rewrite Rzscore_down_up, Rzscore_up_down, !magnitudes_fin, !Rmagnitudes_two.
  change (length [-1; 1]) with 2%nat.
  change (Z.to_nat 1) with 1%nat.
  change (2 / 2 - 1)%nat with 0%nat.
  cbn [drawn_phases uniform_phases draw map fst snd surrogates_x surrogates_y].
  rewrite !surrogate_of_two.
  replace ((Rabs (-1 + 1) + Rabs (-1 - 1)) / 2) with 1.
  2:{ replace (-1 + 1) with 0 by ring. replace (-1 - 1) with (- (2)) by ring.
      rewrite Rabs_R0, Rabs_Ropp, (Rabs_pos_eq 2) by lra. field. }
  replace ((Rabs (-1 + 1) - Rabs (-1 - 1)) / 2) with (-1).
  2:{ replace (-1 + 1) with 0 by ring. replace (-1 - 1) with (- (2)) by ring.
      rewrite Rabs_R0, Rabs_Ropp, (Rabs_pos_eq 2) by lra. field. }
  replace ((Rabs (1 + -1) + Rabs (1 - -1)) / 2) with 1.
  2:{ replace (1 + -1) with 0 by ring. replace (1 - -1) with 2 by ring.
      rewrite Rabs_R0, (Rabs_pos_eq 2) by lra. field. }
  replace ((Rabs (1 + -1) - Rabs (1 - -1)) / 2) with (-1).
  2:{ replace (1 + -1) with 0 by ring. replace (1 - -1) with 2 by ring.
      rewrite Rabs_R0, (Rabs_pos_eq 2) by lra. field. }
  unfold correlations. cbn [combine map fst snd].
  rewrite pearson_up_down_twice, pearson_down_up_vs_up_down.
  rewrite critical_value_single, fraction_larger_tie.
  reflexivity.
Qed.

Lemma length_mismatch_is_fatal_witness :
  length [1] <> length [1; 2]
  /\ snd (ebisuzaki [1] [1; 2] level_default 1000 (Some 7%Z) world0)
     = Raises (ValueError msg_size).
Proof.
  assert (H : length [1] <> length [1; 2]) by (simpl; lia).
  split; [exact H|].
  exact (proj1 (length_mismatch_is_fatal (NR := lcg) [1] [1; 2] level_default 1000
                  (Some 7%Z) world0 H)).
Defined.

Lemma reseed_precedes_length_check_witness :
  length [1] <> length [1; 2]
  /\ rng (fst (ebisuzaki [1] [1; 2] level_default 1000 (Some 7%Z) world0)) = 7%Z
  /\ rng (fst (ebisuzaki [1] [1; 2] level_default 1000 (Some 7%Z) world0))
     <> rng world0.
Proof.
  assert (H : length [1] <> length [1; 2]) by (simpl; lia).
  destruct (reseed_precedes_length_check (NR := lcg) [1] [1; 2] level_default 1000
              (Some 7%Z) world0 H) as (_ & Hr & Hm).
  split; [exact H|]. split; [exact Hr|].
  apply Hm. simpl. discriminate.
Defined.



Lemma odd_length_returns_no_array_witness :
  length [1; 2; 3; 4; 5] = length [2; 1; 4; 3; 5]
  /\ forall res,
       snd (ebisuzaki [1; 2; 3; 4; 5] [2; 1; 4; 3; 5] level_default 1000
              (Some 7%Z) world0)
       <> Returns res.
Proof.
  assert (H : length [1; 2; 3; 4; 5] = length [2; 1; 4; 3; 5]) by reflexivity.
  split; [exact H|].
  apply (odd_length_returns_no_array (NR := lcg) [1; 2; 3; 4; 5] [2; 1; 4; 3; 5] level_default
           1000 (Some 7%Z) world0 H); [reflexivity | simpl; lia | lia].
Defined.

(** C2 fails as stated: the critical value of this call is 1, and the
    returned tuple [(0, [1], -1)] does not contain it. *)
Lemma critical_value_is_not_returned :
  snd (ebisuzaki [-1; 1] [1; -1] level_half 1 (Some 7%Z) world0)
  = Returns [PyFloat (Fin 0); PyArray [Fin 1]; PyFloat (Fin (-1))]
  /\ critical_value [Fin 1] level_half 1 = Returns (Fin 1)
  /\ ~ In (PyFloat (Fin 1))
          [PyFloat (Fin 0); PyArray [Fin 1]; PyFloat (Fin (-1))].
Proof.
  rewrite two_point_run. split; [reflexivity|].
  split; [apply critical_value_single|].
  intros [H|[H|[H|[]]]]; try discriminate; injection H; lra.
Qed.

Lemma critical_value_is_printed_witness :
  exists res,
    snd (ebisuzaki [-1; 1] [1; -1] level_half 1 (Some 7%Z) world0) = Returns res
    /\ exists (F : float) (rSim : list float) (r_real cv : float),
         res = [PyFloat F; PyArray rSim; PyFloat r_real]
         /\ stdout (fst (ebisuzaki [-1; 1] [1; -1] level_half 1 (Some 7%Z) world0))
            = stdout world0 ++ [Rule; Observed r_real; Critical cv; Fraction F].
Proof.
  exists [PyFloat (Fin 0); PyArray [Fin 1]; PyFloat (Fin (-1))].
  assert (H : snd (ebisuzaki [-1; 1] [1; -1] level_half 1 (Some 7%Z) world0)
              = Returns [PyFloat (Fin 0); PyArray [Fin 1]; PyFloat (Fin (-1))])
    by (now rewrite two_point_run).
  split; [exact H|].
  destruct (critical_value_is_printed (NR := lcg) _ _ _ _ _ _ _ H)
    as (F & rSim & r_real & cv & i & Hres & _ & _ & _ & _ & _ & _ & Hout).
  exists F, rSim, r_real, cv. split; assumption.
Defined.



Lemma surrogates_keep_the_magnitude_spectrum_witness :
  nonconstant [-1; 1] /\ nonconstant [1; -1]
  /\ exists (w1 : world) (X Y : matrix),
       ebisuzaki_surrogates [-1; 1] [1; -1] 1 (Some 7%Z) world0
       = (w1, Returns (X, Y))
       /\ length X = 1%nat
       /\ forall sx, In sx X ->
            magnitudes sx = magnitudes (zscore (map Fin [-1; 1])).
Proof.
  assert (Hx : nonconstant [-1; 1]).
  { exists (-1), 1. repeat split; [now left | right; now left | lra]. }
  assert (Hy : nonconstant [1; -1]).
  { exists 1, (-1). repeat split; [now left | right; now left | lra]. }
  split; [exact Hx|]. split; [exact Hy|].
  pose proof (ebisuzaki_surrogates_even_run (NR := lcg) [-1; 1] [1; -1] 1
                (Some 7%Z) world0 eq_refl eq_refl) as Hrun.
  cbv zeta in Hrun.
  specialize (Hrun ltac:(simpl; lia) ltac:(lia)).
  eexists _, _, _. split; [exact Hrun|].
  destruct (surrogates_keep_the_magnitude_spectrum (NR := lcg) _ _ _ _ _ _ _ _
              Hx Hy Hrun) as (HX & _ & HlX & _).
  split; [exact HlX | exact (fun sx Hsx => proj1 (HX sx Hsx))].
Defined.

(** * Further properties *)

Section MoreProperties.

Context {NR : NumpyRandom} {SS : ScipyStats}.

(** ** Rescaled and shifted series *)

Lemma length_affine (a b : R) (l : list R) : length (affine a b l) = length l.
Proof. apply length_map. Qed.

Lemma empty_or_not {A : Type} (l : list A) : l = [] \/ l <> [].
Proof. destruct l; [now left | right; discriminate]. Qed.

Lemma affine_nonempty (a b : R) (l : list R) : l <> [] -> affine a b l <> [].
Proof. destruct l; [congruence | discriminate]. Qed.

Lemma Rsum_affine (a b : R) (l : list R) :
  Rsum (affine a b l) = a * Rsum l + INR (length l) * b.
Proof.
  unfold affine, Rsum. induction l as [|v l IH].
  - simpl. ring.
  - cbn [map fold_right length]. rewrite IH, S_INR. ring.
Qed.

Lemma Rmean_affine (a b : R) (l : list R) :
  l <> [] -> Rmean (affine a b l) = a * Rmean l + b.
Proof.
  intros Hl. unfold Rmean. rewrite Rsum_affine, length_affine.
  assert (INR (length l) <> 0)
    by (apply not_0_INR; destruct l; simpl; congruence).
  field. assumption.
Qed.

Lemma Rvar_affine (a b : R) (l : list R) :
  Rvar (affine a b l) = a * a * Rvar l.
Proof.
  destruct (empty_or_not l) as [->|Hl].
  - unfold Rvar, Rmean. simpl. unfold Rdiv. rewrite Rinv_0. ring.
  - unfold Rvar. rewrite Rmean_affine by assumption.
    set (m := Rmean l). unfold Rmean.
    rewrite !length_map, length_affine.
    unfold affine. rewrite map_map.
    rewrite (Rsum_map_ext _ (fun v => (v - m) * (v - m) * (a * a)))
      by (intros; cbv beta; ring).
    rewrite (Rsum_map_scale (fun v => (v - m) * (v - m))).
    unfold Rdiv. ring.
Qed.

Lemma sqrt_scaled (a v : R) : 0 <= v -> sqrt (a * a * v) = Rabs a * sqrt v.
Proof.
  intros Hv. rewrite sqrt_mult by nra.
  now rewrite <- (sqrt_Rsqr_abs a).
Qed.

Lemma Rzscore_affine (a b : R) (l : list R) :
  a <> 0 -> Rvar l <> 0 ->
  Rzscore (affine a b l) = map (fun v => a / Rabs a * v) (Rzscore l).
Proof.
  intros Ha Hv.
  assert (Hl : l <> []).
  { intros ->. apply Hv. unfold Rvar, Rmean. simpl. unfold Rdiv.
    rewrite Rinv_0. ring. }
  unfold Rzscore. rewrite Rvar_affine, Rmean_affine by assumption.
  rewrite sqrt_scaled by apply Rvar_nonneg.
  unfold affine. rewrite !map_map. apply map_ext. intros v.
  assert (sqrt (Rvar l) <> 0).
  { intros Hs. apply sqrt_eq_0 in Hs; [contradiction | apply Rvar_nonneg]. }
  assert (Rabs a <> 0) by now apply Rabs_no_R0.
  field. split; assumption.
Qed.

Lemma Rzscore_affine_neg (a b : R) (l : list R) :
  a < 0 -> Rvar l <> 0 -> Rzscore (affine a b l) = map Ropp (Rzscore l).
Proof.
  intros Ha Hv. rewrite Rzscore_affine by (assumption || lra).
  apply map_ext. intros v. rewrite Rabs_left by lra. field. lra.
Qed.

Lemma constant_affine (a b : R) (l : list R) :
  constant l -> constant (affine a b l).
Proof.
  intros Hc u v Hu Hv. unfold affine in *.
  apply in_map_iff in Hu. destruct Hu as (u0 & <- & Hu0).
  apply in_map_iff in Hv. destruct Hv as (v0 & <- & Hv0).
  now rewrite (Hc u0 v0 Hu0 Hv0).
Qed.

(** Negating a series negates its standardised form. *)
Lemma zscore_opp (l : list R) :
  zscore (map Fin (map Ropp l)) = map fneg (zscore (map Fin l)).
Proof.
  assert (Eaff : map Ropp l = affine (-1) 0 l).
  { unfold affine. apply map_ext. intros v. ring. }
  rewrite Eaff.
  destruct (Req_dec (Rvar l) 0) as [Hv|Hv].
  - destruct (empty_or_not l) as [->|Hl]; [reflexivity|].
    pose proof (Rvar_zero_constant l Hv) as Hc.
    rewrite (zscore_constant (affine (-1) 0 l))
      by (now apply constant_affine || now apply affine_nonempty).
    rewrite (zscore_constant l) by assumption.
    rewrite length_affine. clear. induction (length l); simpl; congruence.
  - rewrite !zscore_fin; try assumption.
    + rewrite Rzscore_affine_neg by (assumption || lra).
      now rewrite !map_map.
    + rewrite Rvar_affine. intros H0. apply Hv. lra.
Qed.

(** ** The correlation of rescaled and of standardised series *)

Lemma combine_map {A B A' B' : Type} (f : A -> A') (g : B -> B')
    (x : list A) (y : list B) :
  combine (map f x) (map g y)
  = map (fun p => (f (fst p), g (snd p))) (combine x y).
Proof.
  revert y. induction x as [|a x IH]; intros y; simpl; [reflexivity|].
  destruct y as [|b y]; simpl; [reflexivity|]. now rewrite IH.
Qed.

Lemma combine_self {A : Type} (x : list A) :
  combine x x = map (fun v => (v, v)) x.
Proof. induction x as [|a x IH]; simpl; [reflexivity | now rewrite IH]. Qed.

Lemma Rsum_scaled {A : Type} (f : A -> R) (c : R) (l : list A) :
  Rsum (map (fun v => c * f v) l) = c * Rsum (map f l).
Proof.
  unfold Rsum. induction l as [|a l IH]; simpl; [ring|]. rewrite IH. ring.
Qed.

Lemma Rsum_ext {A : Type} (f g : A -> R) (l : list A) :
  (forall v, f v = g v) -> Rsum (map f l) = Rsum (map g l).
Proof. intros H. f_equal. now apply map_ext. Qed.


Lemma Rcov_self (x : list R) :
  Rcov x x = Rvar x * INR (length x) / (INR (length x) - 1).
Proof.
  destruct (empty_or_not x) as [->|Hx].
  - unfold Rcov, Rvar, Rmean. simpl. unfold Rdiv. rewrite Rinv_0. ring.
  - unfold Rcov, Rvar. set (m := Rmean x). unfold Rmean.
    rewrite combine_self, map_map, length_map. cbn [fst snd].
    assert (INR (length x) <> 0)
      by (apply not_0_INR; destruct x; simpl; congruence).
    unfold Rdiv. set (S := Rsum _). set (n := INR _) in *.
    replace (S * / n * n) with S by (field; assumption). ring.
Qed.

Lemma Rcov_self_pos (x : list R) :
  (2 <= length x)%nat -> Rvar x <> 0 -> 0 < Rcov x x.
Proof.
  intros Hn Hv. rewrite Rcov_self.
  assert (2 <= INR (length x)) by (apply (le_INR 2); lia).
  pose proof (Rvar_nonneg x).
  apply Rmult_lt_0_compat; [|apply Rinv_0_lt_compat; lra]. nra.
Qed.

Lemma Rcov_self_zero (x : list R) : Rvar x = 0 -> Rcov x x = 0.
Proof. intros Hv. rewrite Rcov_self, Hv. unfold Rdiv. ring. Qed.

Lemma Rclip_opp (t : R) : Rclip (-1) 1 (- t) = - Rclip (-1) 1 t.
Proof.
  unfold Rclip.
  destruct (Rlt_dec (- t) (-1)), (Rlt_dec t (-1)), (Rlt_dec 1 (- t)),
    (Rlt_dec 1 t); lra.
Qed.


Lemma sign_ratio_pos (a c : R) : 0 < a * c -> a * c / (Rabs a * Rabs c) = 1.
Proof.
  intros H. rewrite <- Rabs_mult, Rabs_right by lra.
  apply Rdiv_diag. lra.
Qed.

Lemma sign_ratio_neg (a c : R) : a * c < 0 -> a * c / (Rabs a * Rabs c) = -1.
Proof.
  intros H. rewrite <- Rabs_mult, Rabs_left by lra.
  unfold Rdiv. rewrite Rinv_opp.
  replace (a * c * - / (a * c)) with (- (a * c * / (a * c))) by ring.
  rewrite Rinv_r; lra.
Qed.



Lemma Rvar_nonempty (l : list R) : Rvar l <> 0 -> l <> [].
Proof.
  intros Hv ->. apply Hv. unfold Rvar, Rmean. simpl. unfold Rdiv.
  rewrite Rinv_0. ring.
Qed.





(** [np.corrcoef] on arrays that give it no number. *)
Lemma pearson_short (x y : list float) :
  (length x <= 1)%nat -> pearson x y = NaN.
Proof.
  intros Hn. unfold pearson.
  assert (Hc : np_cov x y = NaN).
  { unfold np_cov.
    replace (length x <=? 1)%nat with true by (symmetry; now apply Nat.leb_le).
    rewrite (fdiv_zero (Fin 1) (Fin 0)) by reflexivity. apply fmul_nan_r. }
  rewrite Hc. reflexivity.
Qed.

Lemma fdiv_nan_l (b : float) : fdiv NaN b = NaN.
Proof. reflexivity. Qed.

Lemma pearson_constant (x y : list R) :
  (2 <= length x)%nat -> length x = length y ->
  Rvar x = 0 \/ Rvar y = 0 ->
  pearson (map Fin x) (map Fin y) = NaN.
Proof.
  intros Hn Hlen Hv. unfold pearson.
  rewrite !np_cov_fin by lia.
  destruct Hv as [Hv|Hv].
  - rewrite (Rcov_self_zero x Hv), fsqrt_fin, sqrt_0 by lra.
    rewrite (fdiv_zero _ (Fin 0)) by reflexivity. reflexivity.
  - rewrite (Rcov_self_zero y Hv), (fsqrt_fin 0), sqrt_0 by lra.
    rewrite (fdiv_zero _ (Fin 0)) by reflexivity. reflexivity.
Qed.



(** ** Negated arrays *)

Lemma fneg_fneg (a : float) : fneg (fneg a) = a.
Proof. destruct a; simpl; [f_equal; ring | reflexivity]. Qed.

Lemma fabs_fneg (a : float) : fabs (fneg a) = fabs a.
Proof. destruct a; simpl; [f_equal; apply Rabs_Ropp | reflexivity]. Qed.

Lemma fadd_fneg (a b : float) : fadd (fneg a) (fneg b) = fneg (fadd a b).
Proof. destruct a, b; simpl; try reflexivity. f_equal. ring. Qed.

Lemma fmul_fneg_l (a b : float) : fmul (fneg a) b = fneg (fmul a b).
Proof. destruct a, b; simpl; try reflexivity. f_equal. ring. Qed.

Lemma fdiv_fneg_l (a b : float) : fdiv (fneg a) b = fneg (fdiv a b).
Proof.
  destruct a as [x|], b as [y|]; simpl; try reflexivity.
  destruct (Req_dec_T y 0); simpl; [reflexivity|]. f_equal. now field.
Qed.

Lemma np_clip_fneg (a : float) :
  np_clip (-1) 1 (fneg a) = fneg (np_clip (-1) 1 a).
Proof.
  destruct a as [x|]; simpl; [|reflexivity]. f_equal. apply Rclip_opp.
Qed.

Lemma fsum_fneg {A : Type} (f : A -> float) (l : list A) :
  fsum (map (fun v => fneg (f v)) l) = fneg (fsum (map f l)).
Proof.
  unfold fsum. induction l as [|a l IH]; cbn [map fold_right].
  - simpl. f_equal. ring.
  - rewrite IH. apply fadd_fneg.
Qed.

Lemma np_mean_fneg (l : list float) : np_mean (map fneg l) = fneg (np_mean l).
Proof.
  unfold np_mean. rewrite length_map.
  rewrite <- (map_id l) at 2. rewrite (fsum_fneg (fun v => v)), map_id.
  apply fdiv_fneg_l.
Qed.

Lemma np_cov_fneg_l (x y : list float) :
  np_cov (map fneg x) y = fneg (np_cov x y).
Proof.
  unfold np_cov. rewrite np_mean_fneg, length_map.
  rewrite <- (map_id y) at 1. rewrite combine_map, map_map. cbn [fst snd].
  rewrite (map_ext _
    (fun p => fneg (fmul (fsub (fst p) (np_mean x)) (fsub (snd p) (np_mean y))))).
  - rewrite fsum_fneg. apply fmul_fneg_l.
  - intros [u v]. cbn [fst snd]. unfold id.
    destruct u, v, (np_mean x), (np_mean y); simpl; try reflexivity.
    f_equal. ring.
Qed.

Lemma np_cov_fneg_both (x : list float) :
  np_cov (map fneg x) (map fneg x) = np_cov x x.
Proof.
  unfold np_cov. rewrite np_mean_fneg, length_map.
  rewrite combine_map, map_map. cbn [fst snd]. f_equal. f_equal.
  apply map_ext. intros [u v]. cbn [fst snd].
  destruct u, v, (np_mean x); simpl; try reflexivity. f_equal. ring.
Qed.

(** Negating one array negates the correlation. *)
Lemma pearson_fneg_l (x y : list float) :
  pearson (map fneg x) y = fneg (pearson x y).
Proof.
  unfold pearson. rewrite np_cov_fneg_l, np_cov_fneg_both.
  rewrite !fdiv_fneg_l. apply np_clip_fneg.
Qed.

Lemma cadd_cneg (a b : complex) : cadd (cneg a) (cneg b) = cneg (cadd a b).
Proof.
  unfold cadd, cneg. cbn [re im]. now rewrite !fadd_fneg.
Qed.

Lemma cmul_cneg_l (a b : complex) : cmul (cneg a) b = cneg (cmul a b).
Proof.
  destruct a as [[x|] [y|]], b as [[u|] [v|]];
    unfold cmul, cneg; cbn; try reflexivity.
  f_equal; f_equal; ring.
Qed.

Lemma csum_cneg (f : nat -> complex) (n : nat) :
  csum (fun m => cneg (f m)) n = cneg (csum f n).
Proof.
  induction n as [|n IH]; cbn [csum].
  - unfold cneg. cbn. f_equal; f_equal; ring.
  - rewrite IH. apply cadd_cneg.
Qed.

Lemma np_abs_cneg (z : complex) : np_abs (cneg z) = np_abs z.
Proof.
  destruct z as [[x|] [y|]]; unfold np_abs, cneg; cbn; try reflexivity.
  replace (- x * - x + - y * - y) with (x * x + y * y) by ring. reflexivity.
Qed.

Lemma of_real_fneg (v : float) : of_real (fneg v) = cneg (of_real v).
Proof.
  unfold of_real, cneg. cbn. f_equal. f_equal. ring.
Qed.

(** A series and its negative have the same magnitude spectrum. *)
Lemma magnitudes_fneg (z : list float) :
  magnitudes (map fneg z) = magnitudes z.
Proof.
  unfold magnitudes, dft. rewrite !length_map, !map_map.
  apply map_ext_in. intros k _.
  rewrite <- (np_abs_cneg (csum _ (length z))), <- csum_cneg.
  f_equal. apply csum_ext. intros m Hm.
  rewrite <- cmul_cneg_l. f_equal.
  rewrite (nth_indep _ (of_real (Fin 0)) (of_real (fneg NaN)))
    by (now rewrite length_map).
  rewrite (map_nth (fun v => of_real (fneg v)) z NaN).
  rewrite (nth_indep _ (of_real (Fin 0)) (of_real NaN))
    by (now rewrite length_map).
  rewrite (map_nth of_real z NaN).
  destruct (nth m z NaN); unfold cneg, of_real; cbn;
    f_equal; try reflexivity; f_equal; ring.
Qed.

(** ** The unit, the origin and the sign of the input series *)

Lemma ebisuzaki_surrogates_opp (x y : list R) (nsim : Z)
    (seed : option seed_t) (w : world) :
  ebisuzaki_surrogates (map Ropp x) y nsim seed w
  = ebisuzaki_surrogates x y nsim seed w.
Proof.
  unfold ebisuzaki_surrogates. rewrite !bind_seed, zscore_opp.
  set (zx := zscore (map Fin x)). set (zy := zscore (map Fin y)).
  cbv zeta. rewrite length_map.
  destruct (length zx =? length zy)%nat eqn:E; cbn [negb]; [|reflexivity].
  apply Nat.eqb_eq in E.
  unfold bind, lift.
  rewrite !np_corrcoef_same_length by (now rewrite ?length_map).
  destruct (empty_or_not zx) as [E0|Hne]; [now rewrite E0|].
  rewrite (np_fft_fft_nonempty (map of_real (map fneg zx)))
    by (destruct zx; [congruence | discriminate]).
  rewrite (np_fft_fft_nonempty (map of_real zx))
    by (destruct zx; [congruence | discriminate]).
  change (map np_abs (dft (-1) (map of_real (map fneg zx))))
    with (magnitudes (map fneg zx)).
  now rewrite magnitudes_fneg.
Qed.

Lemma fraction_larger_fneg (rSim : list float) (r_real : float) (nsim : Z) :
  fraction_larger rSim (fneg r_real) nsim = fraction_larger rSim r_real nsim.
Proof. unfold fraction_larger. now rewrite fabs_fneg. Qed.

(** X2.  The test is two-sided: negating [x] negates the observed
    correlation that is returned and changes nothing else, neither the
    fraction [F], nor the surrogate correlations, nor an exception, nor
    the state the generator is left in. *)
Theorem negated_series_negates_observed_correlation (x y : list R)
    (level : pyfloat) (nsim : Z) (seed : option seed_t) (w : world) :
  snd (ebisuzaki (map Ropp x) y level nsim seed w)
  = match snd (ebisuzaki x y level nsim seed w) with
    | Returns [PyFloat F; PyArray rSim; PyFloat r_real] =>
        Returns [PyFloat F; PyArray rSim; PyFloat (fneg r_real)]
    | other => other
    end
  /\ rng (fst (ebisuzaki (map Ropp x) y level nsim seed w))
     = rng (fst (ebisuzaki x y level nsim seed w)).
Proof.
  rewrite !ebisuzaki_through_surrogates, ebisuzaki_surrogates_opp.
  destruct (ebisuzaki_surrogates x y nsim seed w) as [w1 [XY|e]];
    [|split; reflexivity].
  cbv zeta.
  destruct (surrogate_correlations (fst XY) (snd XY) nsim) as [rSim|e];
    [|split; reflexivity].
  rewrite zscore_opp, pearson_fneg_l, fraction_larger_fneg.
  destruct (critical_value rSim level nsim) as [cv|e]; split; reflexivity.
Qed.

(** ** What a call on series that are not constant returns *)

Lemma ebisuzaki_returns_nsim (x y : list R) (level : pyfloat) (nsim : Z)
    (seed : option seed_t) (w : world) (res : list pyval) :
  snd (ebisuzaki x y level nsim seed w) = Returns res -> (0 < nsim)%Z.
Proof.
  intros Hrun.
  destruct (ebisuzaki_returns_inv x y level nsim seed w _ Hrun)
    as (rSim & cv & _ & _ & Hnsim & Hl & Hcv & _).
  destruct (critical_value_threshold rSim level nsim cv Hl Hnsim Hcv)
    as (i & _ & Hi & _).
  lia.
Qed.

Lemma np_clip_bounds (a : float) (r : R) :
  np_clip (-1) 1 a = Fin r -> -1 <= r <= 1.
Proof.
  destruct a as [v|]; [|discriminate]. cbn. intros H. injection H as <-.
  apply (Rclip_bounds v).
Qed.

Lemma pearson_bounds (x y : list float) (r : R) :
  pearson x y = Fin r -> -1 <= r <= 1.
Proof. unfold pearson. apply np_clip_bounds. Qed.

Lemma omap_Forall {A B : Type} (f : A -> outcome B) (l : list A)
    (bs : list B) :
  omap f l = Returns bs ->
  Forall (fun b => exists a, In a l /\ f a = Returns b) bs.
Proof.
  revert bs. induction l as [|a l IH]; intros bs H; cbn [omap] in H.
  - injection H as <-. constructor.
  - destruct (f a) as [b|e] eqn:Ea; [|discriminate]. cbn [obind] in H.
    destruct (omap f l) as [bs'|e] eqn:El; [|discriminate].
    cbn [obind] in H. injection H as <-.
    constructor.
    + exists a. split; [now left | assumption].
    + eapply Forall_impl; [|exact (IH bs' eq_refl)].
      intros b' (a' & Ha' & Hb). exists a'. split; [now right | assumption].
Qed.

(** Every surrogate correlation is an entry of [np.corrcoef]. *)
Lemma surrogate_correlations_clipped (X Y : matrix) (nsim : Z)
    (rSim : list float) :
  surrogate_correlations X Y nsim = Returns rSim ->
  Forall (fun v => forall r, v = Fin r -> -1 <= r <= 1) rSim.
Proof.
  intros H. unfold surrogate_correlations in H. apply omap_Forall in H.
  eapply Forall_impl; [|exact H].
  intros v (i & _ & Hv) r ->.
  destruct (column (map zscore X) i) as [xi|e]; [|discriminate].
  destruct (column (map zscore Y) i) as [yi|e]; [|discriminate].
  cbn [obind] in Hv. unfold np_corrcoef in Hv.
  destruct (length xi =? length yi)%nat; [|discriminate].
  injection Hv as Hv. now apply (pearson_bounds xi yi).
Qed.

(** What [ebisuzaki] returns, whatever the series: a fraction that is a
    number, and correlations that are NaN or in the range of a
    correlation. *)
Lemma ebisuzaki_returns_clipped (x y : list R) (level : pyfloat) (nsim : Z)
    (seed : option seed_t) (w : world)
    (F r_real : float) (rSim : list float) :
  snd (ebisuzaki x y level nsim seed w)
  = Returns [PyFloat F; PyArray rSim; PyFloat r_real] ->
  (exists f, F = Fin f /\ 0 <= f <= 1)
  /\ (forall r, r_real = Fin r -> -1 <= r <= 1)
  /\ length rSim = Z.to_nat nsim
  /\ Forall (fun v => forall r, v = Fin r -> -1 <= r <= 1) rSim.
Proof.
  intros Hrun.
  pose proof (ebisuzaki_returns_nsim _ _ _ _ _ _ _ Hrun) as Hnsim.
  destruct (ebisuzaki_returns_inv x y level nsim seed w _ Hrun)
    as (rSim' & cv & Hlen & Hpos & _ & Hl & _ & Hres & _).
  injection Hres as -> <- ->.
  split; [|split; [|split]].
  - rewrite fraction_larger_value by assumption. eexists. split; [reflexivity|].
    apply fraction_in_unit_interval; [assumption|].
    rewrite <- Hl. apply count_larger_le.
  - intros r. apply pearson_bounds.
  - assumption.
  - revert Hrun. rewrite ebisuzaki_run by (assumption || lia). cbv zeta.
    destruct (for_each _ _ _ _) as [w1 [XY|e]]; [|discriminate].
    destruct (surrogate_correlations _ _ _) as [rSim0|e] eqn:Hr;
      [|discriminate].
    destruct (critical_value rSim0 level nsim) as [cv0|e]; [|discriminate].
    cbn [snd]. intros H. injection H as _ <-.
    now apply (surrogate_correlations_clipped _ _ _ _ Hr).
Qed.

(** X4.  Whatever the series, what a call returns is in the range of what
    it stands for: the fraction [F] is a number between [0] and [1], never
    NaN; the observed correlation and each of the [nsim] surrogate
    correlations is NaN or lies between [-1] and [1]. *)
Theorem returned_values_are_in_range (x y : list R) (level : pyfloat)
    (nsim : Z) (seed : option seed_t) (w : world)
    (F r_real : float) (rSim : list float) :
  snd (ebisuzaki x y level nsim seed w)
  = Returns [PyFloat F; PyArray rSim; PyFloat r_real] ->
  (exists f, F = Fin f /\ 0 <= f <= 1)
  /\ (forall r, r_real = Fin r -> -1 <= r <= 1)
  /\ length rSim = Z.to_nat nsim
  /\ Forall (fun v => forall r, v = Fin r -> -1 <= r <= 1) rSim.
Proof. apply ebisuzaki_returns_clipped. Qed.

(** ** Series of two or three points *)

Lemma drawn_phases_none (k : nat) (g : rng_state) :
  drawn_phases k 0 g = (repeat ([], []) k, g).
Proof.
  induction k as [|k IH]; [reflexivity|].
  cbn [drawn_phases]. unfold uniform_phases. cbn [draw fst snd map].
  now rewrite IH.
Qed.

Lemma combine_repeat {A B : Type} (a : A) (b : B) (k : nat) :
  combine (repeat a k) (repeat b k) = repeat (a, b) k.
Proof. induction k as [|k IH]; simpl; [reflexivity | now rewrite IH]. Qed.

Lemma map_repeat {A B : Type} (f : A -> B) (a : A) (k : nat) :
  map f (repeat a k) = repeat (f a) k.
Proof. induction k as [|k IH]; simpl; [reflexivity | now rewrite IH]. Qed.

Lemma small_surrogate_exists (n : nat) :
  n = 2%nat \/ n = 3%nat ->
  forall m p, length m = n -> length p = (n / 2 - 1)%nat ->
    exists s, surrogate n m p = Returns s /\ length s = n.
Proof.
  intros [-> | ->] m p Hm Hp.
  - now apply surrogate_even_exists.
  - now apply surrogate_three_exists.
Qed.

(** The run of a call on series of two or three points. *)
Lemma ebisuzaki_small_run (x y : list R) (level : pyfloat) (nsim : Z)
    (seed : option seed_t) (w : world) :
  length x = length y -> length x = 2%nat \/ length x = 3%nat ->
  (0 <= nsim)%Z ->
  let zx := zscore (map Fin x) in
  let zy := zscore (map Fin y) in
  let n := length x in
  let r_real := pearson zx zy in
  let w0 := fst (np_random_seed seed w) in
  let r := pearson (zscore (surrogate_of n (magnitudes zx) []))
                   (zscore (surrogate_of n (magnitudes zy) [])) in
  let rSim := repeat r (Z.to_nat nsim) in
  let F := fraction_larger rSim r_real nsim in
  ebisuzaki x y level nsim seed w
  = match critical_value rSim level nsim with
    | Raises e => (World (rng w0) (os w0) (stdout w0), Raises e)
    | Returns cv =>
        (World (rng w0) (os w0)
           (stdout w0 ++ [Rule; Observed r_real; Critical cv; Fraction F]),
         Returns [PyFloat F; PyArray rSim; PyFloat r_real])
    end.
Proof.
  intros Hlen Hn Hnsim.
  rewrite ebisuzaki_regular_run;
    [ | assumption | lia | assumption | now apply small_surrogate_exists ].
  cbv zeta.
  assert (E0 : (length x / 2 - 1 = 0)%nat) by (destruct Hn as [-> | ->]; reflexivity).
  rewrite E0, drawn_phases_none. cbn [fst snd].
  unfold surrogates_x, surrogates_y, correlations.
  rewrite !map_repeat. cbn [fst snd].
  rewrite combine_repeat, map_repeat. cbn [fst snd]. reflexivity.
Qed.

(** X9.  On series of two or three points no phase is drawn
    ([n // 2 - 1] is zero): the outcome is the same whatever the seed and
    the state of the generator, the generator is left as reseeding set it,
    and the [nsim] surrogate correlations are all the same number. *)
Theorem short_series_are_not_randomised (x y : list R) (level : pyfloat) (nsim : Z)
    (seed seed' : option seed_t) (w w' : world) :
  length x = length y -> length x = 2%nat \/ length x = 3%nat ->
  snd (ebisuzaki x y level nsim seed w)
  = snd (ebisuzaki x y level nsim seed' w')
  /\ rng (fst (ebisuzaki x y level nsim seed w))
     = rng (fst (np_random_seed seed w))
  /\ forall F rSim r_real,
       snd (ebisuzaki x y level nsim seed w)
       = Returns [PyFloat F; PyArray rSim; PyFloat r_real] ->
       exists r, rSim = repeat r (Z.to_nat nsim).
Proof.
  intros Hlen Hn.
  destruct (Z.lt_ge_cases nsim 0) as [Hneg|Hnsim].
  - rewrite !ebisuzaki_negative_nsim by (assumption || lia).
    cbn [fst snd]. repeat split. intros; discriminate.
  - rewrite !ebisuzaki_small_run by assumption. cbv zeta.
    destruct (critical_value _ level nsim) as [cv|e]; cbn [fst snd rng].
    + repeat split. intros F rSim r_real H. injection H as _ <- _.
      eexists. reflexivity.
    + repeat split. intros; discriminate.
Qed.

(** *** Two points *)


Lemma Rvar_two (a b : R) : a <> b -> Rvar [a; b] <> 0.
Proof.
  intros Hab. apply nonconstant_Rvar. exists a, b.
  repeat split; [now left | right; now left | assumption].
Qed.



Lemma Rpearson_two (a b c d : R) :
  a <> b -> c <> d ->
  Rpearson [a; b] [c; d] = if Rlt_dec 0 ((a - b) * (c - d)) then 1 else -1.
Proof.
  intros Hab Hcd. unfold Rpearson. rewrite !Rcov_two.
  replace ((a - b) * (a - b) / 2) with ((a - b) * (a - b) * (1 / 2)) by field.
  replace ((c - d) * (c - d) / 2) with ((c - d) * (c - d) * (1 / 2)) by field.
  rewrite !sqrt_scaled by lra.
  set (q := sqrt (1 / 2)).
  assert (Hq : q * q = 1 / 2) by (apply sqrt_sqrt; lra).
  assert (Hq0 : q <> 0) by (intros E; rewrite E in Hq; lra).
  assert (Ha : Rabs (a - b) <> 0) by (apply Rabs_no_R0; lra).
  assert (Hc : Rabs (c - d) <> 0) by (apply Rabs_no_R0; lra).
  replace ((a - b) * (c - d) / 2 / (Rabs (a - b) * q) / (Rabs (c - d) * q))
    with ((a - b) * (c - d) / (Rabs (a - b) * Rabs (c - d)) * (1 / 2 / (q * q)))
    by (field; repeat split; assumption).
  rewrite Hq. replace (1 / 2 / (1 / 2)) with 1 by field. rewrite Rmult_1_r.
  assert (Hne : (a - b) * (c - d) <> 0) by (apply Rmult_integral_contrapositive; lra).
  destruct (Rlt_dec 0 ((a - b) * (c - d))) as [Hpos|Hneg].
  - rewrite sign_ratio_pos by assumption.
    unfold Rclip. destruct (Rlt_dec 1 (-1)); [lra|].
    destruct (Rlt_dec 1 1); [lra | reflexivity].
  - rewrite sign_ratio_neg by lra.
    unfold Rclip. destruct (Rlt_dec (-1) (-1)); [lra|].
    destruct (Rlt_dec 1 (-1)); [lra | reflexivity].
Qed.




(** ** Calls that raise *)

Lemma silent_raise {A : Type} (e : pyerr) : silent (raise e : M A).
Proof. intros w. reflexivity. Qed.

Lemma silent_ebisuzaki_surrogates (x y : list R) (nsim : Z)
    (seed : option seed_t) :
  silent (ebisuzaki_surrogates x y nsim seed).
Proof.
  unfold ebisuzaki_surrogates.
  apply silent_bind; [destruct seed; apply silent_seed | intros _].
  cbv zeta.
  destruct (negb _); [apply silent_raise|].
  repeat (apply silent_bind; [apply silent_lift | intros ?]).
  apply silent_for_each. intros i s. apply silent_loop_body.
Qed.

(** X11.  The report is printed last: a call that raises, whatever the
    exception and wherever it comes from, has printed nothing. *)
Theorem a_call_that_raises_prints_nothing (x y : list R) (level : pyfloat)
    (nsim : Z) (seed : option seed_t) (w : world) (e : pyerr) :
  snd (ebisuzaki x y level nsim seed w) = Raises e ->
  stdout (fst (ebisuzaki x y level nsim seed w)) = stdout w.
Proof.
  rewrite ebisuzaki_through_surrogates.
  pose proof (silent_ebisuzaki_surrogates x y nsim seed w) as Hs.
  destruct (ebisuzaki_surrogates x y nsim seed w) as [w1 [XY|e']];
    cbn [fst snd] in *; [|intros _; exact Hs].
  cbv zeta.
  destruct (surrogate_correlations (fst XY) (snd XY) nsim) as [rSim|e'];
    cbn [fst snd]; [|intros _; exact Hs].
  destruct (critical_value rSim level nsim) as [cv|e'];
    cbn [fst snd]; [discriminate | intros _; exact Hs].
Qed.

(** *** Series too short to transform *)

Lemma ebisuzaki_single_point (x y : list R) (level : pyfloat) (nsim : Z)
    (seed : option seed_t) (w : world) :
  length x = 1%nat -> length y = 1%nat -> (nsim <> 0)%Z ->
  snd (ebisuzaki x y level nsim seed w) = Raises (ValueError msg_negative).
Proof.
  intros Hx Hy Hnsim.
  destruct (Z.lt_ge_cases nsim 0) as [Hneg|Hpos].
  - rewrite ebisuzaki_negative_nsim by (congruence || lia). reflexivity.
  - rewrite ebisuzaki_run by (congruence || lia). cbv zeta.
    unfold range.
    destruct (Z.to_nat nsim) as [|k] eqn:Ek; [lia|].
    rewrite Hx. cbn [seq for_each].
    unfold bind at 1. unfold loop_body at 1. unfold bind at 1.
    unfold np_random_uniform at 1. reflexivity.
Qed.

Lemma ebisuzaki_short_raises (x y : list R) (level : double)
    (nsim : Z) (seed : option seed_t) (w : world) :
  length x = length y -> (length x < 2)%nat ->
  snd (ebisuzaki x y level nsim seed w)
  = Raises (if (length x =? 0)%nat then ValueError msg_fft
            else if (nsim =? 0)%Z then IndexError msg_index
            else ValueError msg_negative).
Proof.
  intros Hlen Hn.
  destruct (length x) as [|[|n]] eqn:Ex; [| |lia]; cbn [Nat.eqb].
  - apply ebisuzaki_empty; congruence.
  - destruct (Z.eqb_spec nsim 0) as [->|Hnsim].
    + apply ebisuzaki_zero_nsim; [congruence | lia].
    + apply ebisuzaki_single_point; congruence.
Qed.

(** X12.  Series of fewer than two points never give a result.  Empty
    series raise the [ValueError] of [np.fft.fft]; series of one point
    raise the [ValueError] of a negative size, from [np.zeros] or from
    the first draw of phases, unless [nsim] is zero, when indexing the
    empty array of sorted correlations raises an [IndexError]. *)
Theorem series_of_fewer_than_two_points_raise (x y : list R) (level : double)
    (nsim : Z) (seed : option seed_t) (w : world) :
  length x = length y -> (length x < 2)%nat ->
  snd (ebisuzaki x y level nsim seed w)
  = Raises (if (length x =? 0)%nat then ValueError msg_fft
            else if (nsim =? 0)%Z then IndexError msg_index
            else ValueError msg_negative).
Proof. apply ebisuzaki_short_raises. Qed.

(** A call that returns was made on series of the same length, even or of
    three points, with [nsim > 0]. *)
Lemma ebisuzaki_returns_regular (x y : list R) (level : pyfloat) (nsim : Z)
    (seed : option seed_t) (w : world) (res : list pyval) :
  snd (ebisuzaki x y level nsim seed w) = Returns res ->
  length x = length y /\ (0 < nsim)%Z
  /\ ((length x mod 2 = 0 /\ 2 <= length x)%nat \/ length x = 3%nat).
Proof.
  intros Hrun.
  pose proof (ebisuzaki_returns_nsim _ _ _ _ _ _ _ Hrun) as Hnsim.
  destruct (ebisuzaki_returns_inv x y level nsim seed w _ Hrun)
    as (_ & _ & Hlen & _).
  split; [assumption|]. split; [assumption|].
  destruct (le_lt_dec 2 (length x)) as [H2|H1].
  - destruct (odd_or_regular (length x) H2) as [Hreg|[Hodd H5]];
      [assumption|].
    rewrite ebisuzaki_odd_raises in Hrun by (assumption || lia).
    discriminate.
  - destruct (length x) as [|[|n]] eqn:Ex; [| |lia].
    + rewrite ebisuzaki_empty in Hrun by congruence. discriminate.
    + rewrite ebisuzaki_single_point in Hrun by (congruence || lia).
      discriminate.
Qed.

Lemma regular_surrogate_exists (n : nat) :
  (n mod 2 = 0 /\ 2 <= n)%nat \/ n = 3%nat ->
  forall m p, length m = n -> length p = (n / 2 - 1)%nat ->
    exists s, surrogate n m p = Returns s /\ length s = n.
Proof.
  intros [[Hpar Hn] | ->] m p Hm Hp.
  - now apply surrogate_even_exists.
  - now apply surrogate_three_exists.
Qed.

(** ** How far the generator is advanced *)




(** ** The statistic of [scipy.stats.pearsonr] *)

Lemma Rcov_codev (x y : list R) :
  Rcov x y = Rcodev x y * (1 / (INR (length x) - 1)).
Proof. reflexivity. Qed.

Lemma Rnorm_deviations (x : list R) :
  Rnorm (map (fun v => v - Rmean x) x) = sqrt (Rcodev x x).
Proof.
  unfold Rnorm, Rcodev. now rewrite combine_self, !map_map.
Qed.

Lemma Rcodev_self (x : list R) : Rcodev x x = Rvar x * INR (length x).
Proof.
  destruct (empty_or_not x) as [->|Hx].
  - unfold Rcodev, Rvar, Rmean. simpl. unfold Rdiv. rewrite Rinv_0. ring.
  - unfold Rcodev, Rvar. set (m := Rmean x). unfold Rmean.
    rewrite combine_self, map_map, length_map. cbn [fst snd].
    assert (INR (length x) <> 0)
      by (apply not_0_INR; destruct x; simpl; congruence).
    field. assumption.
Qed.

Lemma Rcodev_self_pos (x : list R) : Rvar x <> 0 -> 0 < Rcodev x x.
Proof.
  intros Hv. rewrite Rcodev_self.
  pose proof (Rvar_nonneg x). pose proof (Rvar_nonempty x Hv) as Hx.
  apply Rmult_lt_0_compat; [lra|].
  apply lt_0_INR. destruct x; simpl; [congruence | lia].
Qed.

Lemma Rdot_deviations (x y : list R) (nx ny : R) :
  Rdot (map (fun v => v / nx) (map (fun v => v - Rmean x) x))
       (map (fun v => v / ny) (map (fun v => v - Rmean y) y))
  = Rcodev x y * / nx * / ny.
Proof.
  unfold Rdot, Rcodev. rewrite !map_map, combine_map, map_map. cbn [fst snd].
  rewrite (Rsum_ext _
    (fun p => (/ nx * / ny) * ((fst p - Rmean x) * (snd p - Rmean y))))
    by (intros; cbv beta; unfold Rdiv; ring).
  rewrite (Rsum_scaled (fun p => (fst p - Rmean x) * (snd p - Rmean y))).
  ring.
Qed.

(** On series that are not constant, SciPy's statistic is the number
    [np.corrcoef] gives. *)
Lemma Rpearsonr_Rpearson (x y : list R) :
  (2 <= length x)%nat -> length x = length y ->
  Rvar x <> 0 -> Rvar y <> 0 ->
  Rpearsonr x y = Rpearson x y.
Proof.
  intros Hn Hlen Vx Vy. unfold Rpearsonr, Rpearson. cbv zeta.
  rewrite Rdot_deviations, !Rnorm_deviations, !Rcov_codev, <- Hlen.
  pose proof (Rcodev_self_pos x Vx) as Px.
  pose proof (Rcodev_self_pos y Vy) as Py.
  assert (Hk : 0 < 1 / (INR (length x) - 1)).
  { assert (2 <= INR (length x)) by (apply (le_INR 2); lia).
    apply Rdiv_lt_0_compat; lra. }
  set (k := 1 / (INR (length x) - 1)) in *.
  rewrite !sqrt_mult by lra.
  assert (Sk : sqrt k * sqrt k = k) by (apply sqrt_sqrt; lra).
  assert (sqrt k <> 0) by (intros E; rewrite E in Sk; lra).
  assert (sqrt (Rcodev x x) <> 0) by (apply Rgt_not_eq, sqrt_lt_R0; lra).
  assert (sqrt (Rcodev y y) <> 0) by (apply Rgt_not_eq, sqrt_lt_R0; lra).
  f_equal.
  replace (Rcodev x y * k / (sqrt (Rcodev x x) * sqrt k)
           / (sqrt (Rcodev y y) * sqrt k))
    with (Rcodev x y * / sqrt (Rcodev x x) * / sqrt (Rcodev y y)
          * (k / (sqrt k * sqrt k)))
    by (field; repeat split; assumption).
  rewrite Sk. replace (k / k) with 1 by (field; lra). ring.
Qed.

Lemma linalg_norm_fin (l : list R) : linalg_norm (map Fin l) = Fin (Rnorm l).
Proof.
  unfold linalg_norm, Rnorm. rewrite map_map. cbn [fmul lift2].
  rewrite <- (map_map (fun v => v * v) Fin), fsum_fin.
  apply fsqrt_fin. apply (Rsum_squares_nonneg (fun v => v)).
Qed.

Lemma np_dot_fin (a b : list R) : np_dot (map Fin a) (map Fin b) = Fin (Rdot a b).
Proof.
  unfold np_dot, Rdot. rewrite combine_map, map_map. cbn [fst snd fmul lift2].
  rewrite <- (map_map (fun p => fst p * snd p) Fin). apply fsum_fin.
Qed.

Lemma deviations_fin (x : list R) :
  x <> [] ->
  map (fun v => fsub v (np_mean (map Fin x))) (map Fin x)
  = map Fin (map (fun v => v - Rmean x) x).
Proof.
  intros Hx. rewrite np_mean_fin by assumption. now rewrite !map_map.
Qed.

Lemma pearsonr_statistic_fin (x y : list R) :
  Rvar x <> 0 -> Rvar y <> 0 ->
  pearsonr_statistic (map Fin x) (map Fin y) = Fin (Rpearsonr x y).
Proof.
  intros Vx Vy. unfold pearsonr_statistic, Rpearsonr. cbv zeta.
  rewrite !deviations_fin by now apply Rvar_nonempty.
  rewrite !linalg_norm_fin, !Rnorm_deviations.
  assert (Nx : sqrt (Rcodev x x) <> 0)
    by (apply Rgt_not_eq, sqrt_lt_R0; now apply Rcodev_self_pos).
  assert (Ny : sqrt (Rcodev y y) <> 0)
    by (apply Rgt_not_eq, sqrt_lt_R0; now apply Rcodev_self_pos).
  rewrite !map_map.
  rewrite (map_ext (fun v => fdiv (Fin (v - Rmean x)) (Fin (sqrt (Rcodev x x))))
                   (fun v => Fin ((v - Rmean x) / sqrt (Rcodev x x))))
    by (intros; now apply fdiv_fin).
  rewrite (map_ext (fun v => fdiv (Fin (v - Rmean y)) (Fin (sqrt (Rcodev y y))))
                   (fun v => Fin ((v - Rmean y) / sqrt (Rcodev y y))))
    by (intros; now apply fdiv_fin).
  rewrite <- (map_map (fun v => (v - Rmean x) / sqrt (Rcodev x x)) Fin).
  rewrite <- (map_map (fun v => (v - Rmean y) / sqrt (Rcodev y y)) Fin).
  rewrite np_dot_fin. reflexivity.
Qed.

Lemma fmul_nan_l (a : float) : fmul NaN a = NaN.
Proof. reflexivity. Qed.

Lemma np_dot_nan_l (n : nat) (b : list float) :
  (1 <= n)%nat -> length b = n -> np_dot (repeat NaN n) b = NaN.
Proof.
  intros Hn Hb. unfold np_dot. apply fsum_nan.
  destruct n as [|n]; [lia|]. destruct b as [|v b]; [discriminate|].
  now left.
Qed.

Lemma np_dot_nan_r (n : nat) (a : list float) :
  (1 <= n)%nat -> length a = n -> np_dot a (repeat NaN n) = NaN.
Proof.
  intros Hn Ha. unfold np_dot. apply fsum_nan.
  destruct n as [|n]; [lia|]. destruct a as [|v a]; [discriminate|].
  left. cbn. apply fmul_nan_r.
Qed.

Lemma pearsonr_statistic_constant (x y : list R) :
  x <> [] -> length x = length y -> Rvar x = 0 \/ Rvar y = 0 ->
  pearsonr_statistic (map Fin x) (map Fin y) = NaN.
Proof.
  intros Hx Hlen Hv.
  assert (Hy : y <> []) by (intros ->; destruct x; [congruence | discriminate]).
  assert (Hn : (1 <= length x)%nat) by (destruct x; simpl; [congruence | lia]).
  unfold pearsonr_statistic. cbv zeta.
  rewrite !deviations_fin by assumption.
  rewrite !linalg_norm_fin, !Rnorm_deviations.
  destruct Hv as [Hv|Hv].
  - rewrite (Rcodev_self x), Hv, Rmult_0_l, sqrt_0.
    rewrite (map_all_equal (fun v => fdiv v (Fin 0)) NaN)
      by (intros; now apply fdiv_zero).
    rewrite !length_map, np_dot_nan_l; [reflexivity | assumption |].
    now rewrite !length_map.
  - rewrite (Rcodev_self y), Hv, Rmult_0_l, sqrt_0.
    rewrite (map_all_equal (fun v => fdiv v (Fin 0)) NaN
               (map Fin (map (fun v => v - Rmean y) y)))
      by (intros; now apply fdiv_zero).
    rewrite !length_map, np_dot_nan_r; [reflexivity | lia |].
    now rewrite !length_map.
Qed.

(** SciPy's statistic and the entry of [np.corrcoef] agree on every pair
    of arrays of the same length, of two entries at least. *)
Lemma pearsonr_statistic_pearson (x y : list R) :
  (2 <= length x)%nat -> length x = length y ->
  pearsonr_statistic (map Fin x) (map Fin y) = pearson (map Fin x) (map Fin y).
Proof.
  intros Hn Hlen.
  assert (Hx : x <> []) by (intros ->; simpl in Hn; lia).
  destruct (Req_dec (Rvar x) 0) as [Vx|Vx].
  { rewrite pearsonr_statistic_constant, pearson_constant; auto. }
  destruct (Req_dec (Rvar y) 0) as [Vy|Vy].
  { rewrite pearsonr_statistic_constant, pearson_constant; auto. }
  rewrite pearsonr_statistic_fin, pearson_fin;
    try assumption; try lia; try (apply Rcov_self_pos; (lia || assumption)).
  now rewrite Rpearsonr_Rpearson.
Qed.

(** ** [lagged_autocorrelation] *)

Lemma overlap_le (n : nat) (lag : Z) : (overlap n lag <= n)%nat.
Proof. unfold overlap. destruct (0 <? lag)%Z; lia. Qed.

Lemma lagged_slices (s : list R) (lag : Z) :
  lag <> 0%Z ->
  let m := overlap (length s) lag in
  slice_to (map Fin s) (- lag) = map Fin (firstn m s)
  /\ slice_from (map Fin s) lag = map Fin (skipn (length s - m) s).
Proof.
  intros Hlag m. unfold slice_to, slice_from, slice_index.
  rewrite length_map, firstn_map, skipn_map. subst m. unfold overlap.
  destruct (Z.ltb_spec 0 lag) as [Hpos|Hneg].
  - replace (- lag <? 0)%Z with true by (symmetry; apply Z.ltb_lt; lia).
    replace (lag <? 0)%Z with false by (symmetry; apply Z.ltb_ge; lia).
    split; do 2 f_equal; lia.
  - replace (- lag <? 0)%Z with false by (symmetry; apply Z.ltb_ge; lia).
    replace (lag <? 0)%Z with true by (symmetry; apply Z.ltb_lt; lia).
    split; do 2 f_equal; lia.
Qed.

Lemma lagged_lengths (s : list R) (m : nat) :
  (m <= length s)%nat ->
  length (firstn m s) = m /\ length (skipn (length s - m) s) = m.
Proof. intros Hm. rewrite length_firstn, length_skipn. lia. Qed.

(** The run of a call with a lag that is not zero. *)
Lemma lagged_autocorrelation_run (s : list R) (lag : Z) :
  lag <> 0%Z ->
  let m := overlap (length s) lag in
  lagged_autocorrelation s lag
  = if (m <? 2)%nat then Raises (ValueError msg_length_two)
    else Returns (pearson (map Fin (firstn m s))
                          (map Fin (skipn (length s - m) s))).
Proof.
  intros Hlag m. unfold lagged_autocorrelation. cbv zeta.
  destruct (lagged_slices s lag Hlag) as [-> ->]. fold m.
  destruct (lagged_lengths s m (overlap_le _ _)) as [L1 L2].
  unfold sp_stats_pearsonr. rewrite !length_map, L1, L2, Nat.eqb_refl.
  cbn [negb]. destruct (Nat.ltb_spec m 2) as [Hm|Hm]; [reflexivity|].
  f_equal. apply pearsonr_statistic_pearson; lia.
Qed.

Lemma lagged_autocorrelation_zero (series : list R) :
  lagged_autocorrelation series 0
  = Raises (ValueError (match series with
                        | [] => msg_length_two
                        | _ => msg_same_length
                        end)).
Proof.
  unfold lagged_autocorrelation, slice_to, slice_from, slice_index.
  cbv zeta. cbn [Z.opp Z.ltb Z.compare Z.to_nat Nat.min firstn skipn].
  destruct series; reflexivity.
Qed.

(** X14.  A lag of zero always raises a [ValueError]: [series[:-0]] is the
    empty array, which [scipy.stats.pearsonr] refuses to pair with the
    whole series (or, when the series is empty too, refuses for being
    shorter than two). *)
Theorem lag_zero_raises (series : list R) :
  lagged_autocorrelation series 0
  = Raises (ValueError (match series with
                        | [] => msg_length_two
                        | _ => msg_same_length
                        end)).
Proof. apply lagged_autocorrelation_zero. Qed.



(** X16.  A negative lag is not an error: [lagged_autocorrelation(s, -k)]
    pairs the first [k] values with the last [k], which is what the lag
    [len(s) - k] does. *)
Theorem negative_lag_is_the_complementary_lag (series : list R) (k : Z) :
  (0 < k < Z.of_nat (length series))%Z ->
  lagged_autocorrelation series (- k)
  = lagged_autocorrelation series (Z.of_nat (length series) - k).
Proof.
  intros Hk. rewrite !lagged_autocorrelation_run by lia. cbv zeta.
  assert (E : overlap (length series) (- k)
              = overlap (length series) (Z.of_nat (length series) - k)).
  { unfold overlap.
    replace (0 <? - k)%Z with false by (symmetry; apply Z.ltb_ge; lia).
    replace (0 <? Z.of_nat (length series) - k)%Z with true
      by (symmetry; apply Z.ltb_lt; lia).
    lia. }
  now rewrite E.
Qed.










(** ** [my_correlation_function] *)

(** The integers [np.sqrt] takes the root of. *)
Lemma np_sqrt_int_in_range (k : Z) :
  (- 2 ^ 63 <= k < 2 ^ 64)%Z -> np_sqrt_int k = Returns (fsqrt (Fin (IZR k))).
Proof.
  intros Hk. unfold np_sqrt_int.
  replace ((- 2 ^ 63 <=? k) && (k <? 2 ^ 64))%Z with true; [reflexivity|].
  symmetry. apply andb_true_iff. rewrite Z.leb_le, Z.ltb_lt. lia.
Qed.

Lemma np_sqrt_int_out_of_range (k : Z) :
  ~ (- 2 ^ 63 <= k < 2 ^ 64)%Z -> np_sqrt_int k = Raises (TypeError msg_sqrt).
Proof.
  intros Hk. unfold np_sqrt_int.
  replace ((- 2 ^ 63 <=? k) && (k <? 2 ^ 64))%Z with false; [reflexivity|].
  symmetry. apply andb_false_iff. rewrite Z.leb_gt, Z.ltb_ge. lia.
Qed.

(** The run of a call on arrays of the same length, for a number of
    degrees of freedom that NumPy holds as an integer. *)
Lemma my_correlation_function_run (x y : list R) (neff : Z) :
  length x = length y -> (- 2 ^ 63 <= neff - 2 < 2 ^ 64)%Z ->
  let r := pearson (map Fin x) (map Fin y) in
  let t := fdiv_ieee (fmul r (fsqrt (Fin (IZR (neff - 2)))))
                     (fsqrt (fsub (Fin 1) (fmul r r))) in
  my_correlation_function x y neff
  = Returns (r, fmul (Fin 2)
                  (fsub (Fin 1) (sp_stats_t_cdf (eabs t) (neff - 2)))).
Proof.
  intros Hlen Hdof. unfold my_correlation_function. cbv zeta.
  rewrite np_corrcoef_same_length by (now rewrite !length_map).
  cbn [obind]. rewrite np_sqrt_int_in_range by assumption.
  reflexivity.
Qed.

(** A number of degrees of freedom that fits neither an int64 nor a
    uint64 raises, once the correlation has been computed. *)
Lemma my_correlation_function_type_error (x y : list R) (neff : Z) :
  length x = length y -> ~ (- 2 ^ 63 <= neff - 2 < 2 ^ 64)%Z ->
  my_correlation_function x y neff = Raises (TypeError msg_sqrt).
Proof.
  intros Hlen Hdof. unfold my_correlation_function. cbv zeta.
  rewrite np_corrcoef_same_length by (now rewrite !length_map).
  cbn [obind]. now rewrite np_sqrt_int_out_of_range.
Qed.

Lemma my_correlation_function_mismatch (x y : list R) (neff : Z) :
  length x <> length y ->
  my_correlation_function x y neff = Raises (ValueError msg_concat).
Proof.
  intros Hlen. unfold my_correlation_function, np_corrcoef.
  rewrite !length_map.
  replace (length x =? length y)%nat with false
    by (symmetry; now apply Nat.eqb_neq).
  reflexivity.
Qed.

(** With a positive number of degrees of freedom, the statistic is NaN
    only when the correlation is. *)
Lemma t_statistic_nan (r : float) (dof : Z) :
  (0 < dof)%Z -> (forall v, r = Fin v -> -1 <= v <= 1) ->
  fdiv_ieee (fmul r (fsqrt (Fin (IZR dof))))
            (fsqrt (fsub (Fin 1) (fmul r r))) = ENaN ->
  r = NaN.
Proof.
  intros Hdof Hr. destruct r as [v|]; [|reflexivity]. intros Ht. exfalso.
  specialize (Hr v eq_refl).
  assert (Hd : 0 < IZR dof) by now apply IZR_lt.
  cbn in Ht. destruct (Rlt_dec (IZR dof) 0) as [|_]; [lra|].
  destruct (Rlt_dec (1 - v * v) 0) as [|_]; [nra|].
  cbn in Ht. destruct (Req_dec_T (sqrt (1 - v * v)) 0) as [E|_]; [|discriminate].
  apply sqrt_eq_0 in E; [|nra].
  assert (Hs : 0 < sqrt (IZR dof)) by now apply sqrt_lt_R0.
  destruct (Rlt_dec 0 (v * sqrt (IZR dof))) as [_|Hn1]; [discriminate|].
  destruct (Rlt_dec (v * sqrt (IZR dof)) 0) as [_|Hn2]; [discriminate|].
  assert (v * sqrt (IZR dof) = 0) by lra.
  assert (v = 0) by nra. subst v. lra.
Qed.

Lemma p_value_nan (c : float) :
  fmul (Fin 2) (fsub (Fin 1) c) = NaN <-> c = NaN.
Proof. destruct c; cbn; split; congruence. Qed.

(** X19.  [my_correlation_function] checks neither its arrays nor [neff].
    Arrays that differ in length raise the [ValueError] of [np.corrcoef];
    on arrays of the same length, a number [neff - 2] of degrees of freedom
    that fits neither an int64 nor a uint64 raises the [TypeError] of
    [np.sqrt]; in every other case the call returns the entry of
    [np.corrcoef], and the p-value is NaN exactly when [neff <= 2] or the
    correlation is NaN. *)
Theorem my_correlation_function_outcome (x y : list R) (neff : Z) :
  (length x <> length y ->
     my_correlation_function x y neff = Raises (ValueError msg_concat))
  /\ (length x = length y -> ~ (- 2 ^ 63 <= neff - 2 < 2 ^ 64)%Z ->
      my_correlation_function x y neff = Raises (TypeError msg_sqrt))
  /\ (length x = length y -> (- 2 ^ 63 <= neff - 2 < 2 ^ 64)%Z ->
      exists p,
        my_correlation_function x y neff
        = Returns (pearson (map Fin x) (map Fin y), p)
        /\ (p = NaN <->
            (neff <= 2)%Z \/ pearson (map Fin x) (map Fin y) = NaN)).
Proof.
  split; [apply my_correlation_function_mismatch|].
  split; [apply my_correlation_function_type_error|].
  intros Hlen Hdof. rewrite my_correlation_function_run by assumption.
  cbv zeta. eexists. split; [reflexivity|].
  rewrite p_value_nan. unfold sp_stats_t_cdf.
  destruct (Z.leb_spec (neff - 2) 0) as [Hle|Hgt].
  - split; [intros _; left; lia | reflexivity].
  - set (r := pearson (map Fin x) (map Fin y)).
    pose proof (t_statistic_nan r (neff - 2) Hgt (pearson_bounds _ _)) as Ht.
    destruct (fdiv_ieee _ _) as [v|[|]|] eqn:Et; cbn [eabs].
    + split; [discriminate|]. intros [H|H]; [lia|].
      rewrite H in Et. discriminate.
    + split; [discriminate|]. intros [H|H]; [lia|].
      rewrite H in Et. discriminate.
    + split; [discriminate|]. intros [H|H]; [lia|].
      rewrite H in Et. discriminate.
    + split; [intros _; right; now apply Ht | reflexivity].
Qed.

(** ** The three correlations of the notebook *)


(** X22.  On arrays of fewer than two values the two correlation routines
    of the notebook part: [my_correlation_function] raises nothing and
    returns NaN for the correlation and for the p-value (for every [neff]
    whose [neff - 2] NumPy holds as an integer), where the
    [scipy.stats.pearsonr] of [lagged_autocorrelation] raises
    [ValueError]. *)
Theorem short_arrays_give_nan_or_raise (x y : list R) (neff : Z) :
  length x = length y -> (length x < 2)%nat ->
  (- 2 ^ 63 <= neff - 2 < 2 ^ 64)%Z ->
  my_correlation_function x y neff = Returns (NaN, NaN)
  /\ sp_stats_pearsonr (map Fin x) (map Fin y)
     = Raises (ValueError msg_length_two).
Proof.
  intros Hlen Hn Hdof. rewrite my_correlation_function_run by assumption.
  cbv zeta.
  unfold sp_stats_pearsonr. rewrite !length_map, <- Hlen, Nat.eqb_refl.
  cbn [negb].
  replace (length x <? 2)%nat with true by (symmetry; now apply Nat.ltb_lt).
  split; [|reflexivity].
  rewrite pearson_short by (rewrite length_map; lia). cbn.
  unfold sp_stats_t_cdf. destruct (neff - 2 <=? 0)%Z; reflexivity.
Qed.

(** ** What the parameters do not change *)

(** X7.  [level] is used for the critical value alone: two calls that
    differ in [level] only leave the generator in the same state, and
    when both return they return the same tuple. *)
Theorem level_does_not_change_what_is_returned (x y : list R)
    (level level' : pyfloat) (nsim : Z) (seed : option seed_t) (w : world) :
  rng (fst (ebisuzaki x y level nsim seed w))
  = rng (fst (ebisuzaki x y level' nsim seed w))
  /\ forall res res',
       snd (ebisuzaki x y level nsim seed w) = Returns res ->
       snd (ebisuzaki x y level' nsim seed w) = Returns res' ->
       res = res'.
Proof.
  rewrite !ebisuzaki_through_surrogates.
  destruct (ebisuzaki_surrogates x y nsim seed w) as [w1 [XY|e]];
    [|split; [reflexivity | intros; discriminate]].
  cbv zeta.
  destruct (surrogate_correlations (fst XY) (snd XY) nsim) as [rSim|e];
    [|split; [reflexivity | intros; discriminate]].
  destruct (critical_value rSim level nsim) as [cv|e],
           (critical_value rSim level' nsim) as [cv'|e'];
    cbn [fst snd rng]; (split; [reflexivity|]); intros res res' H H';
    congruence.
Qed.

Lemma drawn_phases_app (k j size : nat) (g : rng_state) :
  fst (drawn_phases (k + j) size g)
  = fst (drawn_phases k size g)
    ++ fst (drawn_phases j size (snd (drawn_phases k size g))).
Proof.
  revert g. induction k as [|k IH]; intros g; [reflexivity|].
  cbn [Nat.add drawn_phases fst snd app]. now rewrite IH.
Qed.

Lemma combine_append {A B : Type} (l1 l2 : list A) (m1 m2 : list B) :
  length l1 = length m1 ->
  combine (l1 ++ l2) (m1 ++ m2) = combine l1 m1 ++ combine l2 m2.
Proof.
  revert m1. induction l1 as [|a l1 IH]; intros [|b m1] H; simpl in *;
    try discriminate; [reflexivity|].
  f_equal. apply IH. lia.
Qed.

Lemma correlations_app (X X' Y Y' : matrix) :
  length X = length Y ->
  correlations (X ++ X') (Y ++ Y') = correlations X Y ++ correlations X' Y'.
Proof.
  intros Hlen. unfold correlations.
  now rewrite combine_append, map_app.
Qed.

Lemma firstn_exact {A : Type} (l l' : list A) (k : nat) :
  length l = k -> firstn k (l ++ l') = l.
Proof.
  intros <-. rewrite firstn_app, Nat.sub_diag, firstn_all. cbn [firstn].
  apply app_nil_r.
Qed.

(** X8.  Asking for more simulations extends the sample: under the same
    seed, the surrogate correlations of a call with [nsim] simulations are
    the first [nsim] of those of a call with more, and the observed
    correlation is the same. *)
Theorem more_simulations_extend_the_sample (x y : list R) (level level' : pyfloat)
    (nsim nsim' : Z) (seed : option seed_t) (w : world)
    (F F' r_real r_real' : float) (rSim rSim' : list float) :
  (nsim <= nsim')%Z ->
  snd (ebisuzaki x y level nsim seed w)
  = Returns [PyFloat F; PyArray rSim; PyFloat r_real] ->
  snd (ebisuzaki x y level' nsim' seed w)
  = Returns [PyFloat F'; PyArray rSim'; PyFloat r_real'] ->
  r_real = r_real' /\ rSim = firstn (Z.to_nat nsim) rSim'.
Proof.
  intros Hle Hrun Hrun'.
  destruct (ebisuzaki_returns_regular _ _ _ _ _ _ _ Hrun)
    as (Hlen & Hnsim & Hreg).
  assert (Hn : (2 <= length x)%nat) by (destruct Hreg as [[_ H]|H]; lia).
  pose proof (regular_surrogate_exists (length x) Hreg) as Hsur.
  rewrite ebisuzaki_regular_run in Hrun by (assumption || lia).
  rewrite ebisuzaki_regular_run in Hrun' by (assumption || lia).
  cbv zeta in Hrun, Hrun'.
  set (g := rng (fst (np_random_seed seed w))) in *.
  set (size := (length x / 2 - 1)%nat) in *.
  replace (Z.to_nat nsim') with (Z.to_nat nsim + (Z.to_nat nsim' - Z.to_nat nsim))%nat
    in Hrun' by lia.
  rewrite drawn_phases_app in Hrun'.
  unfold surrogates_x, surrogates_y in Hrun, Hrun'.
  rewrite !map_app in Hrun'.
  rewrite correlations_app in Hrun' by (now rewrite !length_map).
  destruct (critical_value _ level nsim) as [cv|e]; [|discriminate].
  destruct (critical_value _ level' nsim') as [cv'|e']; [|discriminate].
  cbn [snd] in Hrun, Hrun'.
  injection Hrun as _ <- <-. injection Hrun' as _ <- <-.
  split; [reflexivity|].
  symmetry. apply firstn_exact.
  rewrite length_correlations by (now rewrite !length_map).
  rewrite length_map. apply drawn_phases_lengths.
Qed.

(** X5.  [F] is the number of surrogate correlations whose absolute
    value is strictly larger than that of the observed correlation,
    divided by [nsim]: a surrogate that ties with the observed correlation
    is not counted, and [F] is a number between [0] and [1]. *)
Theorem fraction_counts_strictly_larger_correlations (x y : list R)
    (level : pyfloat) (nsim : Z) (seed : option seed_t) (w : world)
    (F r_real : float) (rSim : list float) :
  snd (ebisuzaki x y level nsim seed w)
  = Returns [PyFloat F; PyArray rSim; PyFloat r_real] ->
  (0 < nsim)%Z /\ length rSim = Z.to_nat nsim
  /\ F = Fin (INR (count_larger rSim r_real) / IZR nsim)
  /\ 0 <= INR (count_larger rSim r_real) / IZR nsim <= 1
  /\ forall r, fabs r = fabs r_real -> count_larger [r] r_real = 0%nat.
Proof.
  intros Hrun.
  pose proof (ebisuzaki_returns_nsim _ _ _ _ _ _ _ Hrun) as Hnsim.
  destruct (ebisuzaki_returns_inv x y level nsim seed w _ Hrun)
    as (rSim' & cv & _ & _ & _ & Hl & _ & Hres & _).
  injection Hres as -> <- ->.
  set (r_real := pearson _ _).
  split; [assumption|]. split; [assumption|].
  split; [now apply fraction_larger_value|].
  split.
  - apply fraction_in_unit_interval; [assumption|].
    rewrite <- Hl. apply count_larger_le.
  - intros r Hr. unfold count_larger. cbn [filter].
    now rewrite (fgt_irrefl _ _ Hr).
Qed.

(** ** The fraction and the critical value *)

Lemma filter_all {A : Type} (f : A -> bool) (l : list A) :
  Forall (fun a => f a = true) l -> filter f l = l.
Proof.
  induction 1 as [|a l Ha _ IH]; simpl; [reflexivity|]. now rewrite Ha, IH.
Qed.

Lemma filter_length_mono {A : Type} (f g : A -> bool) (l : list A) :
  (forall a, f a = true -> g a = true) ->
  (length (filter f l) <= length (filter g l))%nat.
Proof.
  intros H. induction l as [|a l IH]; simpl; [lia|].
  destruct (f a) eqn:Ef.
  - rewrite (H a Ef). simpl. lia.
  - destruct (g a); simpl; lia.
Qed.

Lemma fgt_above (a b v : float) :
  fle_sort a b = true -> (exists r, b = Fin r) -> fgt a v = true ->
  fgt b v = true.
Proof.
  intros Hle [r ->] Hgt. apply fgt_spec in Hgt.
  destruct Hgt as (u & t & -> & -> & Htu). cbn in *.
  destruct (Rle_dec u r); [|discriminate].
  destruct (Rlt_dec t r); [reflexivity | lra].
Qed.

(** In an ascending array of numbers, the entries from position [k] on
    are larger than whatever entry [k] is larger than. *)
Lemma ascending_count_above (l : list float) (k : nat) (v : float) :
  ascending l -> Forall (fun a => exists r, a = Fin r) l ->
  (k < length l)%nat -> fgt (nth k l NaN) v = true ->
  (length l - k <= length (filter (fun r => fgt r v) l))%nat.
Proof.
  unfold ascending. revert k. induction l as [|a l IH]; intros k Hs Hf Hk Hgt.
  - simpl in Hk. lia.
  - apply StronglySorted_inv in Hs. destruct Hs as [Hs Ha].
    inversion Hf as [|? ? Hfa Hfl]; subst.
    destruct k as [|k]; cbn [nth] in Hgt.
    + rewrite filter_all; [simpl; lia|].
      constructor; [assumption|].
      rewrite Forall_forall in Ha, Hfl |- *. intros b Hb.
      apply (fgt_above a); auto.
    + simpl in Hk. specialize (IH k Hs Hfl ltac:(lia) Hgt).
      cbn [filter length]. destruct (fgt a v); simpl; lia.
Qed.

(** The observed correlation reaches the critical value exactly when
    no more surrogate correlations are larger than it than there are
    entries after the critical value in the sorted array. *)
Lemma critical_value_and_count (rSim : list float) (r c : R)
    (level : pyfloat) (nsim i : Z) :
  Forall (fun v => exists u, v = Fin u) rSim ->
  length rSim = Z.to_nat nsim -> (0 <= nsim)%Z ->
  critical_index nsim level = Returns i ->
  critical_value rSim level nsim = Returns (Fin c) ->
  c <= Rabs r
  <-> (Z.of_nat (count_larger rSim (Fin r)) <= nsim - 1 - position nsim i)%Z.
Proof.
  intros Hfin Hl Hn Hidx Hcv.
  destruct (critical_value_threshold rSim level nsim (Fin c) Hl Hn Hcv)
    as (i' & Hidx' & Hi & Hnth & Hcount).
  assert (i' = i) by congruence. subst i'.
  assert (Hp : (0 <= position nsim i < nsim)%Z).
  { unfold position. destruct (Z.ltb_spec i 0); lia. }
  split.
  - (* a correlation at or above it leaves at most those above the value *)
    intros Hc.
    assert (Hm : (count_larger rSim (Fin r)
                  <= length (filter (fun v => fgt (fabs v) (Fin c)) rSim))%nat).
    { unfold count_larger. apply filter_length_mono. intros a Ha.
      apply fgt_spec in Ha. destruct Ha as (u & t & Eu & Et & Htu).
      rewrite Eu. cbn in Et. injection Et as <-. cbn.
      destruct (Rlt_dec c u); [reflexivity | lra]. }
    lia.
  - (* a correlation below the critical value leaves too many above it *)
    intros HF. destruct (Rle_dec c (Rabs r)) as [|Hlt]; [assumption|].
    exfalso. apply Rnot_le_lt in Hlt.
    destruct (np_index_returns_inv _ _ _ Hnth) as [_ Hcv'].
    rewrite length_np_sort, length_map, Hl, Z2Nat.id in Hcv' by assumption.
    pose proof (ascending_count_above (np_sort (map fabs rSim))
                  (Z.to_nat (position nsim i))
                  (Fin (Rabs r)) (np_sort_ascending _)) as Hc.
    rewrite length_np_sort, length_map, Hl in Hc.
    assert (Hsf : Forall (fun a => exists u, a = Fin u)
                         (np_sort (map fabs rSim))).
    { apply Forall_forall. intros a Ha.
      apply (Permutation_in _ (np_sort_perm _)) in Ha.
      apply in_map_iff in Ha. destruct Ha as (b & <- & Hb).
      rewrite Forall_forall in Hfin. destruct (Hfin b Hb) as [u ->].
      eexists. reflexivity. }
    specialize (Hc Hsf ltac:(lia)).
    rewrite <- Hcv' in Hc.
    assert (Hgt : fgt (Fin c) (Fin (Rabs r)) = true)
      by (cbn; destruct (Rlt_dec (Rabs r) c); [reflexivity | lra]).
    specialize (Hc Hgt).
    rewrite (filter_length_perm _ _ _ (np_sort_perm (map fabs rSim))) in Hc.
    rewrite (filter_length_map (fun v => fgt v (Fin (Rabs r))) fabs rSim) in Hc.
    change (length (filter (fun a => fgt (fabs a) (Fin (Rabs r))) rSim))
      with (count_larger rSim (Fin r)) in Hc.
    lia.
Qed.

(** The critical value of correlations that are numbers is a number. *)
Lemma critical_value_of_numbers (rSim : list float) (level : pyfloat)
    (nsim : Z) (cv : float) :
  Forall (fun v => exists u, v = Fin u) rSim ->
  length rSim = Z.to_nat nsim -> (0 <= nsim)%Z ->
  critical_value rSim level nsim = Returns cv ->
  exists c, cv = Fin c.
Proof.
  intros Hfin Hl Hn Hcv.
  destruct (critical_value_threshold rSim level nsim cv Hl Hn Hcv)
    as (i & _ & Hi & Hnth & _).
  destruct (np_index_returns_inv _ _ _ Hnth) as [_ ->].
  rewrite length_np_sort, length_map, Hl, Z2Nat.id by assumption.
  assert (Hp : (0 <= position nsim i < nsim)%Z).
  { unfold position. destruct (Z.ltb_spec i 0); lia. }
  assert (Hlt : (Z.to_nat (position nsim i)
                 < length (np_sort (map fabs rSim)))%nat)
    by (rewrite length_np_sort, length_map, Hl; lia).
  pose proof (nth_In _ NaN Hlt) as Ha.
  apply (Permutation_in _ (np_sort_perm _)) in Ha.
  apply in_map_iff in Ha. destruct Ha as (b & Eb & Hb).
  rewrite Forall_forall in Hfin. destruct (Hfin b Hb) as [u Eu].
  rewrite <- Eb, Eu. eexists. reflexivity.
Qed.

(** X6.  The two readings of the report agree.  In a call that returns an
    observed correlation and surrogate correlations that are numbers, the
    critical value printed is a number as well, and the absolute observed
    correlation reaches it exactly when no more than
    [nsim - 1 - position] of the surrogate correlations are larger in
    absolute value than the observed one, [position] being the place the
    index [int(nsim * (1 - level))] has in the sorted array. *)
Theorem critical_value_reached_iff_few_larger (x y : list R)
    (level : pyfloat) (nsim : Z) (seed : option seed_t) (w : world)
    (F : float) (r : R) (rSim : list float) :
  snd (ebisuzaki x y level nsim seed w)
  = Returns [PyFloat F; PyArray rSim; PyFloat (Fin r)] ->
  Forall (fun v => exists u, v = Fin u) rSim ->
  exists (c : R) (i : Z),
    critical_index nsim level = Returns i
    /\ (- nsim <= i < nsim)%Z
    /\ stdout (fst (ebisuzaki x y level nsim seed w))
       = stdout w ++ [Rule; Observed (Fin r); Critical (Fin c); Fraction F]
    /\ (c <= Rabs r
        <-> (Z.of_nat (count_larger rSim (Fin r))
             <= nsim - 1 - position nsim i)%Z).
Proof.
  intros Hrun Hfin.
  destruct (ebisuzaki_returns_inv x y level nsim seed w _ Hrun)
    as (rSim' & cv & _ & _ & Hnsim & Hl & Hcv & Hres & Hout).
  injection Hres as EF <- Ereal.
  destruct (critical_value_of_numbers rSim level nsim cv Hfin Hl Hnsim Hcv)
    as [c ->].
  destruct (critical_value_threshold rSim level nsim (Fin c) Hl Hnsim Hcv)
    as (i & Hidx & Hi & _ & _).
  rewrite <- EF, <- Ereal in Hout.
  exists c, i. split; [exact Hidx|]. split; [exact Hi|].
  split; [exact Hout|].
  now apply (critical_value_and_count rSim r c level nsim i).
Qed.

(** ** The two series in either order *)

Lemma combine_swap {A B C : Type} (f : A -> B -> C) (x : list A) (y : list B) :
  map (fun p => f (fst p) (snd p)) (combine x y)
  = map (fun p => f (snd p) (fst p)) (combine y x).
Proof.
  revert y. induction x as [|a x IH]; intros [|b y]; simpl; try reflexivity.
  now rewrite IH.
Qed.

Lemma fmul_comm (a b : float) : fmul a b = fmul b a.
Proof. destruct a, b; simpl; try reflexivity. f_equal. ring. Qed.

Lemma np_cov_sym (x y : list float) :
  length x = length y -> np_cov x y = np_cov y x.
Proof.
  intros Hlen. unfold np_cov. rewrite Hlen. f_equal. f_equal.
  rewrite (combine_swap (fun u v => fmul (fsub u (np_mean x)) (fsub v (np_mean y)))).
  apply map_ext. intros p. apply fmul_comm.
Qed.

Lemma fdiv_swap (c a b : float) : fdiv (fdiv c a) b = fdiv (fdiv c b) a.
Proof.
  destruct c as [u|], a as [s|], b as [t|]; cbn; try reflexivity.
  - destruct (Req_dec_T s 0), (Req_dec_T t 0); cbn; try reflexivity.
    + destruct (Req_dec_T s 0); [reflexivity | contradiction].
    + destruct (Req_dec_T t 0); [reflexivity | contradiction].
    + destruct (Req_dec_T t 0); [contradiction|].
      destruct (Req_dec_T s 0); [contradiction|].
      f_equal. now field.
  - now destruct (Req_dec_T s 0).
  - now destruct (Req_dec_T t 0).
Qed.

Lemma pearson_sym (x y : list float) :
  length x = length y -> pearson x y = pearson y x.
Proof.
  intros Hlen. unfold pearson.
  now rewrite (np_cov_sym x y Hlen), fdiv_swap.
Qed.

(** X21.  [my_correlation_function] does not depend on the order of the
    two series: the correlation, the p-value and the exception of a call
    are those of the call with [x] and [y] exchanged. *)
Theorem my_correlation_function_is_symmetric (x y : list R) (neff : Z) :
  my_correlation_function x y neff = my_correlation_function y x neff.
Proof.
  destruct (Nat.eq_dec (length x) (length y)) as [Hlen|Hlen].
  - unfold my_correlation_function. cbv zeta.
    rewrite !np_corrcoef_same_length by (rewrite !length_map; congruence).
    now rewrite (pearson_sym (map Fin x) (map Fin y))
      by (now rewrite !length_map).
  - unfold my_correlation_function, np_corrcoef. rewrite !length_map.
    replace (length x =? length y)%nat with false
      by (symmetry; now apply Nat.eqb_neq).
    replace (length y =? length x)%nat with false
      by (symmetry; apply Nat.eqb_neq; congruence).
    reflexivity.
Qed.

(** ** What taking the real part discards *)

(** The inverse transform of a spectrum with conjugate symmetry has no
    imaginary part. *)
Lemma hermitian_inverse_is_real (A : list C) (m : nat) :
  A <> [] ->
  (forall k, (k < length A)%nat ->
     nth ((length A - k) mod length A) A (0, 0) = Cconj (nth k A (0, 0))) ->
  (m < length A)%nat ->
  snd (nth m (Cdft 1 A) (0, 0)) = 0.
Proof.
  intros Hne Hherm Hm.
  pose proof (forward_then_inverse
                (map (fun v => (v, 0)) (Rreal_ifft A)) m) as H.
  rewrite length_map, length_Rreal_ifft in H. specialize (H Hm).
  rewrite hermitian_round_trip in H by assumption.
  rewrite nth_Cdft by assumption. rewrite H.
  rewrite (nth_map_lt (fun v => (v, 0)) _ m 0 (0, 0))
    by (now rewrite length_Rreal_ifft).
  unfold Cscale. cbn [fst snd]. ring.
Qed.

Lemma surrogate_spectrum_is_hermitian (n : nat) (z p : list R) :
  (n mod 2 = 0)%nat -> (2 <= n)%nat ->
  length z = n -> length p = (n / 2 - 1)%nat ->
  let A := Crecf (Rmagnitudes z) (Rphases_full n p) in
  length A = n
  /\ forall k, (k < length A)%nat ->
       nth ((length A - k) mod length A) A (0, 0) = Cconj (nth k A (0, 0)).
Proof.
  intros Hpar Hn Hz Hp A.
  assert (Hfull : length (Rphases_full n p) = n).
  { pose proof (length_phases_full_even n (map Fin p) Hpar Hn) as H.
    rewrite phases_full_fin, !length_map in H. now apply H. }
  assert (HA : length A = n)
    by (unfold A; rewrite length_Crecf; rewrite length_Rmagnitudes; congruence).
  split; [exact HA|]. rewrite HA. intros k Hk. unfold A.
  rewrite <- Hz, <- (length_Rmagnitudes z).
  apply Crecf_hermitian; rewrite ?length_Rmagnitudes.
  - congruence.
  - lia.
  - apply Rmagnitudes_symmetric. lia.
  - rewrite Hz. now apply Rphases_full_even_antisymmetric.
Qed.

(** X23.  On series of even length, taking the real part of the inverse
    transform discards nothing: the magnitudes are symmetric and the phase
    array built in the even branch is antisymmetric, so in exact arithmetic
    every entry of [np.fft.ifft(recf_x)] has imaginary part zero, and the
    surrogate stored in the matrix is that array itself. *)
Theorem inverse_transform_of_even_branch_is_real (n : nat) (z p : list R) :
  (n mod 2 = 0)%nat -> (2 <= n)%nat ->
  length z = n -> length p = (n / 2 - 1)%nat ->
  exists s : list R,
    obind (broadcast_mul (magnitudes (map Fin z))
             (map np_exp_1j (phases_full n (map Fin p))))
          np_fft_ifft
    = Returns (map (fun v => Cx (Fin v) (Fin 0)) s)
    /\ surrogate n (magnitudes (map Fin z)) (map Fin p) = Returns (map Fin s).
Proof.
  intros Hpar Hn Hz Hp.
  destruct (surrogate_spectrum_is_hermitian n z p Hpar Hn Hz Hp) as [HA Hherm].
  set (A := Crecf (Rmagnitudes z) (Rphases_full n p)) in *.
  assert (Hne : A <> []) by (apply length_nonempty; lia).
  exists (Rreal_ifft A). split.
  - unfold broadcast_mul.
    rewrite length_map, length_magnitudes, length_map, Hz.
    rewrite (length_phases_full_even n (map Fin p))
      by (assumption || now rewrite length_map).
    rewrite Nat.eqb_refl. cbn [obind].
    fold (recf (magnitudes (map Fin z)) (phases_full n (map Fin p))).
    rewrite magnitudes_fin, phases_full_fin, recf_fin. fold A.
    rewrite np_fft_ifft_nonempty
      by (destruct A; [congruence | discriminate]).
    f_equal. rewrite dft_fin, length_map, HA. unfold Rreal_ifft.
    rewrite !map_map, HA. apply map_ext_in. intros c Hc.
    apply (In_nth _ _ (0, 0)) in Hc. destruct Hc as (m & Hm & <-).
    rewrite length_Cdft in Hm.
    pose proof (hermitian_inverse_is_real A m Hne Hherm Hm) as Him.
    assert (INR n <> 0) by (apply not_0_INR; lia).
    unfold cdiv_real, cfin. cbn [re im fst snd].
    rewrite !fdiv_fin by assumption. f_equal. f_equal.
    unfold C in *. rewrite Him. unfold Rdiv. ring.
  - destruct (surrogate_even n (magnitudes (map Fin z)) (map Fin p) Hpar Hn)
      as [Hs _]; try (now rewrite ?length_magnitudes, length_map).
    rewrite Hs, magnitudes_fin, phases_full_fin, recf_fin.
    f_equal. now apply real_ifft_fin.
Qed.

(** X25.  The forward transform undoes the inverse one.  On series of
    even length the transform of a surrogate is, in exact arithmetic, the
    array [recf_x] it was made from: the magnitudes of the original series
    with the phases as they were drawn, and the phase zero at frequency
    zero and at the Nyquist frequency. *)
Theorem transform_of_a_surrogate_is_recf (n : nat) (z p : list R) :
  (n mod 2 = 0)%nat -> (2 <= n)%nat ->
  length z = n -> length p = (n / 2 - 1)%nat ->
  let modx := magnitudes (map Fin z) in
  let phases_full_x := phases_full n (map Fin p) in
  exists s : list float,
    surrogate n modx (map Fin p) = Returns s
    /\ np_fft_fft (map of_real s) = Returns (recf modx phases_full_x)
    /\ nth 0 phases_full_x NaN = Fin 0
    /\ nth (n / 2) phases_full_x NaN = Fin 0.
Proof.
  intros Hpar Hn Hz Hp modx phases_full_x. subst modx phases_full_x.
  destruct (surrogate_spectrum_is_hermitian n z p Hpar Hn Hz Hp) as [HA Hherm].
  set (A := Crecf (Rmagnitudes z) (Rphases_full n p)) in *.
  assert (Hne : A <> []) by (apply length_nonempty; lia).
  exists (map Fin (Rreal_ifft A)). split; [|split; [|split]].
  - destruct (surrogate_even n (magnitudes (map Fin z)) (map Fin p) Hpar Hn)
      as [Hs _]; try (now rewrite ?length_magnitudes, length_map).
    rewrite Hs, magnitudes_fin, phases_full_fin, recf_fin.
    f_equal. now apply real_ifft_fin.
  - rewrite np_fft_fft_nonempty.
    + f_equal. rewrite magnitudes_fin, phases_full_fin, recf_fin. fold A.
      rewrite map_map.
      rewrite (map_ext (fun v => of_real (Fin v)) (fun v => cfin (v, 0)))
        by (intros; apply of_real_fin).
      rewrite <- (map_map (fun v => (v, 0)) cfin), dft_fin.
      f_equal. now apply hermitian_round_trip.
    + apply length_nonempty.
      rewrite !length_map, length_Rreal_ifft. lia.
  - rewrite phases_full_fin.
    rewrite (nth_indep _ NaN (Fin 0))
      by (rewrite length_map, <- (length_map Fin), <- phases_full_fin,
            (length_phases_full_even n (map Fin p))
            by (assumption || now rewrite length_map); lia).
    rewrite (map_nth Fin). f_equal.
    rewrite nth_Rphases_full_even by assumption. reflexivity.
  - rewrite phases_full_fin.
    assert (Hh : (n / 2 < n)%nat)
      by (pose proof (Nat.div_mod_eq n 2); lia).
    rewrite (nth_indep _ NaN (Fin 0))
      by (rewrite length_map, <- (length_map Fin), <- phases_full_fin,
            (length_phases_full_even n (map Fin p))
            by (assumption || now rewrite length_map); lia).
    rewrite (map_nth Fin). f_equal.
    rewrite nth_Rphases_full_even by assumption.
    assert (Hpos : (1 <= n / 2)%nat)
      by (pose proof (Nat.div_mod_eq n 2); lia).
    replace (n / 2 =? 0)%nat with false by (symmetry; apply Nat.eqb_neq; lia).
    replace (n / 2 <? n / 2)%nat with false
      by (symmetry; apply Nat.ltb_ge; lia).
    now rewrite Nat.eqb_refl.
Qed.

(** ** The shortcut of [scipy.stats.pearsonr] for two values *)

(** SciPy returns the product of the signs of the two differences for
    arrays of two values without forming the sums: the statistic is that
    product. *)
Lemma pearsonr_statistic_two (a b c d : R) :
  a <> b -> c <> d ->
  pearsonr_statistic [Fin a; Fin b] [Fin c; Fin d]
  = Fin (if Rlt_dec 0 ((b - a) * (d - c)) then 1 else -1).
Proof.
  intros Hab Hcd.
  change [Fin a; Fin b] with (map Fin [a; b]).
  change [Fin c; Fin d] with (map Fin [c; d]).
  rewrite pearsonr_statistic_pearson by (simpl; lia || reflexivity).
  rewrite pearson_fin;
    try (simpl; lia); try (apply Rcov_self_pos; [simpl; lia | now apply Rvar_two]).
  rewrite Rpearson_two by assumption. f_equal.
  replace ((b - a) * (d - c)) with ((a - b) * (c - d)) by ring. reflexivity.
Qed.

End MoreProperties.

(** * Further concrete calls *)

Lemma two_point_returns :
  snd (ebisuzaki (NR := lcg) [-1; 1] [1; -1] level_half 1 (Some 7%Z) world0)
  = Returns [PyFloat (Fin 0); PyArray [Fin 1]; PyFloat (Fin (-1))].
Proof. rewrite two_point_run. reflexivity. Qed.


Lemma short_arrays_give_nan_or_raise_witness :
  length [5]%R = length [7]%R /\ (length [5]%R < 2)%nat
  /\ (- 2 ^ 63 <= 10 - 2 < 2 ^ 64)%Z
  /\ my_correlation_function (SS := t_two) [5] [7] 10 = Returns (NaN, NaN)
  /\ sp_stats_pearsonr (map Fin [5]) (map Fin [7])
     = Raises (ValueError msg_length_two).
Proof.
  assert (Hn : (length [5]%R < 2)%nat) by (simpl; lia).
  assert (Hd : (- 2 ^ 63 <= 10 - 2 < 2 ^ 64)%Z) by lia.
  split; [reflexivity|]. split; [exact Hn|]. split; [exact Hd|].
  exact (short_arrays_give_nan_or_raise (SS := t_two) [5] [7] 10 eq_refl Hn Hd).
Defined.

Lemma returned_values_are_in_range_witness :
  snd (ebisuzaki (NR := lcg) [-1; 1] [1; -1] level_half 1 (Some 7%Z) world0)
  = Returns [PyFloat (Fin 0); PyArray [Fin 1]; PyFloat (Fin (-1))]
  /\ (forall r, Fin (-1) = Fin r -> -1 <= r <= 1)
  /\ Forall (fun v => forall r, v = Fin r -> -1 <= r <= 1) [Fin 1].
Proof.
  pose proof two_point_returns as H.
  split; [exact H|].
  destruct (returned_values_are_in_range (NR := lcg) _ _ _ _ _ _ _ _ _ H)
    as (_ & Hr & _ & Hs).
  split; [exact Hr | exact Hs].
Defined.

Lemma short_series_are_not_randomised_witness :
  length [-1; 1]%R = length [1; -1]%R
  /\ (length [-1; 1]%R = 2%nat \/ length [-1; 1]%R = 3%nat)
  /\ snd (ebisuzaki (NR := lcg) [-1; 1] [1; -1] level_half 5 (Some 7%Z) world0)
     = snd (ebisuzaki (NR := lcg) [-1; 1] [1; -1] level_half 5 None world0).
Proof.
  split; [reflexivity|]. split; [left; reflexivity|].
  exact (proj1 (short_series_are_not_randomised (NR := lcg) [-1; 1] [1; -1]
                  level_half 5 (Some 7%Z) None world0 world0 eq_refl
                  (or_introl eq_refl))).
Defined.


Lemma mismatch_raises :
  snd (ebisuzaki (NR := lcg) [1] [1; 2] level_default 1000 (Some 7%Z) world0)
  = Raises (ValueError msg_size).
Proof. rewrite ebisuzaki_mismatch by (simpl; lia). reflexivity. Qed.

Lemma a_call_that_raises_prints_nothing_witness :
  snd (ebisuzaki (NR := lcg) [1] [1; 2] level_default 1000 (Some 7%Z) world0)
  = Raises (ValueError msg_size)
  /\ stdout (fst (ebisuzaki (NR := lcg) [1] [1; 2] level_default 1000 (Some 7%Z)
                    world0))
     = stdout world0.
Proof.
  split; [exact mismatch_raises|].
  exact (a_call_that_raises_prints_nothing (NR := lcg) _ _ _ _ _ _ _
           mismatch_raises).
Defined.

Lemma series_of_fewer_than_two_points_raise_witness :
  length [5]%R = length [7]%R /\ (length [5]%R < 2)%nat
  /\ snd (ebisuzaki (NR := lcg) [5] [7] level_default 10 (Some 7%Z) world0)
     = Raises (ValueError msg_negative).
Proof.
  assert (Hn : (length [5]%R < 2)%nat) by (simpl; lia).
  split; [reflexivity|]. split; [exact Hn|].
  exact (series_of_fewer_than_two_points_raise (NR := lcg) [5] [7] level_default
           10 (Some 7%Z) world0 eq_refl Hn).
Defined.


Lemma two_point_returns_twice :
  exists F rSim r_real,
    snd (ebisuzaki (NR := lcg) [-1; 1] [1; -1] level_half 2 (Some 7%Z) world0)
    = Returns [PyFloat F; PyArray rSim; PyFloat r_real].
Proof.
  destruct (ebisuzaki_even_returns (NR := lcg) [-1; 1] [1; -1] level_half 2 1
              (Some 7%Z) world0) as [res Hres];
    [reflexivity | reflexivity | simpl; lia | lia | vm_compute; reflexivity
     | lia |].
  destruct (ebisuzaki_returns_inv _ _ _ _ _ _ _ Hres)
    as (rSim & cv & _ & _ & _ & _ & _ & E & _).
  rewrite E in Hres. eexists _, _, _. exact Hres.
Qed.

Lemma more_simulations_extend_the_sample_witness :
  (1 <= 2)%Z
  /\ exists F' rSim' r_real',
       snd (ebisuzaki (NR := lcg) [-1; 1] [1; -1] level_half 2 (Some 7%Z) world0)
       = Returns [PyFloat F'; PyArray rSim'; PyFloat r_real']
       /\ Fin (-1) = r_real' /\ [Fin 1] = firstn (Z.to_nat 1) rSim'.
Proof.
  assert (Hle : (1 <= 2)%Z) by lia.
  split; [exact Hle|].
  destruct two_point_returns_twice as (F' & rSim' & r' & H').
  exists F', rSim', r'. split; [exact H'|].
  exact (more_simulations_extend_the_sample (NR := lcg) [-1; 1] [1; -1]
           level_half level_half 1 2 (Some 7%Z) world0 _ _ _ _ _ _ Hle
           two_point_returns H').
Defined.

Lemma fraction_counts_strictly_larger_correlations_witness :
  snd (ebisuzaki (NR := lcg) [-1; 1] [1; -1] level_half 1 (Some 7%Z) world0)
  = Returns [PyFloat (Fin 0); PyArray [Fin 1]; PyFloat (Fin (-1))]
  /\ Fin 0 = Fin (INR (count_larger [Fin 1] (Fin (-1))) / IZR 1).
Proof.
  pose proof two_point_returns as H.
  split; [exact H|].
  exact (proj1 (proj2 (proj2
    (fraction_counts_strictly_larger_correlations (NR := lcg) _ _ _ _ _ _ _ _ _
       H)))).
Defined.




Lemma negative_lag_is_the_complementary_lag_witness :
  (0 < 1 < Z.of_nat (length [1; 2; 4]%R))%Z
  /\ lagged_autocorrelation [1; 2; 4] (- 1)
     = lagged_autocorrelation [1; 2; 4] (Z.of_nat (length [1; 2; 4]%R) - 1).
Proof.
  assert (Hk : (0 < 1 < Z.of_nat (length [1; 2; 4]%R))%Z) by (simpl; lia).
  split; [exact Hk|].
  exact (negative_lag_is_the_complementary_lag [1; 2; 4] 1 Hk).
Defined.




Lemma critical_value_reached_iff_few_larger_witness :
  snd (ebisuzaki (NR := lcg) [-1; 1] [1; -1] level_half 1 (Some 7%Z) world0)
  = Returns [PyFloat (Fin 0); PyArray [Fin 1]; PyFloat (Fin (-1))]
  /\ Forall (fun v => exists u, v = Fin u) [Fin 1]
  /\ exists (c : R) (i : Z),
       critical_index 1 level_half = Returns i
       /\ (c <= Rabs (-1)
           <-> (Z.of_nat (count_larger [Fin 1] (Fin (-1)))
                <= 1 - 1 - position 1 i)%Z).
Proof.
  pose proof two_point_returns as H.
  assert (Hf : Forall (fun v => exists u, v = Fin u) [Fin 1])
    by (constructor; [now exists 1 | constructor]).
  split; [exact H|]. split; [exact Hf|].
  destruct (critical_value_reached_iff_few_larger (NR := lcg) _ _ _ _ _ _ _ _ _
              H Hf) as (c & i & Hi & _ & _ & Hiff).
  exists c, i. split; [exact Hi | exact Hiff].
Defined.

Lemma inverse_transform_of_even_branch_is_real_witness :
  (2 mod 2 = 0)%nat /\ (2 <= 2)%nat /\ length [-1; 1]%R = 2%nat
  /\ length (@nil R) = (2 / 2 - 1)%nat
  /\ exists s : list R,
       obind (broadcast_mul (magnitudes (map Fin [-1; 1]))
                (map np_exp_1j (phases_full 2 (map Fin []))))
             np_fft_ifft
       = Returns (map (fun v => Cx (Fin v) (Fin 0)) s)
       /\ surrogate 2 (magnitudes (map Fin [-1; 1])) (map Fin [])
          = Returns (map Fin s).
Proof.
  split; [reflexivity|]. split; [exact (le_n 2)|]. split; [reflexivity|].
  split; [reflexivity|].
  exact (inverse_transform_of_even_branch_is_real 2 [-1; 1] [] eq_refl
           (le_n 2) eq_refl eq_refl).
Defined.

Lemma transform_of_a_surrogate_is_recf_witness :
  (2 mod 2 = 0)%nat /\ (2 <= 2)%nat /\ length [-1; 1]%R = 2%nat
  /\ length (@nil R) = (2 / 2 - 1)%nat
  /\ exists s : list float,
       surrogate 2 (magnitudes (map Fin [-1; 1])) (map Fin []) = Returns s
       /\ np_fft_fft (map of_real s)
          = Returns (recf (magnitudes (map Fin [-1; 1]))
                          (phases_full 2 (map Fin []))).
Proof.
  split; [reflexivity|]. split; [exact (le_n 2)|]. split; [reflexivity|].
  split; [reflexivity|].
  destruct (transform_of_a_surrogate_is_recf 2 [-1; 1] [] eq_refl
              (le_n 2) eq_refl eq_refl) as (s & H1 & H2 & _).
  exists s. split; [exact H1 | exact H2].
Defined.
